(** * Job queue manager of clarity-automation (src/queue-manager.js)

    A shallow embedding of the job-level queue: job id generation, the job
    store, the drain loop [processNextJob], the webhook notifier, the
    retention trimmer [cleanupOldJobs] and the in-job concurrency limiter
    [processRecordingsInJob], with the properties the specification states
    about them.

    Part III covers the rest of the manager ([getJobStatus], [updateJob],
    [getQueueStats], [getActiveJobs], the promise of [queueJob]) and the
    pure helpers its callers use: [parseDuration] and [extractSessionId]
    (src/clarity-api.js), the recording time of [recordClaritySession]
    (src/browserless.js), [withRetry] (src/capture-batch.js),
    [normalizeCookie], [parseCookieHeaderString] and [checkCookieExpiry]
    (src/cookie-utils.js) and the cookie check of the [/capture] and
    [/batch] routes (src/server.js).

    Numbers are modelled as exact integers: the statements hold while the
    values stay below 2^53, where JavaScript numbers are exact. Strings are
    sequences of code units below 256. *)

From Stdlib Require Import ZArith NArith Lia Bool List.
From Stdlib Require Import Strings.Ascii Strings.String.
From Stdlib Require Import Numbers.DecimalString Numbers.DecimalN.
From stdpp Require Import base tactics option list strings sorting.

(** * Part I: the model *)

(** ** JavaScript string primitives used by the queue manager *)

Module JsString.

(** [String(n)] for a non-negative integer below 1e21: plain decimal. *)
Definition of_N (n : N) : string := NilZero.string_of_uint (N.to_uint n).

Fixpoint zeros (k : nat) : string :=
  match k with
  | O => ""
  | S k' => String "0"%char (zeros k')
  end.

(** [s.padStart(w, '0')] *)
Definition padStart0 (w : nat) (s : string) : string :=
  zeros (w - String.length s) +:+ s.

(** [s.replace(/[-:T]/g, '')] *)
Definition is_sep (c : ascii) : bool :=
  Ascii.eqb c "-"%char || Ascii.eqb c ":"%char || Ascii.eqb c "T"%char.

Fixpoint strip_seps (s : string) : string :=
  match s with
  | "" => ""
  | String c s' => if is_sep c then strip_seps s' else String c (strip_seps s')
  end.

(** [s.slice(0, n)] *)
Definition slice0 (n : nat) (s : string) : string := String.substring 0 n s.

(** [a < b] on strings: lexicographic on code units. *)
Definition lt (a b : string) : bool := String.ltb a b.

Definition is_digit (c : ascii) : bool :=
  Ascii.leb "0"%char c && Ascii.leb c "9"%char.

Fixpoint all_digits (s : string) : bool :=
  match s with
  | "" => true
  | String c s' => is_digit c && all_digits s'
  end.

(** The number a string of digits reads as, from the left. *)
Fixpoint value (acc : N) (s : string) : N :=
  match s with
  | "" => acc
  | String c s' => value (10 * acc + (N_of_ascii c - 48)) s'
  end.

End JsString.

(** ** [Date.prototype.toISOString] on a time value (milliseconds since the
    epoch, UTC), as ECMAScript defines it: [YYYY-MM-DDTHH:mm:ss.sssZ], with
    the expanded year [±YYYYYY] outside 0..9999. *)

Module JsDate.
Import JsString.
Local Open Scope Z_scope.

Definition msPerDay : Z := 86400000.

Definition Day (t : Z) : Z := t / msPerDay.
Definition TimeWithinDay (t : Z) : Z := t mod msPerDay.

(** Year, month (1..12) and day of month (1..31) of a day number counted
    from 1970-01-01, in the proleptic Gregorian calendar. *)
Definition civil (days : Z) : Z * Z * Z :=
  let z := days + 719468 in
  let era := z / 146097 in
  let doe := z - era * 146097 in
  let yoe := (doe - doe / 1460 + doe / 36524 - doe / 146096) / 365 in
  let y := yoe + era * 400 in
  let doy := doe - (365 * yoe + yoe / 4 - yoe / 100) in
  let mp := (5 * doy + 2) / 153 in
  let d := doy - (153 * mp + 2) / 5 + 1 in
  let m := if Z.ltb mp 10 then mp + 3 else mp - 9 in
  (if Z.leb m 2 then y + 1 else y, m, d).

Definition pad (w : nat) (v : Z) : string := padStart0 w (of_N (Z.to_N v)).

Definition yearString (y : Z) : string :=
  if Z.leb 0 y && Z.leb y 9999 then pad 4 y
  else (if Z.ltb y 0 then "-" else "+") +:+ pad 6 (Z.abs y).

Definition toISOString (t : Z) : string :=
  let '(y, m, d) := civil (Day t) in
  let r := TimeWithinDay t in
  yearString y +:+ "-" +:+ pad 2 m +:+ "-" +:+ pad 2 d +:+ "T"
    +:+ pad 2 (r / 3600000) +:+ ":" +:+ pad 2 (r / 60000 mod 60) +:+ ":"
    +:+ pad 2 (r / 1000 mod 60) +:+ "." +:+ pad 3 (r mod 1000) +:+ "Z".

End JsDate.

(** ** Job ids: [generateJobId] *)

Module JobId.
Import JsString.

(** [++jobIdCounter] on a JavaScript number: exact up to 2^53, where the
    increment is absorbed by rounding. *)
Definition incr (c : N) : N := if N.ltb c (2 ^ 53) then (c + 1)%N else c.

(** [now.toISOString().replace(/[-:T]/g, '').slice(0, 14)] *)
Definition timestamp (now : Z) : string :=
  slice0 14 (strip_seps (JsDate.toISOString now)).

Definition suffix (c : N) : string := padStart0 3 (of_N c).

(** [generateJobId()]: the id and the updated [jobIdCounter]. *)
Definition generateJobId (jobIdCounter : N) (now : Z) : string * N :=
  let c := incr jobIdCounter in
  ("job_" +:+ timestamp now +:+ "_" +:+ suffix c, c).

(** The ids of jobs created one after the other, at the given instants. *)
Fixpoint generateMany (jobIdCounter : N) (nows : list Z) : list string :=
  match nows with
  | [] => []
  | now :: rest =>
      let '(i, c) := generateJobId jobIdCounter now in
      i :: generateMany c rest
  end.

End JobId.

(** ** Values shared by the limiter and the queue *)

(** A thrown value: an [Error] carrying a message. *)
Record JsError := { message : string }.

(** How an awaited promise settles. *)
Inductive Settled (A : Type) :=
| Fulfilled (v : A)
| RejectedWith (e : JsError).
Arguments Fulfilled {A} v.
Arguments RejectedWith {A} e.

(** How the promise of a caller's callback settles. Nothing confines what
    such a promise rejects with: besides [Error]s there are [undefined] and
    [null], the two values off which no [message] can be read. *)
Inductive Awaited (A : Type) :=
| Typed (o : Settled A)
| RejectedNullish.
Arguments Typed {A} o.
Arguments RejectedNullish {A}.

(** The outcome of one recording inside a job. The fields beyond [success],
    [sessionId] and [error] are the caller's (location, path, fileId, ...). *)
Module TaskResult.
Record t := {
  success : bool;
  sessionId : string;
  error : option string;
  extra : list (string * string)
}.
End TaskResult.

Module Recording.
Record t := { sessionId : string; playbackUrl : string }.
End Recording.

(** ** In-job parallelism: [processRecordingsInJob]

    [pLimit(k)] (package p-limit) keeps a FIFO of the wrapped units and runs at
    most [k] of them at a time: a unit that settles frees its place for the
    head of the FIFO. [Promise.all] fills one slot per input position. The
    order in which running units settle, and how each one settles, is the
    environment's: a schedule lists the settlements as they happen. *)

Module Limiter.

Record State := {
  running : list nat;                       (* units in flight *)
  waiting : list nat;                       (* pLimit's queue *)
  slots : list (option TaskResult.t);       (* Promise.all's result array *)
  rejected : list nat                       (* units whose promise rejected *)
}.


(** The body of the wrapped unit: the [try] returns what [processFunc]
    resolved with, the [catch] turns a rejection into a failed result. The
    [catch] reads [error.message], first for its console line: when
    [processFunc] rejected with [undefined] or [null] that read throws a
    [TypeError], and the unit's own promise rejects ([None]). *)
Definition unitResult (recording : Recording.t)
    (o : Awaited TaskResult.t) : option TaskResult.t :=
  match o with
  | Typed (Fulfilled result) => Some result
  | Typed (RejectedWith e) =>
      Some {| TaskResult.success := false;
              TaskResult.sessionId := Recording.sessionId recording;
              TaskResult.error := Some (message e);
              TaskResult.extra := [] |}
  | RejectedNullish => None
  end.

(** After [recordings.map(... limit(...))]: the first [k] units run, the
    others wait in order. *)
Definition start (k n : nat) : State :=
  {| running := seq 0 (min k n);
     waiting := seq (min k n) (n - min k n);
     slots := replicate n None;
     rejected := [] |}.

(** pLimit once unit [i] has settled, fulfilled or rejected: the head of
    its queue, if any, takes the place. *)
Definition release (i : nat) (st : State) : list nat * list nat :=
  let rest := filter (λ j, j ≠ i) (running st) in
  match waiting st with
  | [] => (rest, [])
  | j :: w => (rest ++ [j], w)
  end.

(** Unit [i], in flight, settles with [o]. A fulfilled unit fills its slot
    of [Promise.all]; a rejected one leaves it empty. *)
Definition settle (recordings : list Recording.t) (i : nat)
    (o : Awaited TaskResult.t) (st : State) : option State :=
  if decide (i ∈ running st) then
    match recordings !! i with
    | Some recording =>
        Some {| running := (release i st).1;
                waiting := (release i st).2;
                slots :=
                  match unitResult recording o with
                  | Some r => <[i := Some r]> (slots st)
                  | None => slots st
                  end;
                rejected :=
                  match unitResult recording o with
                  | Some _ => rejected st
                  | None => rejected st ++ [i]
                  end |}
    | None => None
    end
  else None.

Fixpoint run (recordings : list Recording.t)
    (schedule : list (nat * Awaited TaskResult.t)) (st : State) : option State :=
  match schedule with
  | [] => Some st
  | (i, o) :: rest =>
      match settle recordings i o st with
      | Some st' => run recordings rest st'
      | None => None
      end
  end.

(** The array of results once every slot is filled. *)
Definition allSettled (st : State) : option (list TaskResult.t) :=
  mapM id (slots st).

(** How the promise of [Promise.all(promises)] settles: rejected as soon as
    one unit's promise is, with that unit's [TypeError]; fulfilled with the
    array once every slot is filled. *)
Inductive Batch :=
| Results (rs : list TaskResult.t)
| Aborted (i : nat).

Definition promiseAll (st : State) : option Batch :=
  match rejected st with
  | i :: _ => Some (Aborted i)
  | [] => Results <$> allSettled st
  end.

(** [processRecordingsInJob(recordings, processFunc, {maxConcurrent})] under
    a schedule of settlements: how the promise it returns has settled.
    [pLimit] refuses a concurrency below 1 with a [TypeError]; a schedule
    that settles a unit not in flight, or that stops before the promise has
    settled, yields nothing. *)
Definition batch (recordings : list Recording.t)
    (k : nat) (schedule : list (nat * Awaited TaskResult.t))
    : option Batch :=
  if decide (k = 0) then None
  else
    match run recordings schedule (start k (length recordings)) with
    | Some st => promiseAll st
    | None => None
    end.

(** The array [processRecordingsInJob] resolves with, when it does. *)
Definition processRecordingsInJob (recordings : list Recording.t)
    (k : nat) (schedule : list (nat * Awaited TaskResult.t))
    : option (list TaskResult.t) :=
  match batch recordings k schedule with
  | Some (Results rs) => Some rs
  | _ => None
  end.

(** The units of a schedule that rejected with [undefined] or [null], in
    the order they did. *)
Definition nullish (schedule : list (nat * Awaited TaskResult.t)) : list nat :=
  omap (λ x, match x.2 with
             | RejectedNullish => Some x.1
             | Typed _ => None
             end) schedule.

(** What holds of the limiter after the settlements [schedule]: the array
    has one slot per recording; the units still to settle and those that
    rejected are the ones with an empty slot; at most [k] are in flight,
    exactly [k] while some wait; a filled slot holds the result of that
    position's own settlement, and every settlement is in its position's
    slot; the rejected units are those of the schedule, in order. *)
Definition Inv (recordings : list Recording.t) (k : nat)
    (schedule : list (nat * Awaited TaskResult.t)) (st : State) : Prop :=
  length (slots st) = length recordings
  ∧ NoDup (running st ++ waiting st)
  ∧ (∀ i, (i ∈ running st ++ waiting st ∨ i ∈ rejected st)
          ↔ slots st !! i = Some None)
  ∧ length (running st) ≤ k
  ∧ (waiting st ≠ [] → length (running st) = k)
  ∧ (∀ i r, slots st !! i = Some (Some r) →
       ∃ recording o, recordings !! i = Some recording
                      ∧ (i, o) ∈ schedule ∧ unitResult recording o = Some r)
  ∧ (∀ i o, (i, o) ∈ schedule →
       (i ∉ running st ++ waiting st)
       ∧ ∃ recording, recordings !! i = Some recording
                      ∧ slots st !! i = Some (unitResult recording o))
  ∧ length (running st ++ waiting st) + length schedule = length recordings
  ∧ rejected st = nullish schedule.

End Limiter.

(** ** A JavaScript [Map] with string keys: entries in insertion order *)

Module JsMap.
Section JsMap.
Context {V : Type}.

(** [m.set(k, v)]: an existing key keeps its place, a new one goes last. *)
Fixpoint set (k : string) (v : V) (m : list (string * V)) : list (string * V) :=
  match m with
  | [] => [(k, v)]
  | e :: m' => if decide (e.1 = k) then (k, v) :: m' else e :: set k v m'
  end.

Fixpoint get (k : string) (m : list (string * V)) : option V :=
  match m with
  | [] => None
  | e :: m' => if decide (e.1 = k) then Some e.2 else get k m'
  end.

Definition delete (k : string) (m : list (string * V)) : list (string * V) :=
  filter (λ e, e.1 ≠ k) m.
End JsMap.
End JsMap.

(** [Array.prototype.sort(cmp)]: stable; [cmp a b <= 0] keeps [a] before [b]. *)
Module JsArray.
Section Sort.
Context {A : Type} (cmp : A → A → Z).

Fixpoint insert (x : A) (l : list A) : list A :=
  match l with
  | [] => [x]
  | y :: l' => if Z.leb (cmp x y) 0 then x :: y :: l' else y :: insert x l'
  end.

Fixpoint sort (l : list A) : list A :=
  match l with
  | [] => []
  | x :: l' => insert x (sort l')
  end.
End Sort.
End JsArray.

(** ** The job record *)

Inductive Status := queued | processing | completed | failed.

Global Instance Status_eq_dec : EqDecision Status.
Proof. solve_decision. Defined.

Module Job.
(** Timestamps are kept as time values; the code stores their ISO strings,
    which [new Date(...)] reads back to the same value. *)
Record t := {
  id : string;
  status : Status;
  folder : string;
  createdAt : Z;
  startedAt : option Z;
  completedAt : option Z;
  recordingsTotal : nat;
  recordingsCompleted : nat;
  recordingsFailed : nat;
  results : list TaskResult.t;
  error : option string;
  webhookUrl : option string;
  uploadToGdrive : bool;
  metadata : list (string * string)
}.

Definition blank : t :=
  {| id := ""; status := queued; folder := ""; createdAt := 0;
     startedAt := None; completedAt := None; recordingsTotal := 0;
     recordingsCompleted := 0; recordingsFailed := 0; results := [];
     error := None; webhookUrl := None; uploadToGdrive := false;
     metadata := [] |}.

(** [job.status = 'processing'; job.startedAt = now] *)
Definition start (now : Z) (j : t) : t :=
  {| id := id j; status := processing; folder := folder j;
     createdAt := createdAt j; startedAt := Some now;
     completedAt := completedAt j; recordingsTotal := recordingsTotal j;
     recordingsCompleted := recordingsCompleted j;
     recordingsFailed := recordingsFailed j; results := results j;
     error := error j; webhookUrl := webhookUrl j;
     uploadToGdrive := uploadToGdrive j; metadata := metadata j |}.

(** The five assignments after [await processFunction(job)]. *)
Definition complete (now : Z) (rs : list TaskResult.t) (j : t) : t :=
  {| id := id j; status := completed; folder := folder j;
     createdAt := createdAt j; startedAt := startedAt j;
     completedAt := Some now; recordingsTotal := recordingsTotal j;
     recordingsCompleted :=
       length (filter (λ r, TaskResult.success r = true) rs);
     recordingsFailed :=
       length (filter (λ r, negb (TaskResult.success r) = true) rs);
     results := rs;
     error := error j; webhookUrl := webhookUrl j;
     uploadToGdrive := uploadToGdrive j; metadata := metadata j |}.

(** The three assignments of the [catch] block. *)
Definition fail (now : Z) (e : JsError) (j : t) : t :=
  {| id := id j; status := failed; folder := folder j;
     createdAt := createdAt j; startedAt := startedAt j;
     completedAt := Some now; recordingsTotal := recordingsTotal j;
     recordingsCompleted := recordingsCompleted j;
     recordingsFailed := recordingsFailed j; results := results j;
     error := Some (message e); webhookUrl := webhookUrl j;
     uploadToGdrive := uploadToGdrive j; metadata := metadata j |}.

(** The first two assignments of the [catch] block alone: what it has done
    when the third, [job.error = error.message], throws. *)
Definition failUnrecorded (now : Z) (j : t) : t :=
  {| id := id j; status := failed; folder := folder j;
     createdAt := createdAt j; startedAt := startedAt j;
     completedAt := Some now; recordingsTotal := recordingsTotal j;
     recordingsCompleted := recordingsCompleted j;
     recordingsFailed := recordingsFailed j; results := results j;
     error := error j; webhookUrl := webhookUrl j;
     uploadToGdrive := uploadToGdrive j; metadata := metadata j |}.

(** [j.status === 'completed' || j.status === 'failed'] *)
Definition isTerminal (j : t) : bool :=
  match status j with
  | completed | failed => true
  | _ => false
  end.

(** [new Date(j.completedAt)] as a number; [new Date(null)] is the epoch. *)
Definition completedTime (j : t) : Z := default 0%Z (completedAt j).
End Job.

Global Instance Job_inhabited : Inhabited Job.t := populate Job.blank.

(** ** The queue manager's state and the suspended runs of [processNextJob] *)

Module Queue.

(** The argument of [createJob] and [queueJob]; an absent field is [None]. *)
Record Options := {
  outputDir : option string;
  recordingsCount : option nat;
  optWebhookUrl : option string;
  optUploadToGdrive : option bool;
  optMetadata : option (list (string * string))
}.

Record Stats := {
  jobsCompleted : nat;
  jobsFailed : nat;
  recordingsProcessed : nat
}.

(** What [queueJob]'s promise resolves with. *)
Record JobOutcome := {
  outSuccess : bool;
  outJobId : string;
  outFolder : string;
  outTotal : nat;
  outCompleted : nat;
  outFailed : nat;
  outResults : list TaskResult.t
}.

Inductive Promise :=
| Pending
| Resolved (v : JobOutcome)
| Rejected (e : JsError).

(** An entry of [jobQueue]. Objects are referred to by their place in the
    heap; [resolve] and [reject] are the two handles of one promise. *)
Record Entry := {
  job : nat;
  processFunction : nat;
  promise : nat
}.

(** A run of [processNextJob] suspended at one of its three [await]s. *)
Inductive Frame :=
| AwaitProcess (e : Entry)
| AwaitWebhookTry (e : Entry) (results : list TaskResult.t)
| AwaitWebhookCatch (e : Entry) (error : JsError).

(** The body of the webhook POST. *)
Record Payload := {
  pEvent : string;
  pJobId : string;
  pStatus : Status;
  pFolder : string;
  pRecordingsTotal : nat;
  pRecordingsCompleted : nat;
  pRecordingsFailed : nat;
  pCreatedAt : Z;
  pCompletedAt : option Z;
  pResults : list TaskResult.t;
  pMetadata : list (string * string)
}.

(** How [fetch] settles. *)
Inductive FetchResult :=
| FetchOk
| FetchNotOk (status : nat)
| FetchError (e : JsError).

(** What the manager does, in order: its console lines, the calls of
    [sendWebhookNotification], the POSTs it issues, and the [TypeError]
    thrown inside the [catch] block of the run that has job [r] in hand. *)
Inductive Event :=
| LogCreated (r : nat)
| LogQueued (r : nat)
| LogStarting (r : nat)
| LogCompleted (r : nat)
| LogFailed (r : nat)
| CatchThrew (r : nat)
| Notify (r : nat)
| Post (r : nat) (url : string) (body : Payload)
| LogWebhookSent
| LogWebhookFailed (status : nat)
| LogWebhookError (msg : string).

Record State := {
  jobQueue : list Entry;
  currentJob : option nat;
  isProcessing : bool;
  allJobs : list (string * nat);
  jobIdCounter : N;
  stats : Stats;
  heap : list Job.t;
  frames : list Frame;
  promises : list Promise;
  trace : list Event
}.

Definition init : State :=
  {| jobQueue := []; currentJob := None; isProcessing := false;
     allJobs := []; jobIdCounter := 0;
     stats := {| jobsCompleted := 0; jobsFailed := 0; recordingsProcessed := 0 |};
     heap := []; frames := []; promises := []; trace := [] |}.

Definition with_jobQueue (x : list Entry) (s : State) : State :=
  {| jobQueue := x; currentJob := currentJob s; isProcessing := isProcessing s;
     allJobs := allJobs s; jobIdCounter := jobIdCounter s; stats := stats s;
     heap := heap s; frames := frames s; promises := promises s;
     trace := trace s |}.

Definition with_currentJob (x : option nat) (s : State) : State :=
  {| jobQueue := jobQueue s; currentJob := x; isProcessing := isProcessing s;
     allJobs := allJobs s; jobIdCounter := jobIdCounter s; stats := stats s;
     heap := heap s; frames := frames s; promises := promises s;
     trace := trace s |}.

Definition with_isProcessing (x : bool) (s : State) : State :=
  {| jobQueue := jobQueue s; currentJob := currentJob s; isProcessing := x;
     allJobs := allJobs s; jobIdCounter := jobIdCounter s; stats := stats s;
     heap := heap s; frames := frames s; promises := promises s;
     trace := trace s |}.

Definition with_allJobs (x : list (string * nat)) (s : State) : State :=
  {| jobQueue := jobQueue s; currentJob := currentJob s;
     isProcessing := isProcessing s;
     allJobs := x; jobIdCounter := jobIdCounter s; stats := stats s;
     heap := heap s; frames := frames s; promises := promises s;
     trace := trace s |}.

Definition with_jobIdCounter (x : N) (s : State) : State :=
  {| jobQueue := jobQueue s; currentJob := currentJob s;
     isProcessing := isProcessing s;
     allJobs := allJobs s; jobIdCounter := x; stats := stats s;
     heap := heap s; frames := frames s; promises := promises s;
     trace := trace s |}.

Definition with_stats (x : Stats) (s : State) : State :=
  {| jobQueue := jobQueue s; currentJob := currentJob s;
     isProcessing := isProcessing s;
     allJobs := allJobs s; jobIdCounter := jobIdCounter s; stats := x;
     heap := heap s; frames := frames s; promises := promises s;
     trace := trace s |}.

Definition with_heap (x : list Job.t) (s : State) : State :=
  {| jobQueue := jobQueue s; currentJob := currentJob s;
     isProcessing := isProcessing s;
     allJobs := allJobs s; jobIdCounter := jobIdCounter s; stats := stats s;
     heap := x; frames := frames s; promises := promises s;
     trace := trace s |}.

Definition with_frames (x : list Frame) (s : State) : State :=
  {| jobQueue := jobQueue s; currentJob := currentJob s;
     isProcessing := isProcessing s;
     allJobs := allJobs s; jobIdCounter := jobIdCounter s; stats := stats s;
     heap := heap s; frames := x; promises := promises s;
     trace := trace s |}.

Definition with_promises (x : list Promise) (s : State) : State :=
  {| jobQueue := jobQueue s; currentJob := currentJob s;
     isProcessing := isProcessing s;
     allJobs := allJobs s; jobIdCounter := jobIdCounter s; stats := stats s;
     heap := heap s; frames := frames s; promises := x;
     trace := trace s |}.

Definition with_trace (x : list Event) (s : State) : State :=
  {| jobQueue := jobQueue s; currentJob := currentJob s;
     isProcessing := isProcessing s;
     allJobs := allJobs s; jobIdCounter := jobIdCounter s; stats := stats s;
     heap := heap s; frames := frames s; promises := promises s;
     trace := x |}.

Definition emit (ev : Event) (s : State) : State :=
  with_trace (trace s ++ [ev]) s.

(** An assignment to fields of the job object [r]. *)
Definition mutate (r : nat) (f : Job.t → Job.t) (s : State) : State :=
  with_heap (alter f r (heap s)) s.

(** [job.webhookUrl] is truthy: neither null nor the empty string. *)
Definition truthy (o : option string) : bool :=
  match o with
  | Some u => negb (String.eqb u "")
  | None => false
  end.

(** [x || d] on an optional string. *)
Definition orString (o : option string) (d : string) : string :=
  match o with
  | Some u => if String.eqb u "" then d else u
  | None => d
  end.

(** [getJobStatus(jobId)] *)
Definition getJobStatus (jobId : string) (s : State) : option Job.t :=
  r ← JsMap.get jobId (allJobs s); heap s !! r.

(** [updateJob(jobId, updates)], with the assignment given as a function. *)
Definition updateJob (jobId : string) (updates : Job.t → Job.t) (s : State) : State :=
  match JsMap.get jobId (allJobs s) with
  | Some r => mutate r updates s
  | None => s
  end.

Definition payloadOf (j : Job.t) : Payload :=
  {| pEvent := "job_completed"; pJobId := Job.id j; pStatus := Job.status j;
     pFolder := Job.folder j; pRecordingsTotal := Job.recordingsTotal j;
     pRecordingsCompleted := Job.recordingsCompleted j;
     pRecordingsFailed := Job.recordingsFailed j;
     pCreatedAt := Job.createdAt j; pCompletedAt := Job.completedAt j;
     pResults := Job.results j; pMetadata := Job.metadata j |}.

(** [sendWebhookNotification(job)] up to its [await fetch(...)]. *)
Definition sendWebhookNotification (r : nat) (s : State) : State :=
  let s := emit (Notify r) s in
  let j := heap s !!! r in
  if truthy (Job.webhookUrl j)
  then emit (Post r (default "" (Job.webhookUrl j)) (payloadOf j)) s
  else s.

(** The rest of [sendWebhookNotification] once [fetch] has settled: one
    console line, whatever the outcome. *)
Definition webhookSettled (r : nat) (fr : FetchResult) (s : State) : State :=
  if truthy (Job.webhookUrl (heap s !!! r)) then
    emit (match fr with
          | FetchOk => LogWebhookSent
          | FetchNotOk st => LogWebhookFailed st
          | FetchError e => LogWebhookError (message e)
          end) s
  else s.

(** [resolve(v)] / [reject(e)]: only a pending promise settles. *)
Definition settlePromise (p : nat) (v : Promise) (s : State) : State :=
  with_promises
    (alter (λ old, match old with Pending => v | _ => old end) p (promises s)) s.

(** [cleanupOldJobs()] *)
Definition cleanupOldJobs (s : State) : State :=
  let completed_ :=
    JsArray.sort
      (λ a b, (Job.completedTime (heap s !!! b.2)
               - Job.completedTime (heap s !!! a.2))%Z)
      (filter (λ e, Job.isTerminal (heap s !!! e.2) = true) (allJobs s)) in
  if decide (50 < length completed_) then
    with_allJobs
      (foldl (λ m e, JsMap.delete e.1 m) (allJobs s) (drop 50 completed_)) s
  else s.

(** [processNextJob()] up to [await processFunction(job)]. *)
Definition processNextJob (now : Z) (s : State) : State :=
  if isProcessing s || bool_decide (length (jobQueue s) = 0) then s
  else
    match jobQueue s with
    | [] => s
    | e :: q =>
        let s := with_isProcessing true s in
        let s := with_jobQueue q s in
        let s := with_currentJob (Some (job e)) s in
        let s := emit (LogStarting (job e)) s in
        let s := mutate (job e) (Job.start now) s in
        with_frames (frames s ++ [AwaitProcess e]) s
    end.

(** The [finally] block; the finished run [i] leaves the set of suspended
    runs. *)
Definition finally (i : nat) (now : Z) (s : State) : State :=
  let s := with_frames (delete i (frames s)) s in
  let s := with_currentJob None s in
  let s := with_isProcessing false s in
  let s := cleanupOldJobs s in
  processNextJob now s.

Section WithPath.
(** [path.join] of Node's [path] module. *)
Variable path_join : string → string → string.

(** The object literal of [createJob]. *)
Definition newJob (options : Options) (jobId : string) (tCreated : Z) : Job.t :=
  {| Job.id := jobId; Job.status := queued;
     Job.folder := path_join (orString (outputDir options) "./recordings") jobId;
     Job.createdAt := tCreated; Job.startedAt := None;
     Job.completedAt := None;
     Job.recordingsTotal := default 0 (recordingsCount options);
     Job.recordingsCompleted := 0; Job.recordingsFailed := 0;
     Job.results := []; Job.error := None;
     Job.webhookUrl :=
       if truthy (optWebhookUrl options) then optWebhookUrl options else None;
     Job.uploadToGdrive := default false (optUploadToGdrive options);
     Job.metadata := default [] (optMetadata options) |}.

(** [createJob(options)]: the new job object and the state after. The
    clock is read for the id and again for [createdAt]. *)
Definition createJob (options : Options) (tId tCreated : Z) (s : State)
    : nat * State :=
  let jobId := (JobId.generateJobId (jobIdCounter s) tId).1 in
  let c := (JobId.generateJobId (jobIdCounter s) tId).2 in
  let r := length (heap s) in
  let s := with_jobIdCounter c s in
  let s := with_heap (heap s ++ [newJob options jobId tCreated]) s in
  let s := with_allJobs (JsMap.set jobId r (allJobs s)) s in
  (r, emit (LogCreated r) s).

(** [queueJob(options, processFunction)]: the state after the call; the
    returned promise is the last one allocated. *)
Definition queueJob (options : Options) (pf : nat)
    (tId tCreated tStarted : Z) (s : State) : State :=
  let p := length (promises s) in
  let s := with_promises (promises s ++ [Pending]) s in
  let r := (createJob options tId tCreated s).1 in
  let s := (createJob options tId tCreated s).2 in
  let s := with_jobQueue
             (jobQueue s ++ [{| job := r; processFunction := pf; promise := p |}]) s in
  let s := emit (LogQueued r) s in
  processNextJob tStarted s.

(** The run suspended at [await processFunction(job)] resumes, the
    callback having resolved or rejected with an [Error]: the rest of the
    [try], or the [catch], up to [await sendWebhookNotification]. *)
Definition onProcessSettled (i : nat) (o : Settled (list TaskResult.t))
    (now : Z) (s : State) : State :=
  match frames s !! i with
  | Some (AwaitProcess e) =>
      match o with
      | Fulfilled rs =>
          let s := mutate (job e) (Job.complete now rs) s in
          let s := with_stats
                     {| jobsCompleted := S (jobsCompleted (stats s));
                        jobsFailed := jobsFailed (stats s);
                        recordingsProcessed :=
                          recordingsProcessed (stats s) + length rs |} s in
          let s := emit (LogCompleted (job e)) s in
          let s := sendWebhookNotification (job e) s in
          with_frames (<[i := AwaitWebhookTry e rs]> (frames s)) s
      | RejectedWith err =>
          let s := mutate (job e) (Job.fail now err) s in
          let s := with_stats
                     {| jobsCompleted := jobsCompleted (stats s);
                        jobsFailed := S (jobsFailed (stats s));
                        recordingsProcessed := recordingsProcessed (stats s) |} s in
          let s := emit (LogFailed (job e)) s in
          let s := sendWebhookNotification (job e) s in
          with_frames (<[i := AwaitWebhookCatch e err]> (frames s)) s
      end
  | _ => s
  end.

(** The run suspended at [await processFunction(job)] resumes with a
    rejection by [undefined] or [null]. The [catch] sets [status] and
    [completedAt]; [job.error = error.message] then throws a [TypeError],
    and the rest of the [catch] is skipped: no count in [stats], no console
    line, no call of [sendWebhookNotification], no [reject]. The [finally]
    block runs, the clock being read again if it starts the next job. The
    [TypeError] then leaves the run as the rejection of the promise that the
    call of [processNextJob] returned, which no one holds: what the host
    does with an unhandled rejection (Node, by default, ends the process)
    is not the manager's, and the states after this turn are those of a
    process that goes on. *)
Definition onProcessRejectedNullish (i : nat) (tCompleted tStarted : Z)
    (s : State) : State :=
  match frames s !! i with
  | Some (AwaitProcess e) =>
      let s := mutate (job e) (Job.failUnrecorded tCompleted) s in
      let s := emit (CatchThrew (job e)) s in
      finally i tStarted s
  | _ => s
  end.

(** The run suspended at [await sendWebhookNotification(job)] resumes:
    [resolve] or [reject], then the [finally] block. *)
Definition onWebhookSettled (i : nat) (fr : FetchResult) (now : Z)
    (s : State) : State :=
  match frames s !! i with
  | Some (AwaitWebhookTry e rs) =>
      let s := webhookSettled (job e) fr s in
      let j := heap s !!! job e in
      let s := settlePromise (promise e)
                 (Resolved {| outSuccess := true; outJobId := Job.id j;
                              outFolder := Job.folder j;
                              outTotal := Job.recordingsTotal j;
                              outCompleted := Job.recordingsCompleted j;
                              outFailed := Job.recordingsFailed j;
                              outResults := rs |}) s in
      finally i now s
  | Some (AwaitWebhookCatch e err) =>
      let s := webhookSettled (job e) fr s in
      let s := settlePromise (promise e) (Rejected err) s in
      finally i now s
  | _ => s
  end.

(** What happens to the manager: calls of its two entry points and the
    settling of what a suspended run awaits. Each carries the clock
    readings the code takes in that turn. An input naming a run that is
    not suspended there cannot occur and changes nothing. *)
Inductive Input :=
| CallCreateJob (options : Options) (tId tCreated : Z)
| CallQueueJob (options : Options) (pf : nat) (tId tCreated tStarted : Z)
| ProcessSettled (i : nat) (o : Settled (list TaskResult.t)) (tCompleted : Z)
| ProcessRejectedNullish (i : nat) (tCompleted tStarted : Z)
| WebhookSettled (i : nat) (fr : FetchResult) (tStarted : Z).

Definition step (s : State) (inp : Input) : State :=
  match inp with
  | CallCreateJob options tId tCreated => (createJob options tId tCreated s).2
  | CallQueueJob options pf tId tCreated tStarted =>
      queueJob options pf tId tCreated tStarted s
  | ProcessSettled i o t => onProcessSettled i o t s
  | ProcessRejectedNullish i t t' => onProcessRejectedNullish i t t' s
  | WebhookSettled i fr t => onWebhookSettled i fr t s
  end.

(** The state after a history of inputs, from module load. *)
Definition exec (inputs : list Input) : State := foldl step init inputs.
End WithPath.

(** *** What holds of every state the manager reaches *)

Definition entryOf (f : Frame) : Entry :=
  match f with
  | AwaitProcess e | AwaitWebhookTry e _ | AwaitWebhookCatch e _ => e
  end.

(** The status of the job a suspended run has in hand. *)
Definition frameStatus (f : Frame) : Status :=
  match f with
  | AwaitProcess _ => processing
  | AwaitWebhookTry _ _ => completed
  | AwaitWebhookCatch _ _ => failed
  end.

Definition statusOf (s : State) (r : nat) : Status := Job.status (heap s !!! r).

(** The guard and the statuses: one suspended run exactly when
    [isProcessing] is set; the queued entries are distinct job objects with
    status ['queued']; the suspended run's job has the status of the await it
    is at; and a job is ['processing'] only in the hands of the run awaiting
    its [processFunction]. *)
Record GuardPre (s : State) : Prop := {
  guard_frames : length (frames s) = if isProcessing s then 1 else 0;
  guard_current : currentJob s = (λ f, job (entryOf f)) <$> head (frames s);
  refs_queue : ∀ e, e ∈ jobQueue s → job e < length (heap s);
  refs_frames : ∀ f, f ∈ frames s → job (entryOf f) < length (heap s);
  queue_queued : ∀ e, e ∈ jobQueue s → statusOf s (job e) = queued;
  queue_nodup : NoDup (job <$> jobQueue s);
  frame_status : ∀ f, f ∈ frames s → statusOf s (job (entryOf f)) = frameStatus f;
  processing_frame :
    ∀ r, statusOf s r = processing → ∃ e, frames s = [AwaitProcess e] ∧ job e = r
}.

(** After each turn, moreover, nothing waits while the manager is idle. *)
Definition GuardInv (s : State) : Prop :=
  GuardPre s ∧ (isProcessing s = false → jobQueue s = []).

(** A job that has left ['queued'] has its [startedAt]; a terminal one has
    its [completedAt] too. *)
Definition stamped (j : Job.t) : Prop :=
  (Job.status j ≠ queued → is_Some (Job.startedAt j))
  ∧ (Job.isTerminal j = true → is_Some (Job.completedAt j)).

Definition TimesInv (s : State) : Prop := Forall stamped (heap s).

(** The jobs in the order [queueJob] pushed them, and in the order
    [processNextJob] started them, read off the console lines. *)
Definition queuedOrder (tr : list Event) : list nat :=
  omap (λ ev, match ev with LogQueued r => Some r | _ => None end) tr.

Definition startedOrder (tr : list Event) : list nat :=
  omap (λ ev, match ev with LogStarting r => Some r | _ => None end) tr.

(** The started jobs are the first submitted ones, in the same order; the
    others are the pending queue; and every started job but the one in hand
    is terminal. *)
Definition OrderInv (s : State) : Prop :=
  queuedOrder (trace s) = startedOrder (trace s) ++ (job <$> jobQueue s)
  ∧ ∀ i r, startedOrder (trace s) !! i = Some r →
      Job.isTerminal (heap s !!! r) = true
      ∨ (S i = length (startedOrder (trace s))
         ∧ ∃ e, frames s = [AwaitProcess e] ∧ job e = r).

(** Calls of [sendWebhookNotification] on the job object [r], and the POSTs
    issued for it. *)
Definition isNotify (r : nat) (ev : Event) : bool :=
  match ev with
  | Notify r' => bool_decide (r' = r)
  | _ => false
  end.

Definition isPost (r : nat) (ev : Event) : bool :=
  match ev with
  | Post r' _ _ => bool_decide (r' = r)
  | _ => false
  end.


Definition notifications (r : nat) (tr : list Event) : nat :=
  length (filter (λ ev, isNotify r ev = true) tr).



Definition posts (r : nat) (tr : list Event) : nat :=
  length (filter (λ ev, isPost r ev = true) tr).




(** The promises of the entries still queued or in hand are distinct and
    pending. *)
Definition liveEntries (s : State) : list Entry :=
  jobQueue s ++ (entryOf <$> frames s).

Definition PromiseInv (s : State) : Prop :=
  NoDup (promise <$> liveEntries s)
  ∧ ∀ e, e ∈ liveEntries s → promises s !! promise e = Some Pending.


(** The number of jobs that have become terminal. *)
Definition doneCount (s : State) : nat :=
  length (filter (λ j, Job.isTerminal j = true) (heap s)).




(** The store: keys and job objects are pairwise distinct, and every key
    was generated with a counter value the counter has since reached. *)
Record StoreInv (s : State) : Prop := {
  store_keys : NoDup (allJobs s).*1;
  store_refs : NoDup (allJobs s).*2;
  store_bound : ∀ e, e ∈ allJobs s → e.2 < length (heap s);
  store_ids :
    ∀ e, e ∈ allJobs s →
      ∃ t c, e.1 = (JobId.generateJobId c t).1 ∧ (JobId.incr c ≤ jobIdCounter s)%N
}.

(** The terminal entries of the store, and the job whose webhook a
    suspended run awaits. *)
Definition terminalEntries (s : State) : list (string * nat) :=
  filter (λ e, Job.isTerminal (heap s !!! e.2) = true) (allJobs s).

Definition awaitingWebhook (s : State) : list nat :=
  omap (λ f, match f with
             | AwaitProcess _ => None
             | _ => Some (job (entryOf f))
             end) (frames s).

(** Retention, while the counter is exact: a job that is not terminal is
    in the store; the store holds the fifty most recently completed terminal
    jobs, or all of them if fewer, and one more while the job just finished
    awaits its webhook; a terminal job no longer in the store completed no
    later than those kept. *)
Definition RetentionInv (s : State) : Prop :=
  (jobIdCounter s < 2 ^ 53)%N →
  (∀ r, r < length (heap s) → Job.isTerminal (heap s !!! r) = false →
        r ∈ (allJobs s).*2)
  ∧ (if decide (awaitingWebhook s = [])
     then length (terminalEntries s) = 50 `min` doneCount s
     else 1 ≤ doneCount s
          ∧ length (terminalEntries s) = S (50 `min` pred (doneCount s)))
  ∧ (∀ r, r < length (heap s) → Job.isTerminal (heap s !!! r) = true →
        r ∉ (allJobs s).*2 → 50 < doneCount s)
  ∧ (∀ r e, r < length (heap s) → Job.isTerminal (heap s !!! r) = true →
        r ∉ (allJobs s).*2 →
        e ∈ terminalEntries s → e.2 ∉ awaitingWebhook s →
        (Job.completedTime (heap s !!! r) ≤ Job.completedTime (heap s !!! e.2))%Z).

End Queue.

(** ** Concrete histories

    The scenarios of the specification's test list, as inputs of the model. *)

Module Scenarios.
Import Queue.

(** [path.join] on a directory and a name that need no normalising. *)
Definition join (a b : string) : string := a +:+ "/" +:+ b.

Definition options (n : nat) (url : option string) : Options :=
  {| outputDir := Some "recordings"; recordingsCount := Some n;
     optWebhookUrl := url; optUploadToGdrive := None; optMetadata := None |}.

Definition result (session : string) (ok : bool) : TaskResult.t :=
  {| TaskResult.success := ok; TaskResult.sessionId := session;
     TaskResult.error := if ok then None else Some "capture failed";
     TaskResult.extra := [] |}.

Definition recording (session : string) : Recording.t :=
  {| Recording.sessionId := session; Recording.playbackUrl := "" |}.

(** 2025-01-23T14:30:22.000Z *)
Definition t0 : Z := 1737642622000.

(** Scenario A: jobs A (5 recordings), B (3) and C (4) submitted back to
    back before A finishes. *)
Definition submitABC : list Input :=
  [ CallQueueJob (options 5 (Some "https://hooks.example/a")) 0 t0 t0 t0;
    CallQueueJob (options 3 (Some "https://hooks.example/b")) 1
      (t0 + 10) (t0 + 10) (t0 + 10);
    CallQueueJob (options 4 None) 2 (t0 + 20) (t0 + 20) (t0 + 20) ].

Definition fiveResults : list TaskResult.t :=
  [ result "s1" true; result "s2" false; result "s3" true;
    result "s4" false; result "s5" true ].

(** A resolves; its webhook is in flight. *)
Definition aSettled : list Input :=
  submitABC ++ [ ProcessSettled 0 (Fulfilled fiveResults) (t0 + 5000) ].

(** A's webhook answers 500; B starts. *)
Definition bStarted : list Input :=
  aSettled ++ [ WebhookSettled 0 (FetchNotOk 500) (t0 + 5200) ].

(** B's callback rejects (scenario C); its webhook is in flight. *)
Definition bRejected : list Input :=
  bStarted
  ++ [ ProcessSettled 0 (RejectedWith {| message := "browser crashed" |}) (t0 + 9000) ].

(** B's webhook fails on the network; C starts. *)
Definition cStarted : list Input :=
  bRejected
  ++ [ WebhookSettled 0 (FetchError {| message := "ECONNREFUSED" |}) (t0 + 9100) ].

(** C resolves; it has no webhook, and its run resumes at once. *)
Definition cSettled : list Input :=
  cStarted
  ++ [ ProcessSettled 0
         (Fulfilled [result "c1" true; result "c2" true; result "c3" true;
                     result "c4" true]) (t0 + 12000) ].

Definition allDone : list Input :=
  cSettled ++ [ WebhookSettled 0 FetchOk (t0 + 12001) ].



(** A job submitted for three recordings whose callback resolves with one
    result. *)
Definition shortResults : list Input :=
  [ CallQueueJob (options 3 None) 0 t0 t0 t0;
    ProcessSettled 0 (Fulfilled [result "s1" true]) (t0 + 1000) ].

(** [n] jobs, each run to its end before the next is submitted, a second
    apart. *)
Definition oneAfterAnother (n : nat) : list Input :=
  flat_map
    (λ k, let t := (t0 + 1000 * Z.of_nat k)%Z in
          [ CallQueueJob (options 0 None) k t t t;
            ProcessSettled 0 (Fulfilled []) (t + 500);
            WebhookSettled 0 FetchOk (t + 501) ])
    (seq 0 n).




End Scenarios.

(** ** The read side of the manager: [getQueueStats] and [getActiveJobs] *)

Module QueueView.
Import Queue.





(** [getActiveJobs()]: the job objects, the current one first. *)
Definition getActiveJobs (s : State) : list nat :=
  match currentJob s with
  | Some r => [r]
  | None => []
  end ++ (job <$> jobQueue s).

(** The order of the statuses in a job's life. *)
Definition statusLe (a b : Status) : bool :=
  match a, b with
  | queued, _ => true
  | processing, (processing | completed | failed) => true
  | completed, completed => true
  | failed, failed => true
  | _, _ => false
  end.

(** What the manager leaves alone in a job object, and how far it may move
    its status. *)
Definition sameJobLater (j j' : Job.t) : Prop :=
  Job.id j' = Job.id j
  ∧ Job.folder j' = Job.folder j
  ∧ Job.createdAt j' = Job.createdAt j
  ∧ Job.recordingsTotal j' = Job.recordingsTotal j
  ∧ Job.webhookUrl j' = Job.webhookUrl j
  ∧ Job.uploadToGdrive j' = Job.uploadToGdrive j
  ∧ Job.metadata j' = Job.metadata j
  ∧ statusLe (Job.status j) (Job.status j') = true.

Definition heapLater (h h' : list Job.t) : Prop :=
  length h ≤ length h'
  ∧ ∀ r, r < length h → sameJobLater (h !!! r) (h' !!! r).

(** Every key of the store is the [id] of the job it maps to. *)
Definition StoreIds (s : State) : Prop :=
  ∀ e, e ∈ allJobs s → Job.id (heap s !!! e.2) = e.1.



(** The inputs by which the job in hand and then each queued job settles:
    for each job the outcome of its callback and of its webhook delivery,
    with the clock readings of the two turns. *)
Definition settlements
    (xs : list (Settled (list TaskResult.t) * Z * FetchResult * Z))
    : list Input :=
  flat_map (λ x, [ProcessSettled 0 x.1.1.1 x.1.1.2; WebhookSettled 0 x.1.2 x.2]) xs.

(** The status a job ends with, by how its callback settled. *)
Definition statusAfter (o : Settled (list TaskResult.t)) : Status :=
  match o with
  | Fulfilled _ => completed
  | RejectedWith _ => failed
  end.

(** The POSTs the manager has issued: job object, URL and body. *)
Definition postsOf (tr : list Event) : list (nat * string * Payload) :=
  omap (λ ev, match ev with
              | Post r url body => Some (r, url, body)
              | _ => None
              end) tr.

(** What a POST carried is what the job object holds, then and since. *)
Definition PostsReport (s : State) : Prop :=
  ∀ r url body, (r, url, body) ∈ postsOf (trace s) →
    r < length (heap s)
    ∧ Job.isTerminal (heap s !!! r) = true
    ∧ body = payloadOf (heap s !!! r)
    ∧ Job.webhookUrl (heap s !!! r) = Some url.

End QueueView.

(** ** Text primitives of the other modules

    Strings are sequences of code units below 256. *)

Module JsText.

(** A code unit [\s] matches and [trim] strips: TAB, LF, VT, FF, CR, space
    and NBSP. *)
Definition is_space (c : ascii) : bool :=
  let n := N_of_ascii c in
  (N.leb 9 n && N.leb n 13) || N.eqb n 32 || N.eqb n 160.

(** The longest prefix of digits, [\d+] or nothing, and what follows it. *)
Fixpoint span_digits (s : string) : string * string :=
  match s with
  | "" => ("", "")
  | String c s' =>
      if JsString.is_digit c
      then (String c (span_digits s').1, (span_digits s').2)
      else ("", s)
  end.

(** What is left after [\s*]. *)
Fixpoint skip_spaces (s : string) : string :=
  match s with
  | "" => ""
  | String c s' => if is_space c then skip_spaces s' else s
  end.

Fixpoint starts_with (p s : string) : bool :=
  match p, s with
  | "", _ => true
  | String a p', String b s' => Ascii.eqb a b && starts_with p' s'
  | String _ _, "" => false
  end.

(** [parseInt(d)] on a string of digits. *)
Definition parseDigits (d : string) : N :=
  default 0%N (N.of_uint <$> NilEmpty.uint_of_string d).

(** A match of [/(\d+)\s*word/] that starts at the head of [s]: its group 1.
    The digits and the spaces are taken greedily, and giving any back cannot
    help, what follows them being neither a digit nor a space. *)
Definition match_number_word (word s : string) : option string :=
  if String.eqb (span_digits s).1 "" then None
  else if starts_with word (skip_spaces (span_digits s).2)
       then Some (span_digits s).1
       else None.

(** [s.match(/(\d+)\s*word/)]: group 1 of the leftmost match. *)
Fixpoint search_number_word (word s : string) : option string :=
  match match_number_word word s with
  | Some d => Some d
  | None =>
      match s with
      | "" => None
      | String _ s' => search_number_word word s'
      end
  end.

Fixpoint no_digit (s : string) : bool :=
  match s with
  | "" => true
  | String c s' => negb (JsString.is_digit c) && no_digit s'
  end.

(** A string of white space only, as [\s*] matches whole. *)
Fixpoint all_space (s : string) : bool :=
  match s with
  | "" => true
  | String c s' => is_space c && all_space s'
  end.

(** A string that does not begin with a digit. *)
Definition no_leading_digit (r : string) : bool :=
  match r with
  | "" => true
  | String c _ => negb (JsString.is_digit c)
  end.

(** [s.split(c)] for a one-character separator. *)
Fixpoint split (c : ascii) (s : string) : list string :=
  match s with
  | "" => [""]
  | String x s' =>
      if Ascii.eqb x c then "" :: split c s'
      else match split c s' with
           | p :: ps => String x p :: ps
           | [] => [String x ""]
           end
  end.

(** [!s.includes(c)] *)
Fixpoint lacks (c : ascii) (s : string) : bool :=
  match s with
  | "" => true
  | String x s' => negb (Ascii.eqb x c) && lacks c s'
  end.

(** [parts.join(c)] *)
Fixpoint join (c : ascii) (parts : list string) : string :=
  match parts with
  | [] => ""
  | [p] => p
  | p :: ps => p +:+ String c (join c ps)
  end.

(** [s.trimStart()], [s.trimEnd()] and [s.trim()] *)
Fixpoint trimStart (s : string) : string :=
  match s with
  | "" => ""
  | String c s' => if is_space c then trimStart s' else s
  end.

Fixpoint trimEnd (s : string) : string :=
  match s with
  | "" => ""
  | String c s' =>
      if is_space c && String.eqb (trimEnd s') "" then ""
      else String c (trimEnd s')
  end.

Definition trim (s : string) : string := trimEnd (trimStart s).

End JsText.

(** ** clarity-api.js *)

Module ClarityApi.

(** [parseDuration(durationStr)], in milliseconds. The numbers are the
    mathematical ones; JavaScript's are the same while they stay below
    2^53. *)
Definition parseDuration (durationStr : string) : N :=
  let minutesMs :=
    match JsText.search_number_word "minute" durationStr with
    | Some d => (JsText.parseDigits d * 60 * 1000)%N
    | None => 0%N
    end in
  let secondsMs :=
    match JsText.search_number_word "second" durationStr with
    | Some d => (JsText.parseDigits d * 1000)%N
    | None => 0%N
    end in
  (minutesMs + secondsMs)%N.

(** [extractSessionId(url)]: [parts[parts.length - 2]], [undefined] when
    there is no such element. *)
Definition extractSessionId (url : string) : option string :=
  let parts := JsText.split "/" url in
  if decide (2 ≤ length parts) then parts !! (length parts - 2) else None.

End ClarityApi.

(** ** browserless.js: how long [recordClaritySession] records *)

Module Browserless.

(** [Math.min(Math.max(durationMs + 15000, minDurationMs), maxDurationMs)] *)
Definition recordDuration (durationMs minDurationMs maxDurationMs : Z) : Z :=
  Z.min (Z.max (durationMs + 15000)%Z minDurationMs) maxDurationMs.

(** The duration the [/batch] route and [captureBatch] pass for a recording:
    [parseDuration(recording.totalDuration) || 5 * 60 * 1000]. *)
Definition batchDurationMs (totalDuration : string) : Z :=
  let d := ClarityApi.parseDuration totalDuration in
  if N.eqb d 0 then (5 * 60 * 1000)%Z else Z.of_N d.

(** What [recordClaritySession] then records for, its caller giving neither
    [minDurationMs] nor [maxDurationMs]: the minimum is 20 s and the maximum
    [config.processing.recordingTimeoutMinutes] minutes. *)
Definition batchRecordDuration (totalDuration : string)
    (recordingTimeoutMinutes : Z) : Z :=
  recordDuration (batchDurationMs totalDuration) 20000
    (recordingTimeoutMinutes * 60 * 1000)%Z.

End Browserless.

(** ** capture-batch.js: [withRetry] *)

Module Retry.

Inductive Effect :=
| Call (attempt : nat)
| Sleep (ms : N).

(** How [withRetry] ends: with [fn]'s value, or throwing [lastError], which
    is [undefined] if [fn] was never called. *)
Inductive Outcome (A : Type) :=
| Returned (v : A)
| Threw (lastError : option JsError).
Arguments Returned {A} v.
Arguments Threw {A} lastError.

Section WithFn.
Context {A : Type}.
(** [fn]: how its [attempt]-th call settles. *)
Variable fn : nat → Settled A.

(** The loop from [attempt] on, with [remaining] iterations to go. *)
Fixpoint loop (remaining attempt : nat) (lastError : option JsError)
    : list Effect * Outcome A :=
  match remaining with
  | O => ([], Threw lastError)
  | S remaining' =>
      match fn attempt with
      | Fulfilled v => ([Call attempt], Returned v)
      | RejectedWith error =>
          let rest := loop remaining' (S attempt) (Some error) in
          (Call attempt
           :: match remaining' with
              | O => rest.1
              | S _ => Sleep (5000 * 3 ^ N.of_nat (attempt - 1))%N :: rest.1
              end,
           rest.2)
      end
  end.

(** [withRetry(fn, maxAttempts)] for an integer [maxAttempts]. *)
Definition withRetry (maxAttempts : Z) : list Effect * Outcome A :=
  loop (Z.to_nat maxAttempts) 1 None.
End WithFn.

Definition calls (evs : list Effect) : list nat :=
  omap (λ ev, match ev with Call k => Some k | _ => None end) evs.

Definition sleeps (evs : list Effect) : list N :=
  omap (λ ev, match ev with Sleep ms => Some ms | _ => None end) evs.

End Retry.

(** ** cookie-utils.js *)

Module CookieUtils.

(** A cookie object; a field that is absent is [None]. Numbers are
    integers. *)
Record Cookie := {
  name : option string;
  value : option string;
  domain : option string;
  path : option string;
  expires : option Z;
  expirationDate : option Z;
  httpOnly : option bool;
  secure : option bool;
  sameSite : option string
}.

(** [a || b] on optional numbers: 0 and [undefined] are falsy. *)
Definition orNumber (a b : option Z) : option Z :=
  match a with
  | Some x => if Z.eqb x 0 then b else Some x
  | None => b
  end.

(** The [sameSite] of [normalizeCookie]. *)
Definition normalSameSite (s : option string) : string :=
  if bool_decide (s = Some "no_restriction") || bool_decide (s = Some "None")
  then "None"
  else if bool_decide (s = Some "lax") || bool_decide (s = Some "Lax")
  then "Lax"
  else if bool_decide (s = Some "strict") || bool_decide (s = Some "Strict")
  then "Strict"
  else "Lax".

(** [normalizeCookie(cookie)]: the object it returns has no
    [expirationDate]. *)
Definition normalizeCookie (cookie : Cookie) : Cookie :=
  {| name := name cookie;
     value := value cookie;
     domain := Some (Queue.orString (domain cookie) ".microsoft.com");
     path := Some (Queue.orString (path cookie) "/");
     expires :=
       Some (default (-1)%Z
               (orNumber (orNumber (expires cookie) (expirationDate cookie))
                  (Some (-1)%Z)));
     expirationDate := None;
     httpOnly := Some (default false (httpOnly cookie));
     secure := Some (default true (secure cookie));
     sameSite := Some (normalSameSite (sameSite cookie)) |}.

(** [parseCookieHeaderString(cookieString)] *)
Definition headerCookie (n v : string) : Cookie :=
  {| name := Some n; value := Some v; domain := Some ".microsoft.com";
     path := Some "/"; expires := None; expirationDate := None;
     httpOnly := Some false; secure := Some true; sameSite := Some "Lax" |}.

Definition parsePair (pair : string) : list Cookie :=
  match JsText.split "=" (JsText.trim pair) with
  | n :: valueParts =>
      if negb (String.eqb n "") && Nat.ltb 0 (length valueParts)
      then [headerCookie (JsText.trim n)
              (JsText.trim (JsText.join "=" valueParts))]
      else []
  | [] => []
  end.

Definition parseCookieHeaderString (cookieString : string) : list Cookie :=
  flat_map parsePair (JsText.split ";" cookieString).

(** The header string of a list of names and values:
    [name=value; name2=value2]. *)
Fixpoint headerString (pairs : list (string * string)) : string :=
  match pairs with
  | [] => ""
  | [p] => p.1 +:+ "=" +:+ p.2
  | p :: rest => p.1 +:+ "=" +:+ p.2 +:+ "; " +:+ headerString rest
  end.

(** A name and a value as a cookie header carries them: no [;] in either,
    no [=] in the name, the name not empty, and no white space around
    them. *)
Definition headerPair (p : string * string) : bool :=
  negb (String.eqb p.1 "") && JsText.lacks ";" p.1 && JsText.lacks "=" p.1
  && String.eqb (JsText.trim p.1) p.1
  && JsText.lacks ";" p.2 && String.eqb (JsText.trim p.2) p.2.

(** *** [checkCookieExpiry] *)

Definition authCookieNames : list string :=
  ["aadprofile"; "ESTSAUTHPERSISTENT"; "ESTSAUTH"; "MSPAuth"].

(** [expiry > 9999999999 ? expiry : expiry * 1000] *)
Definition expiryMs (expiry : Z) : Z :=
  if Z.ltb 9999999999 expiry then expiry else (expiry * 1000)%Z.

(** One turn of the loop: [earliestExpiry] and [authCookieFound], both
    [null] at first. *)
Definition scan (acc : option (Z * string)) (cookie : Cookie)
    : option (Z * string) :=
  match name cookie with
  | Some n =>
      if bool_decide (n ∈ authCookieNames) then
        match orNumber (expires cookie) (expirationDate cookie) with
        | Some expiry =>
            if Z.ltb 0 expiry then
              match acc with
              | None => Some (expiryMs expiry, n)
              | Some (earliest, _) =>
                  if Z.ltb (expiryMs expiry) earliest
                  then Some (expiryMs expiry, n)
                  else acc
              end
            else acc
        | None => acc
        end
      else acc
  | None => acc
  end.

Definition earliestAuthExpiry (cookies : list Cookie) : option (Z * string) :=
  foldl scan None cookies.

(** The expiry, in milliseconds, of a cookie the loop takes into account. *)
Definition authExpiryMs (cookie : Cookie) : option Z :=
  match name cookie with
  | Some n =>
      if bool_decide (n ∈ authCookieNames) then
        match orNumber (expires cookie) (expirationDate cookie) with
        | Some expiry => if Z.ltb 0 expiry then Some (expiryMs expiry) else None
        | None => None
        end
      else None
  | None => None
  end.

Inductive WarningLevel := LevelExpired | LevelCritical | LevelWarning | LevelOk.

(** The object [checkCookieExpiry] returns; a field it does not set is
    [None]. *)
Record ExpiryInfo := {
  valid : bool;
  expired : option bool;
  error : option string;
  authCookie : option string;
  expiresAt : option string;
  expiresAtFormatted : option string;
  daysRemaining : option Z;
  hoursRemaining : option Z;
  warningLevel : option WarningLevel
}.

Definition notFound : ExpiryInfo :=
  {| valid := false; expired := None;
     error :=
       Some "No authentication cookie found (aadprofile, ESTSAUTHPERSISTENT, etc.)";
     authCookie := None; expiresAt := None; expiresAtFormatted := None;
     daysRemaining := None; hoursRemaining := None; warningLevel := None |}.

Section WithLocale.
(** [date.toLocaleDateString('en-US', {...})] on a time value. *)
Variable toLocaleDateString : Z → string.

(** [checkCookieExpiry(cookies)] on an array, at the instant [now];
    [None] when [toISOString] throws its [RangeError], the time value being
    above 8.64e15. *)
Definition checkCookieExpiry (cookies : list Cookie) (now : Z)
    : option ExpiryInfo :=
  match earliestAuthExpiry cookies with
  | None => Some notFound
  | Some (earliestExpiry, authCookieFound) =>
      let days := ((earliestExpiry - now) / (1000 * 60 * 60 * 24))%Z in
      let level :=
        if Z.leb earliestExpiry now then LevelExpired
        else if Z.leb days 3 then LevelCritical
        else if Z.leb days 7 then LevelWarning
        else LevelOk in
      if Z.ltb 8640000000000000 earliestExpiry then None
      else
        Some {| valid := Z.ltb now earliestExpiry;
                expired := Some (Z.leb earliestExpiry now);
                error := None;
                authCookie := Some authCookieFound;
                expiresAt := Some (JsDate.toISOString earliestExpiry);
                expiresAtFormatted := Some (toLocaleDateString earliestExpiry);
                daysRemaining := Some days;
                hoursRemaining :=
                  Some ((earliestExpiry - now) / (1000 * 60 * 60))%Z;
                warningLevel := Some level |}
  end.

(** The cookie check that opens the [/capture] and [/batch] handlers, for
    [clarityCookies] an array or absent: the 400 response it sends, if any,
    and whether it calls [sendSlackExpiryNotification]. *)
Inductive Gate :=
| Reject400 (error : string) (cookieExpiry : option ExpiryInfo)
| Proceed (expiryInfo : ExpiryInfo).

Definition cookieGate (clarityCookies : option (list Cookie))
    (slackWebhookUrl : option string) (now : Z) : option (Gate * bool) :=
  match clarityCookies with
  | None =>
      Some (Reject400
              "clarityCookies is REQUIRED. Export cookies from your browser while logged into Clarity."
              None,
            false)
  | Some cookies =>
      match checkCookieExpiry cookies now with
      | None => None
      | Some expiryInfo =>
          if default false (expired expiryInfo) then
            Some (Reject400
                    "Cookies have expired. Please export fresh cookies from Clarity."
                    (Some expiryInfo),
                  Queue.truthy slackWebhookUrl)
          else
            Some (Proceed expiryInfo,
                  match daysRemaining expiryInfo with
                  | Some d => Z.leb d 7 && Queue.truthy slackWebhookUrl
                  | None => false
                  end)
      end
  end.
End WithLocale.

End CookieUtils.

(** ** Sample cookies *)

Module Samples.
Import CookieUtils.

Definition cookie (n : string) (e ed : option Z) : Cookie :=
  {| name := Some n; value := Some "v"; domain := None; path := None;
     expires := e; expirationDate := ed; httpOnly := None; secure := None;
     sameSite := None |}.

(** A tracking cookie, and two authentication cookies: one expiring on
    2027-01-15 (in seconds), one on 2025-06-15 (in milliseconds). *)
Definition exported : list Cookie :=
  [ cookie "MUID" (Some 1700000000%Z) None;
    cookie "ESTSAUTH" None (Some 1800000000%Z);
    cookie "aadprofile" (Some 1750000000000%Z) None ].

(** 2025-06-10T00:00:00Z, five days and some hours before the earlier
    expiry, and 2025-07-01T00:00:00Z, after it. *)
Definition before : Z := 1749513600000.
Definition after : Z := 1751328000000.

Definition locale (t : Z) : string := JsDate.toISOString t.

End Samples.

(** * Part II: properties *)

Example toISOString_epoch : JsDate.toISOString 0 = "1970-01-01T00:00:00.000Z".
Proof. reflexivity. Qed.

Example toISOString_2025 :
  JsDate.toISOString 1737642622123 = "2025-01-23T14:30:22.123Z".
Proof. vm_compute. reflexivity. Qed.

Example toISOString_leap :
  JsDate.toISOString 951825600000 = "2000-02-29T12:00:00.000Z".
Proof. vm_compute. reflexivity. Qed.

Example toISOString_before_epoch :
  JsDate.toISOString (-1) = "1969-12-31T23:59:59.999Z".
Proof. vm_compute. reflexivity. Qed.

Example generateJobId_first :
  JobId.generateJobId 0 1737642622123 = ("job_20250123143022_001", 1%N).
Proof. vm_compute. reflexivity. Qed.

(** ** Strings *)

Module JsStringFacts.
Import JsString.

Lemma app_cons x (a b : string) : String x a +:+ b = String x (a +:+ b).
Proof. reflexivity. Qed.

Lemma app_empty (b : string) : "" +:+ b = b.
Proof. reflexivity. Qed.

Ltac sapp := rewrite ?app_cons, ?app_empty; simpl; rewrite ?app_cons, ?app_empty.

Lemma app_assoc (a b c : string) : (a +:+ b) +:+ c = a +:+ (b +:+ c).
Proof. induction a as [|x a IH]; sapp; [done | by rewrite IH]. Qed.

Lemma length_app (a b : string) :
  String.length (a +:+ b) = String.length a + String.length b.
Proof. induction a as [|x a IH]; sapp; [done | by rewrite IH]. Qed.

Lemma length_zeros k : String.length (zeros k) = k.
Proof. induction k; simpl; congruence. Qed.

Lemma length_padStart0 w s : w ≤ String.length (padStart0 w s).
Proof. unfold padStart0. rewrite length_app, length_zeros. lia. Qed.

Lemma length_substring0 n s :
  String.length (String.substring 0 n s) = n `min` String.length s.
Proof.
  revert s. induction n as [|n IH]; intros [|c s]; simpl; try done.
  by rewrite IH.
Qed.

Lemma all_digits_app a b :
  all_digits (a +:+ b) = all_digits a && all_digits b.
Proof.
  induction a as [|x a IH]; sapp; [done |].
  by rewrite IH, andb_assoc.
Qed.

Lemma all_digits_zeros k : all_digits (zeros k) = true.
Proof. induction k; simpl; [done | by rewrite IHk]. Qed.

Lemma all_digits_uint d : all_digits (NilEmpty.string_of_uint d) = true.
Proof. induction d; simpl; try done; by rewrite IHd. Qed.

Lemma all_digits_of_N n : all_digits (of_N n) = true.
Proof.
  unfold of_N, NilZero.string_of_uint.
  destruct (N.to_uint n); try apply all_digits_uint; done.
Qed.

Lemma all_digits_padStart0 w s :
  all_digits s = true → all_digits (padStart0 w s) = true.
Proof.
  intros H. unfold padStart0. by rewrite all_digits_app, all_digits_zeros, H.
Qed.

(** Digits are not touched by [replace(/[-:T]/g, '')]. *)
Lemma strip_seps_app a b : strip_seps (a +:+ b) = strip_seps a +:+ strip_seps b.
Proof.
  induction a as [|x a IH]; sapp; [done |].
  destruct (is_sep x); sapp; by rewrite IH.
Qed.

Lemma is_digit_not_sep c : is_digit c = true → is_sep c = false.
Proof.
  destruct c as [[] [] [] [] [] [] [] []]; vm_compute; congruence.
Qed.

Lemma strip_seps_digits s : all_digits s = true → strip_seps s = s.
Proof.
  induction s as [|c s IH]; simpl; [done |].
  intros [Hc Hs]%andb_true_iff. rewrite (is_digit_not_sep _ Hc).
  by rewrite IH.
Qed.

(** What follows the last underscore of a string is determined by it. *)
Lemma digits_no_underscore a b :
  all_digits (a +:+ String "_"%char b) = false.
Proof.
  induction a as [|x a IH]; sapp; [done |].
  rewrite IH. apply andb_false_r.
Qed.

Lemma after_underscore a b p q :
  all_digits p = true → all_digits q = true →
  a +:+ String "_"%char p = b +:+ String "_"%char q → p = q.
Proof.
  revert b. induction a as [|x a IH]; intros [|y b] Hp Hq; sapp; intros H.
  - congruence.
  - injection H as _ H. subst p. by rewrite digits_no_underscore in Hp.
  - injection H as _ H. subst q. by rewrite digits_no_underscore in Hq.
  - injection H as _ H. by apply (IH b).
Qed.

(** Reading a padded decimal back. *)
Lemma read_of_N n :
  N.of_uint <$> NilEmpty.uint_of_string (of_N n) = Some n.
Proof.
  unfold of_N, NilZero.string_of_uint.
  assert (E : N.to_uint n ≠ Decimal.Nil).
  { unfold N.to_uint. destruct n; [done |]. apply DecimalPos.Unsigned.to_uint_nonnil. }
  destruct (N.to_uint n) eqn:En; [done | ..]; rewrite <- En;
    rewrite NilEmpty.usu; simpl; by rewrite DecimalN.Unsigned.of_to.
Qed.

Lemma read_zeros k s :
  N.of_uint <$> NilEmpty.uint_of_string (zeros k +:+ s)
  = N.of_uint <$> NilEmpty.uint_of_string s.
Proof.
  induction k as [|k IH]; sapp; [done |].
  rewrite <- IH.
  by destruct (NilEmpty.uint_of_string (zeros k +:+ s)).
Qed.

Lemma padStart0_of_N_inj w n m :
  padStart0 w (of_N n) = padStart0 w (of_N m) → n = m.
Proof.
  intros H.
  apply (f_equal (λ s, N.of_uint <$> NilEmpty.uint_of_string s)) in H.
  unfold padStart0 in H. rewrite !read_zeros, !read_of_N in H. congruence.
Qed.

Lemma digit_cases c :
  is_digit c = true →
  c = "0"%char ∨ c = "1"%char ∨ c = "2"%char ∨ c = "3"%char ∨ c = "4"%char
  ∨ c = "5"%char ∨ c = "6"%char ∨ c = "7"%char ∨ c = "8"%char ∨ c = "9"%char.
Proof.
  destruct c as [[] [] [] [] [] [] [] []]; vm_compute; intros H;
    try discriminate H; tauto.
Qed.

Ltac each_digit c Hc :=
  destruct (digit_cases c Hc)
    as [-> | [-> | [-> | [-> | [-> | [-> | [-> | [-> | [-> | ->]]]]]]]]].

Lemma value_uint s :
  all_digits s = true →
  ∃ d, NilEmpty.uint_of_string s = Some d
       ∧ N.of_uint d = value 0 s
       ∧ ∀ p, N.pos (Pos.of_uint_acc d p) = value (N.pos p) s.
Proof.
  induction s as [|c s IH]; simpl.
  - intros _. by exists Decimal.Nil.
  - intros [Hc Hs]%andb_true_iff. destruct (IH Hs) as (d & -> & H0 & Hp).
    each_digit c Hc;
      eexists; (split; [reflexivity |]); (split; [| intros p]);
      simpl; rewrite ?Hp, ?H0; f_equal; lia.
Qed.

(** A padded number reads as the number. *)
Lemma value_padStart0 w n : value 0 (padStart0 w (of_N n)) = n.
Proof.
  destruct (value_uint (padStart0 w (of_N n))) as (d & Hd & Hv & _).
  { apply all_digits_padStart0, all_digits_of_N. }
  pose proof (read_zeros (w - String.length (of_N n)) (of_N n)) as Hz.
  fold (padStart0 w (of_N n)) in Hz. rewrite read_of_N, Hd in Hz.
  simpl in Hz. congruence.
Qed.

Lemma value_acc acc s :
  value acc s = (acc * 10 ^ N.of_nat (String.length s) + value 0 s)%N.
Proof.
  revert acc. induction s as [|c s IH]; intros acc.
  - simpl. lia.
  - cbn [value String.length]. rewrite (IH (10 * acc + _)%N), (IH (10 * 0 + _)%N).
    rewrite Nat2N.inj_succ, N.pow_succ_r'. lia.
Qed.

Lemma value_bound s :
  all_digits s = true → (value 0 s < 10 ^ N.of_nat (String.length s))%N.
Proof.
  induction s as [|c s IH]; [simpl; lia |].
  cbn [all_digits]. intros [Hc Hs]%andb_true_iff. specialize (IH Hs).
  cbn [value String.length]. rewrite value_acc, Nat2N.inj_succ, N.pow_succ_r'.
  assert (N_of_ascii c - 48 ≤ 9)%N by (each_digit c Hc; vm_compute; discriminate).
  generalize dependent (N_of_ascii c - 48)%N. intros k Hk.
  generalize dependent (10 ^ N.of_nat (String.length s))%N. intros P HP.
  replace (10 * 0 + k)%N with k by lia.
  assert (k * P ≤ 9 * P)%N by (by apply N.mul_le_mono_r). lia.
Qed.

End JsStringFacts.

(** Lexicographic comparison *)

Module JsCompareFacts.
Import JsString JsStringFacts.

Lemma ascii_compare_refl c : Ascii.compare c c = Eq.
Proof. unfold Ascii.compare. apply N.compare_refl. Qed.

Lemma compare_refl s : String.compare s s = Eq.
Proof. induction s as [|c s IH]; simpl; [done |]. by rewrite ascii_compare_refl. Qed.

Lemma compare_app_prefix p a b :
  String.compare (p +:+ a) (p +:+ b) = String.compare a b.
Proof.
  induction p as [|c p IH]; sapp; [done |]. by rewrite ascii_compare_refl.
Qed.

Lemma compare_app_lt a b x y :
  String.length a = String.length b →
  String.compare a b = Lt → String.compare (a +:+ x) (b +:+ y) = Lt.
Proof.
  revert b. induction a as [|c a IH]; intros [|d b]; simpl; try done.
  intros [= Hlen]. sapp. destruct (Ascii.compare c d); try done. by apply IH.
Qed.

(** Strings of equal length in front decide the comparison, unless they
    are equal. *)
Lemma compare_app_cases a b x y :
  String.length a = String.length b →
  String.compare (a +:+ x) (b +:+ y)
  = match String.compare a b with
    | Eq => String.compare x y
    | r => r
    end.
Proof.
  revert b. induction a as [|c a IH]; intros [|d b]; simpl; try done.
  intros [= Hlen]. sapp. destruct (Ascii.compare c d); try done. by apply IH.
Qed.

(** Strings of digits of the same length compare as the numbers they read
    as. *)
Lemma compare_value a b :
  all_digits a = true → all_digits b = true →
  String.length a = String.length b →
  (value 0 a < value 0 b)%N → String.compare a b = Lt.
Proof.
  revert b. induction a as [|c a IH]; intros [|d b]; try done.
  cbn [all_digits]. intros [Hc Ha]%andb_true_iff [Hd Hb]%andb_true_iff [= Hlen].
  cbn [value]. rewrite (value_acc _ a), (value_acc _ b), Hlen.
  pose proof (value_bound a Ha) as Hba. pose proof (value_bound b Hb) as Hbb.
  rewrite Hlen in Hba.
  intros Hlt. cbn [String.compare]. unfold Ascii.compare.
  assert (Hcv : (48 ≤ N_of_ascii c)%N ∧ (48 ≤ N_of_ascii d)%N)
    by (each_digit c Hc; each_digit d Hd; vm_compute; split; discriminate).
  destruct (N.compare_spec (N_of_ascii c) (N_of_ascii d)) as [Heq | Hl | Hg].
  - apply IH; try done. rewrite Heq in Hlt. lia.
  - done.
  - exfalso. destruct Hcv as [Hc48 Hd48].
    assert (Hk : (N_of_ascii d - 48 + 1 ≤ N_of_ascii c - 48)%N) by lia.
    revert Hlt Hk Hba Hbb.
    generalize (N_of_ascii c - 48)%N (N_of_ascii d - 48)%N
      (10 ^ N.of_nat (String.length b))%N (value 0 a) (value 0 b).
    intros kc kd P va vb Hlt Hk Hba Hbb.
    replace (10 * 0 + kc)%N with kc in Hlt by lia.
    replace (10 * 0 + kd)%N with kd in Hlt by lia.
    assert ((kd + 1) * P ≤ kc * P)%N by (by apply N.mul_le_mono_r). lia.
Qed.

Lemma lt_le a b : lt a b = true → String.le a b.
Proof. unfold lt, String.ltb, String.le, String.leb. by destruct (String.compare a b). Qed.

Lemma lt_ne a b : lt a b = true → a ≠ b.
Proof.
  unfold lt, String.ltb. intros H ->. by rewrite compare_refl in H.
Qed.

Lemma le_ne_lt a b : String.le a b → a ≠ b → lt a b = true.
Proof.
  unfold lt, String.ltb, String.le, String.leb. intros H Hne.
  destruct (String.compare a b) eqn:E; try done.
  by apply String.compare_eq_iff in E.
Qed.

Lemma lt_trans a b c : lt a b = true → lt b c = true → lt a c = true.
Proof.
  intros Hab Hbc. apply le_ne_lt.
  - etrans; by apply lt_le.
  - intros ->. apply (lt_ne _ _ Hab).
    apply (anti_symm String.le); by apply lt_le.
Qed.

End JsCompareFacts.

(** ** Job ids *)

Module JobIdFacts.
Import JsString JsStringFacts JsCompareFacts JobId.

Lemma incr_exact c : (c < 2 ^ 53)%N → incr c = (c + 1)%N.
Proof. unfold incr. intros H. by apply N.ltb_lt in H as ->. Qed.

Lemma all_digits_suffix c : all_digits (suffix c) = true.
Proof. apply all_digits_padStart0, all_digits_of_N. Qed.

Lemma suffix_inj c d : suffix c = suffix d → c = d.
Proof. apply padStart0_of_N_inj. Qed.

Lemma id_shape t c :
  "job_" +:+ timestamp t +:+ "_" +:+ suffix c
  = ("job_" +:+ timestamp t) +:+ String "_"%char (suffix c).
Proof. by rewrite app_assoc. Qed.

(** Two generated ids are equal only if the counter values in them are. *)
Lemma generateJobId_inj c1 t1 c2 t2 :
  (generateJobId c1 t1).1 = (generateJobId c2 t2).1 → incr c1 = incr c2.
Proof.
  unfold generateJobId. simpl. rewrite !id_shape. intros H.
  apply after_underscore in H; try apply all_digits_suffix.
  by apply suffix_inj.
Qed.

Lemma generateMany_lookup c nows i t :
  nows !! i = Some t → (c + N.of_nat i < 2 ^ 53)%N →
  generateMany c nows !! i
  = Some ("job_" +:+ timestamp t +:+ "_" +:+ suffix (c + N.of_nat i + 1)).
Proof.
  revert c i. induction nows as [|t0 nows IH]; intros c [|i] Ht H; try done.
  - injection Ht as ->. cbn [generateMany generateJobId].
    rewrite incr_exact by lia. cbn [lookup list_lookup].
    replace (c + N.of_nat 0 + 1)%N with (c + 1)%N by lia. done.
  - rewrite Nat2N.inj_succ in *. cbn [generateMany generateJobId].
    rewrite incr_exact by lia. cbn [lookup list_lookup].
    change (generateMany (c + 1) nows !! i = Some
      ("job_" +:+ timestamp t +:+ "_" +:+ suffix (c + N.succ (N.of_nat i) + 1))).
    rewrite (IH (c + 1)%N i Ht) by lia.
    replace (c + 1 + N.of_nat i + 1)%N with (c + N.succ (N.of_nat i) + 1)%N by lia.
    done.
Qed.

Lemma generateMany_length c nows : length (generateMany c nows) = length nows.
Proof. revert c. induction nows as [|t nows IH]; intros c; simpl; [done | by rewrite IH]. Qed.

Lemma generateMany_NoDup c nows :
  (c + N.of_nat (length nows) ≤ 2 ^ 53)%N → NoDup (generateMany c nows).
Proof.
  intros Hlen. apply NoDup_alt. intros i j x Hi Hj.
  assert (i < length nows) as Hil
    by (rewrite <- (generateMany_length c); by eapply lookup_lt_Some).
  assert (j < length nows) as Hjl
    by (rewrite <- (generateMany_length c); by eapply lookup_lt_Some).
  destruct (lookup_lt_is_Some_2 nows i Hil) as [ti Hti].
  destruct (lookup_lt_is_Some_2 nows j Hjl) as [tj Htj].
  rewrite (generateMany_lookup _ _ _ _ Hti) in Hi by lia.
  rewrite (generateMany_lookup _ _ _ _ Htj) in Hj by lia.
  injection Hi as Hi. injection Hj as Hj. rewrite <- Hj in Hi.
  rewrite !id_shape in Hi.
  apply after_underscore in Hi; try apply all_digits_suffix.
  apply suffix_inj in Hi. lia.
Qed.

(** The timestamp part always has fourteen characters. *)
Lemma strip_pad w v : strip_seps (JsDate.pad w v) = JsDate.pad w v.
Proof. apply strip_seps_digits, all_digits_padStart0, all_digits_of_N. Qed.

Lemma length_pad w v : w ≤ String.length (JsDate.pad w v).
Proof. apply length_padStart0. Qed.

Lemma length_strip_year y : 4 ≤ String.length (strip_seps (JsDate.yearString y)).
Proof.
  unfold JsDate.yearString.
  destruct (Z.leb 0 y && Z.leb y 9999).
  - rewrite strip_pad. apply length_pad.
  - rewrite strip_seps_app, strip_pad, length_app.
    pose proof (length_pad 6 (Z.abs y)). lia.
Qed.

Lemma timestamp_length t : String.length (timestamp t) = 14.
Proof.
  unfold timestamp, slice0. rewrite length_substring0.
  unfold JsDate.toISOString. destruct (JsDate.civil _) as [[y m] d].
  rewrite !strip_seps_app, !strip_pad, !length_app.
  pose proof (length_strip_year y).
  pose proof (length_pad 2 m). pose proof (length_pad 2 d).
  pose proof (length_pad 2 (JsDate.TimeWithinDay t / 3600000)).
  pose proof (length_pad 2 ((JsDate.TimeWithinDay t / 60000) `mod` 60)).
  pose proof (length_pad 2 ((JsDate.TimeWithinDay t / 1000) `mod` 60)).
  lia.
Qed.

(** Below 1000 the padded counters have three digits and order as numbers. *)
Lemma suffix_succ_lt (c : nat) :
  c < 999 → lt (suffix (N.of_nat c)) (suffix (N.of_nat (S c))) = true.
Proof.
  intros Hc.
  assert (H : forallb (λ c, lt (suffix (N.of_nat c)) (suffix (N.of_nat (S c))))
                (seq 0 999) = true) by (vm_compute; reflexivity).
  rewrite forallb_forall in H. apply H, in_seq. lia.
Qed.

Lemma suffix_lt (c d : nat) :
  c < d → d ≤ 999 → lt (suffix (N.of_nat c)) (suffix (N.of_nat d)) = true.
Proof.
  induction d as [|d IH]; [lia |]. intros Hcd Hd.
  destruct (decide (c = d)) as [-> | Hne].
  - apply suffix_succ_lt. lia.
  - eapply lt_trans; [apply IH; lia | apply suffix_succ_lt; lia].
Qed.

Lemma id_lt t1 c1 t2 c2 :
  String.le (timestamp t1) (timestamp t2) → c1 < c2 → c2 ≤ 999 →
  lt ("job_" +:+ timestamp t1 +:+ "_" +:+ suffix (N.of_nat c1))
     ("job_" +:+ timestamp t2 +:+ "_" +:+ suffix (N.of_nat c2)) = true.
Proof.
  intros Hle Hc Hc2. unfold lt, String.ltb.
  rewrite compare_app_prefix.
  destruct (decide (timestamp t1 = timestamp t2)) as [-> | Hne].
  - rewrite !compare_app_prefix.
    pose proof (suffix_lt c1 c2 Hc Hc2) as H. unfold lt, String.ltb in H.
    by destruct (String.compare _ _).
  - rewrite compare_app_lt; [done | by rewrite !timestamp_length |].
    pose proof (le_ne_lt _ _ Hle Hne) as H. unfold lt, String.ltb in H.
    by destruct (String.compare _ _).
Qed.

(** Padded counters with the same number of digits order as numbers. *)
Lemma suffix_lt_same_length c d :
  (c < d)%N → String.length (suffix c) = String.length (suffix d) →
  lt (suffix c) (suffix d) = true.
Proof.
  intros Hcd Hlen. unfold lt, String.ltb.
  rewrite compare_value; try done; try apply all_digits_suffix.
  unfold suffix. by rewrite !value_padStart0.
Qed.

(** Ids compare by their timestamps, then by their padded counters. *)
Lemma id_compare t1 c1 t2 c2 :
  String.compare ("job_" +:+ timestamp t1 +:+ "_" +:+ suffix c1)
                 ("job_" +:+ timestamp t2 +:+ "_" +:+ suffix c2)
  = match String.compare (timestamp t1) (timestamp t2) with
    | Eq => String.compare (suffix c1) (suffix c2)
    | r => r
    end.
Proof.
  rewrite compare_app_prefix.
  rewrite compare_app_cases by (by rewrite !timestamp_length).
  by destruct (String.compare (timestamp t1) (timestamp t2)).
Qed.

End JobIdFacts.

(** C9, as stated, fails: the thousandth job of a second gets a four-digit
    counter, and its id compares below the one created just before it. *)
Lemma job_ids_not_sortable_at_1000 :
  JobId.generateMany 0 (replicate 1000 1737642622123%Z) !! 998
    = Some "job_20250123143022_999"
  ∧ JobId.generateMany 0 (replicate 1000 1737642622123%Z) !! 999
    = Some "job_20250123143022_1000"
  ∧ JsString.lt "job_20250123143022_999" "job_20250123143022_1000" = false.
Proof. vm_compute. done. Qed.

(** C9 (amended): the ids of the jobs created in one process run, fewer than
    2^53 of them, are pairwise distinct. Their order as strings is that of
    the to-the-second timestamps and, within one second, the lexicographic
    order of the counters padded to three digits. So of two jobs the one
    created first has the smaller id whenever its timestamp is the smaller
    string, whatever the counters; within one second it has whenever the two
    padded counters have the same number of digits, as they have among the
    first 999 jobs; and it has not when its timestamp is the greater
    string. *)
Theorem job_ids_unique_and_ordered_by_second_then_digits (nows : list Z) :
  (N.of_nat (length nows) ≤ 2 ^ 53)%N →
  NoDup (JobId.generateMany 0 nows)
  ∧ ∀ i j ti tj idi idj,
      i < j →
      nows !! i = Some ti → nows !! j = Some tj →
      JobId.generateMany 0 nows !! i = Some idi →
      JobId.generateMany 0 nows !! j = Some idj →
      (JsString.lt (JobId.timestamp ti) (JobId.timestamp tj) = true →
       JsString.lt idi idj = true)
      ∧ (JobId.timestamp ti = JobId.timestamp tj →
         JsString.lt idi idj
         = JsString.lt (JobId.suffix (N.of_nat (S i))) (JobId.suffix (N.of_nat (S j)))
         ∧ (String.length (JobId.suffix (N.of_nat (S i)))
            = String.length (JobId.suffix (N.of_nat (S j))) →
            JsString.lt idi idj = true))
      ∧ (JsString.lt (JobId.timestamp tj) (JobId.timestamp ti) = true →
         JsString.lt idi idj = false)
      ∧ (j < 999 →
         String.le (JobId.timestamp ti) (JobId.timestamp tj) →
         JsString.lt idi idj = true).
Proof.
  intros Hlen. split.
  - apply JobIdFacts.generateMany_NoDup. lia.
  - intros i j ti tj idi idj Hij Hti Htj Hi Hjd.
    assert (j < length nows) by (by eapply lookup_lt_Some).
    rewrite (JobIdFacts.generateMany_lookup _ _ _ _ Hti) in Hi by lia.
    rewrite (JobIdFacts.generateMany_lookup _ _ _ _ Htj) in Hjd by lia.
    injection Hi as <-. injection Hjd as <-.
    replace (0 + N.of_nat i + 1)%N with (N.of_nat (S i)) by lia.
    replace (0 + N.of_nat j + 1)%N with (N.of_nat (S j)) by lia.
    unfold JsString.lt, String.ltb. rewrite JobIdFacts.id_compare.
    split_and!.
    + intros Hlt. by destruct (String.compare _ _).
    + intros ->. rewrite JsCompareFacts.compare_refl. split; [done |].
      intros Hl.
      pose proof (JobIdFacts.suffix_lt_same_length
                    (N.of_nat (S i)) (N.of_nat (S j)) ltac:(lia) Hl) as H1.
      exact H1.
    + intros Hgt.
      destruct (String.compare (JobId.timestamp tj) (JobId.timestamp ti)) eqn:E;
        try done.
      rewrite String.compare_antisym, E. done.
    + intros Hj Hle.
      pose proof (JobIdFacts.id_lt ti (S i) tj (S j) Hle ltac:(lia) ltac:(lia)) as H1.
      unfold JsString.lt, String.ltb in H1.
      by rewrite JobIdFacts.id_compare in H1.
Qed.

Lemma job_ids_unique_and_ordered_by_second_then_digits_witness :
  NoDup (JobId.generateMany 0 [1737642622123; 1737642622900; 1737642623001]%Z)
  ∧ JsString.lt "job_20250123143022_001" "job_20250123143023_003" = true
  ∧ JsString.lt "job_20250123143022_001" "job_20250123143022_002" = true.
Proof.
  destruct (job_ids_unique_and_ordered_by_second_then_digits
              [1737642622123; 1737642622900; 1737642623001]%Z) as [Hu Hs].
  - vm_compute. discriminate.
  - split_and!; [exact Hu | |].
    + destruct (Hs 0 2 1737642622123%Z 1737642623001%Z
                  "job_20250123143022_001" "job_20250123143023_003")
        as (Hlater & _).
      * lia.
      * reflexivity.
      * reflexivity.
      * vm_compute. reflexivity.
      * vm_compute. reflexivity.
      * apply Hlater. vm_compute. reflexivity.
    + destruct (Hs 0 1 1737642622123%Z 1737642622900%Z
                  "job_20250123143022_001" "job_20250123143022_002")
        as (_ & Hsame & _).
      * lia.
      * reflexivity.
      * reflexivity.
      * vm_compute. reflexivity.
      * vm_compute. reflexivity.
      * destruct Hsame as [_ Hdigits].
        -- vm_compute. reflexivity.
        -- apply Hdigits. vm_compute. reflexivity.
Defined.

(** ** The concurrency limiter *)

Module LimiterFacts.
Import Limiter.

Lemma filter_ne_notin (i : nat) (l : list nat) :
  i ∉ l → filter (λ j, j ≠ i) l = l.
Proof.
  induction l as [|x l IH]; [done |]. intros [Hx Hl]%not_elem_of_cons.
  rewrite filter_cons_True by done. by rewrite IH.
Qed.

Lemma length_filter_ne (i : nat) (l : list nat) :
  NoDup l → i ∈ l → S (length (filter (λ j, j ≠ i) l)) = length l.
Proof.
  induction l as [|x l IH]; intros Hnd Hin; [by apply elem_of_nil in Hin |].
  apply NoDup_cons in Hnd as [Hx Hnd].
  destruct (decide (x = i)) as [-> | Hne].
  - rewrite filter_cons_False by (intros ?; done).
    by rewrite filter_ne_notin.
  - rewrite filter_cons_True by done. simpl. f_equal. apply IH; [done |].
    apply elem_of_cons in Hin as [-> | ?]; done.
Qed.

Lemma nullish_app a b : nullish (a ++ b) = nullish a ++ nullish b.
Proof. apply omap_app. Qed.

Lemma elem_of_nullish i schedule :
  i ∈ nullish schedule ↔ (i, RejectedNullish) ∈ schedule.
Proof.
  unfold nullish. rewrite list_elem_of_omap. split.
  - intros [[j [o|]] [Hin Heq]]; simpl in Heq; [done |]. by injection Heq as ->.
  - intros Hin. by exists (i, RejectedNullish).
Qed.

Lemma unitResult_None recording o :
  unitResult recording o = None ↔ o = RejectedNullish.
Proof. destruct o as [[r | e] |]; simpl; split; done. Qed.

Lemma Inv_start recordings k :
  1 ≤ k → Inv recordings k [] (start k (length recordings)).
Proof.
  intros Hk. unfold Inv, start. simpl.
  set (n := length recordings).
  assert (Hseq : seq 0 (k `min` n) ++ seq (k `min` n) (n - k `min` n) = seq 0 n).
  { rewrite <- seq_app. f_equal. lia. }
  rewrite Hseq. split_and!.
  - apply length_replicate.
  - apply NoDup_seq.
  - intros i. rewrite elem_of_seq. split.
    + intros [[_ Hi] | Hi]; [| by apply elem_of_nil in Hi].
      apply lookup_replicate. split; [done | lia].
    + intros [_ Hi]%lookup_replicate. left. lia.
  - rewrite length_seq. lia.
  - intros Hw. rewrite length_seq.
    destruct (decide (n - k `min` n = 0)) as [E | E]; [by rewrite E in Hw | lia].
  - intros i r [? _]%lookup_replicate. done.
  - intros i o Hin. by apply elem_of_nil in Hin.
  - rewrite length_seq. lia.
  - done.
Qed.

(** pLimit's bookkeeping when a unit in flight settles. *)
Lemma release_spec i k st :
  NoDup (running st ++ waiting st) → i ∈ running st →
  length (running st) ≤ k → (waiting st ≠ [] → length (running st) = k) →
  NoDup ((release i st).1 ++ (release i st).2)
  ∧ (∀ x, x ∈ (release i st).1 ++ (release i st).2
          ↔ x ∈ running st ++ waiting st ∧ x ≠ i)
  ∧ length ((release i st).1) ≤ k
  ∧ ((release i st).2 ≠ [] → length ((release i st).1) = k)
  ∧ S (length ((release i st).1 ++ (release i st).2))
    = length (running st ++ waiting st).
Proof.
  intros Hnd Hi Hk Hfull.
  pose proof Hnd as Hnd0.
  apply NoDup_app in Hnd as (Hndr & Hdisj & Hndw).
  pose proof (length_filter_ne i _ Hndr Hi) as Hlf.
  assert (Hfr : ∀ j, j ∈ filter (λ j, j ≠ i) (running st) ↔ j ∈ running st ∧ j ≠ i).
  { intros j. rewrite list_elem_of_filter. tauto. }
  unfold release. destruct (waiting st) as [|j w] eqn:Hw; simpl.
  - rewrite !app_nil_r in *. split_and!.
    + by apply NoDup_filter.
    + intros x. rewrite Hfr. tauto.
    + lia.
    + done.
    + lia.
  - assert (Hji : j ≠ i).
    { intros ->. apply (Hdisj i Hi). by left. }
    assert (Hjr : j ∉ running st).
    { intros Hj. apply (Hdisj j Hj). by left. }
    apply NoDup_cons in Hndw as [Hjw Hndw].
    specialize (Hfull ltac:(done)).
    split_and!.
    + rewrite <- (assoc_L (++)). simpl. apply NoDup_app. split_and!.
      * by apply NoDup_filter.
      * intros x [Hx _]%Hfr Hxw. apply (Hdisj x Hx).
        apply elem_of_cons in Hxw as [-> | ?]; [by left | by right].
      * by apply NoDup_cons.
    + intros x.
      rewrite !elem_of_app, Hfr, list_elem_of_singleton, elem_of_cons.
      split; [| tauto].
      intros [[[? ?] | ->] | Hx]; try tauto.
      split; [tauto |]. intros ->. apply (Hdisj i Hi). by right.
    + rewrite length_app. simpl. lia.
    + intros _. rewrite length_app. simpl. lia.
    + rewrite !length_app in *. simpl in *. lia.
Qed.

Lemma Inv_settle recordings k schedule st i o st' :
  Inv recordings k schedule st →
  settle recordings i o st = Some st' →
  Inv recordings k (schedule ++ [(i, o)]) st'.
Proof.
  intros (Hlen & Hnd & Hopen & Hk & Hfull & Hdone & Hsched & Hcount & Hrej) Hs.
  unfold settle in Hs. destruct (decide (i ∈ running st)) as [Hi | ]; [| done].
  destruct (recordings !! i) as [recording |] eqn:Hrec; [| done].
  injection Hs as <-.
  destruct (release_spec i k st Hnd Hi Hk Hfull)
    as (Hnd' & Hin' & Hk' & Hfull' & Hcount').
  assert (Hilt : i < length (slots st)).
  { rewrite Hlen. by eapply lookup_lt_Some. }
  assert (Hirw : i ∈ running st ++ waiting st) by (apply elem_of_app; by left).
  assert (Hinew : i ∉ rejected st).
  { rewrite Hrej. intros Hin%elem_of_nullish.
    by destruct (Hsched _ _ Hin) as [Hn _]. }
  assert (Hold : ∀ j o0, (j, o0) ∈ schedule → j ≠ i).
  { intros j o0 Hin ->. by destruct (Hsched _ _ Hin) as [Hn _]. }
  unfold Inv. simpl.
  destruct (unitResult recording o) as [r |] eqn:Hu.
  - assert (Hty : nullish [(i, o)] = []).
    { destruct o as [o |]; [done | by simpl in Hu]. }
    split_and!; try done.
    + by rewrite length_insert.
    + intros x. rewrite Hin'. destruct (decide (i = x)) as [<- | Hne].
      * rewrite list_lookup_insert_eq by done. split; [| done].
        intros [[_ ?] | ?]; done.
      * rewrite list_lookup_insert_ne by done. rewrite <- Hopen.
        split; [tauto |]. intros [? | ?]; [left | right]; done.
    + intros j r0. destruct (decide (i = j)) as [<- | Hne].
      * rewrite list_lookup_insert_eq by done. intros [= <-].
        exists recording, o. split_and!; [done | | done].
        apply elem_of_app. right. by apply list_elem_of_singleton.
      * rewrite list_lookup_insert_ne by done. intros Hj.
        destruct (Hdone j r0 Hj) as (r1 & o0 & ? & ? & ?).
        exists r1, o0. split_and!; [done | | done]. apply elem_of_app. by left.
    + intros j o0 [Hin | Hin%list_elem_of_singleton]%elem_of_app.
      * destruct (Hsched j o0 Hin) as (Hn & r0 & ? & Hj). split.
        -- rewrite Hin'. tauto.
        -- exists r0. split; [done |].
           rewrite list_lookup_insert_ne; [done |].
           intros <-. by apply (Hold _ _ Hin).
      * injection Hin as -> ->. split.
        -- rewrite Hin'. tauto.
        -- exists recording. split; [done |].
           by rewrite list_lookup_insert_eq, Hu.
    + rewrite (length_app schedule). cbn [length]. lia.
    + by rewrite nullish_app, Hty, app_nil_r.
  - apply unitResult_None in Hu as ->.
    split_and!; try done.
    + intros x. rewrite Hin', (elem_of_app (rejected st)), list_elem_of_singleton,
        <- Hopen.
      destruct (decide (x = i)) as [-> | Hne]; tauto.
    + intros j r0 Hj.
      destruct (Hdone j r0 Hj) as (r1 & o0 & ? & ? & ?).
      exists r1, o0. split_and!; [done | | done]. apply elem_of_app. by left.
    + intros j o0 [Hin | Hin%list_elem_of_singleton]%elem_of_app.
      * destruct (Hsched j o0 Hin) as (Hn & r0 & ? & Hj). split.
        -- rewrite Hin'. tauto.
        -- by exists r0.
      * injection Hin as -> ->. split.
        -- rewrite Hin'. tauto.
        -- exists recording. split; [done |]. simpl. apply Hopen. by left.
    + rewrite (length_app schedule). cbn [length]. lia.
    + by rewrite nullish_app, Hrej.
Qed.

Lemma Inv_run recordings k schedule0 schedule st st' :
  Inv recordings k schedule0 st →
  run recordings schedule st = Some st' →
  Inv recordings k (schedule0 ++ schedule) st'.
Proof.
  revert schedule0 st. induction schedule as [|[i o] schedule IH];
    intros schedule0 st HI Hrun; simpl in Hrun.
  - injection Hrun as <-. by rewrite app_nil_r.
  - destruct (settle recordings i o st) as [st1 |] eqn:Hs; [| done].
    replace (schedule0 ++ (i, o) :: schedule)
      with ((schedule0 ++ [(i, o)]) ++ schedule) by (by rewrite <- (assoc_L (++))).
    eapply IH; [| done]. by eapply Inv_settle.
Qed.





Lemma allSettled_slots st rs : allSettled st = Some rs → slots st = Some <$> rs.
Proof.
  unfold allSettled. intros H%mapM_Some.
  induction H as [|x y l k Hxy _ IH]; [done |]. simpl in *. by rewrite Hxy, IH.
Qed.


Lemma batch_Results recordings k schedule rs :
  batch recordings k schedule = Some (Results rs) →
  ∃ st, run recordings schedule (start k (length recordings)) = Some st
        ∧ Inv recordings k schedule st
        ∧ rejected st = [] ∧ slots st = Some <$> rs.
Proof.
  unfold batch. case_decide as Hk; [done |].
  destruct (run recordings schedule (start k (length recordings))) as [st |] eqn:Hrun;
    [| done].
  unfold promiseAll. destruct (rejected st) as [|i l] eqn:Hrej; [| done].
  destruct (allSettled st) as [rs' |] eqn:Hall; [| done].
  intros [= <-]. exists st. split_and!; try done.
  - exact (Inv_run _ _ [] _ _ _ (Inv_start recordings k ltac:(lia)) Hrun).
  - by apply allSettled_slots.
Qed.

Lemma processRecordingsInJob_batch recordings k schedule rs :
  processRecordingsInJob recordings k schedule = Some rs
  ↔ batch recordings k schedule = Some (Results rs).
Proof.
  unfold processRecordingsInJob.
  destruct (batch recordings k schedule) as [[rs' | i] |]; split; congruence.
Qed.

Lemma processRecordingsInJob_length recordings k schedule rs :
  processRecordingsInJob recordings k schedule = Some rs →
  length rs = length recordings.
Proof.
  intros H%processRecordingsInJob_batch.
  destruct (batch_Results _ _ _ _ H) as (st & _ & (Hlen & _) & _ & Hsl).
  by rewrite Hsl, length_fmap in Hlen.
Qed.

End LimiterFacts.




(** ** Sorting and maps *)

Module JsArrayFacts.
Section ByKey.
Context {A : Type} (key : A → Z).

(** Sorting with the comparator [(a, b) => key(b) - key(a)]: descending
    by [key]. *)

Lemma insert_Permutation x l : JsArray.insert (λ a b, (key b - key a)%Z) x l ≡ₚ x :: l.
Proof.
  induction l as [|y l IH]; simpl; [done |].
  destruct (Z.leb (key y - key x) 0); [done |].
  rewrite IH. apply Permutation_swap.
Qed.

Lemma sort_Permutation l : JsArray.sort (λ a b, (key b - key a)%Z) l ≡ₚ l.
Proof.
  induction l as [|x l IH]; simpl; [done |].
  by rewrite insert_Permutation, IH.
Qed.

Lemma insert_sorted x l :
  StronglySorted (λ a b, (key b ≤ key a)%Z) l → StronglySorted (λ a b, (key b ≤ key a)%Z) (JsArray.insert (λ a b, (key b - key a)%Z) x l).
Proof.
  induction 1 as [|y l Hl IH Hy]; simpl.
  { constructor; [constructor | constructor]. }
  destruct (Z.leb (key y - key x) 0) eqn:E.
  - apply Z.leb_le in E.
    constructor; [by constructor |].
    constructor; [lia |].
    eapply Forall_impl; [exact Hy |]. intros; simpl in *; lia.
  - apply Z.leb_gt in E.
    constructor; [done |].
    rewrite insert_Permutation. constructor; [lia | done].
Qed.

Lemma sort_sorted l : StronglySorted (λ a b, (key b ≤ key a)%Z) (JsArray.sort (λ a b, (key b - key a)%Z) l).
Proof. induction l; simpl; [constructor | by apply insert_sorted]. Qed.

Lemma sorted_lookup l i j x y :
  StronglySorted (λ a b, (key b ≤ key a)%Z) l → i < j → l !! i = Some x → l !! j = Some y →
  (key y ≤ key x)%Z.
Proof.
  intros Hl. revert i j. induction Hl as [|z l Hl IH Hz]; intros i j Hij Hi Hj; [done |].
  destruct j as [|j]; [lia |]. simpl in Hj.
  destruct i as [|i]; simpl in Hi.
  - injection Hi as ->. rewrite Forall_lookup in Hz. by apply (Hz j y).
  - apply (IH i j); [lia | done | done].
Qed.
End ByKey.
End JsArrayFacts.

Module JsMapFacts.
Section JsMapFacts.
Context {V : Type}.
Implicit Types (m : list (string * V)).

Lemma set_fresh k v m : k ∉ m.*1 → JsMap.set k v m = m ++ [(k, v)].
Proof.
  induction m as [|e m IH]; simpl; [done |].
  intros [Hne Hm]%not_elem_of_cons.
  rewrite decide_False by done. by rewrite IH.
Qed.


Lemma set_keys_NoDup k v m : NoDup m.*1 → NoDup (JsMap.set k v m).*1.
Proof.
  induction m as [|e m IH]; simpl; intros Hnd.
  { apply NoDup_singleton. }
  apply NoDup_cons in Hnd as [He Hnd].
  case_decide as Hd; simpl.
  - subst k. by apply NoDup_cons.
  - apply NoDup_cons. split; [| by apply IH].
    intros Hin. apply He.
    clear -Hin Hd. induction m as [|e' m IH]; simpl in *.
    + apply list_elem_of_singleton in Hin. congruence.
    + case_decide; simpl in *.
      * apply elem_of_cons in Hin as [Heq | Hin]; [congruence | by right].
      * apply elem_of_cons in Hin as [-> | Hin]; [by left | right; by apply IH].
Qed.

Lemma foldl_delete m (D : list (string * V)) :
  foldl (λ m e, JsMap.delete e.1 m) m D = filter (λ e, e.1 ∉ D.*1) m.
Proof.
  revert m. induction D as [|d D IH]; intros m; simpl.
  - symmetry. induction m as [|e m IHm]; [done |].
    rewrite filter_cons_True; [by rewrite IHm | apply not_elem_of_nil].
  - rewrite IH. unfold JsMap.delete. rewrite list_filter_filter.
    apply list_filter_iff. intros e. rewrite not_elem_of_cons. tauto.
Qed.

Lemma key_in_iff m (D : list (string * V)) e :
  NoDup m.*1 → e ∈ m → (∀ d, d ∈ D → d ∈ m) → e.1 ∈ D.*1 ↔ e ∈ D.
Proof.
  intros Hnd He HD. split.
  - intros [d [Hk Hd]]%list_elem_of_fmap.
    assert (d = e) as <-; [| done].
    specialize (HD d Hd).
    apply list_elem_of_lookup in HD as [i Hi].
    apply list_elem_of_lookup in He as [j Hj].
    assert (i = j) as ->.
    { eapply (NoDup_lookup _ _ _ _ Hnd); rewrite list_lookup_fmap.
      - by rewrite Hi.
      - rewrite Hj. simpl. by rewrite Hk. }
    congruence.
  - intros Hin. apply list_elem_of_fmap. by exists e.
Qed.

Lemma set_elem k v m e : e ∈ JsMap.set k v m → e = (k, v) ∨ e ∈ m.
Proof.
  induction m as [|e' m IH]; simpl.
  - intros ->%list_elem_of_singleton. by left.
  - case_decide.
    + intros [-> | Hin]%elem_of_cons; [by left | right; by right].
    + intros [-> | Hin]%elem_of_cons; [right; by left |].
      destruct (IH Hin) as [-> | ?]; [by left | right; by right].
Qed.

Lemma set_values_elem k v m x : x ∈ (JsMap.set k v m).*2 → x = v ∨ x ∈ m.*2.
Proof.
  intros [e [Hx He]]%list_elem_of_fmap.
  destruct (set_elem _ _ _ _ He) as [He' | Hin]; [left; by subst |].
  right. apply list_elem_of_fmap. by exists e.
Qed.

Lemma set_values_NoDup k v m :
  NoDup m.*2 → v ∉ m.*2 → NoDup (JsMap.set k v m).*2.
Proof.
  induction m as [|e m IH]; simpl; intros Hnd Hv.
  { apply NoDup_singleton. }
  apply NoDup_cons in Hnd as [He Hnd].
  apply not_elem_of_cons in Hv as [Hve Hv].
  case_decide; simpl.
  - by apply NoDup_cons.
  - apply NoDup_cons. split; [| by apply IH].
    intros [Heq | Hin]%set_values_elem; [congruence | done].
Qed.

Lemma fmap_filter_NoDup {B} (f : string * V → B) (P : string * V → Prop)
    `{!∀ x, Decision (P x)} m :
  NoDup (f <$> m) → NoDup (f <$> filter P m).
Proof.
  induction m as [|e m IH]; simpl; [done |].
  intros [He Hnd]%NoDup_cons.
  destruct (decide (P e)).
  - rewrite filter_cons_True by done. simpl. apply NoDup_cons. split; [| by apply IH].
    intros [x [Hx [_ Hin]%list_elem_of_filter]]%list_elem_of_fmap.
    apply He. apply list_elem_of_fmap. by exists x.
  - rewrite filter_cons_False by done. by apply IH.
Qed.
End JsMapFacts.
End JsMapFacts.

(** ** Retention *)

Module CleanupFacts.
Import Queue.

Lemma filter_iff_in {A} (P1 P2 : A → Prop)
    `{!∀ x, Decision (P1 x), !∀ x, Decision (P2 x)} (l : list A) :
  (∀ x, x ∈ l → P1 x ↔ P2 x) → filter P1 l = filter P2 l.
Proof.
  induction l as [|a l IH]; intros Hiff; [done |].
  assert (Hl : ∀ x, x ∈ l → P1 x ↔ P2 x) by (intros x Hx; apply Hiff; by right).
  destruct (decide (P1 a)) as [Ha | Ha].
  - rewrite !filter_cons_True; [by rewrite IH | by apply Hiff; [left |] | done].
  - rewrite !filter_cons_False; [by rewrite IH | | done].
    intros Ha'. apply Ha, Hiff; [by left | done].
Qed.

Lemma filter_all {A} (P : A → Prop) `{!∀ x, Decision (P x)} (l : list A) :
  (∀ x, x ∈ l → P x) → filter P l = l.
Proof.
  induction l as [|a l IH]; intros Hall; [done |].
  rewrite filter_cons_True by (apply Hall; by left).
  rewrite IH; [done |]. intros x Hx. apply Hall. by right.
Qed.

Lemma filter_none {A} (P : A → Prop) `{!∀ x, Decision (P x)} (l : list A) :
  (∀ x, x ∈ l → ¬ P x) → filter P l = [].
Proof.
  induction l as [|a l IH]; intros Hnone; [done |].
  rewrite filter_cons_False by (apply Hnone; by left).
  apply IH. intros x Hx. apply Hnone. by right.
Qed.

(** What [cleanupOldJobs] deletes: terminal entries only, the oldest by
    [completedAt], down to fifty terminal entries. *)
Lemma cleanupOldJobs_spec s :
  NoDup (allJobs s).*1 →
  ∃ D : list (string * nat),
    allJobs (cleanupOldJobs s) = filter (λ e, e ∉ D) (allJobs s)
    ∧ (∀ d, d ∈ D → d ∈ allJobs s ∧ Job.isTerminal (heap s !!! d.2) = true)
    ∧ length (filter (λ e, Job.isTerminal (heap s !!! e.2) = true)
                (allJobs (cleanupOldJobs s)))
      = 50 `min` length (filter (λ e, Job.isTerminal (heap s !!! e.2) = true)
                           (allJobs s))
    ∧ (∀ d e, d ∈ D → e ∈ allJobs (cleanupOldJobs s) →
         Job.isTerminal (heap s !!! e.2) = true →
         (Job.completedTime (heap s !!! d.2) ≤ Job.completedTime (heap s !!! e.2))%Z)
    ∧ (∀ d, d ∈ D →
         50 < length (filter (λ e, Job.isTerminal (heap s !!! e.2) = true)
                        (allJobs s))).
Proof.
  intros Hkeys. unfold cleanupOldJobs.
  set (T := λ e : string * nat, Job.isTerminal (heap s !!! e.2) = true).
  set (key := λ e : string * nat, Job.completedTime (heap s !!! e.2)).
  set (c := JsArray.sort _ (filter T (allJobs s))).
  assert (Hperm : c ≡ₚ filter T (allJobs s))
    by apply (JsArrayFacts.sort_Permutation key).
  assert (Hsorted : StronglySorted (λ a b, (key b ≤ key a)%Z) c)
    by apply (JsArrayFacts.sort_sorted key).
  assert (HndE : NoDup (allJobs s)) by (by eapply NoDup_fmap_1).
  assert (Hndc : NoDup c) by (rewrite Hperm; by apply NoDup_filter).
  case_decide as Hlen.
  - set (D := drop 50 c).
    assert (Hc : take 50 c ++ D = c) by apply take_drop.
    assert (HD : ∀ d, d ∈ D → d ∈ allJobs s ∧ T d).
    { intros d Hd. assert (d ∈ c) as Hdc by (rewrite <- Hc, elem_of_app; by right).
      rewrite Hperm in Hdc. apply list_elem_of_filter in Hdc. tauto. }
    assert (Hall : allJobs (with_allJobs
                     (foldl (λ m e, JsMap.delete e.1 m) (allJobs s) D) s)
                   = filter (λ e, e ∉ D) (allJobs s)).
    { transitivity (foldl (λ m e, JsMap.delete e.1 m) (allJobs s) D);
        [by destruct s |].
      rewrite JsMapFacts.foldl_delete.
      apply filter_iff_in. intros e He.
      rewrite (JsMapFacts.key_in_iff (allJobs s) D e); [done | done | done |].
      intros d Hd. by apply HD. }
    assert (Hkept : filter T (filter (λ e, e ∉ D) (allJobs s)) ≡ₚ take 50 c).
    { rewrite list_filter_filter.
      rewrite (list_filter_iff _ (λ e, (e ∉ D) ∧ T e)) by (intros; tauto).
      rewrite <- list_filter_filter. rewrite <- Hperm.
      rewrite <- Hc at 1. rewrite filter_app.
      rewrite <- Hc in Hndc. apply NoDup_app in Hndc as (_ & Hdis & _).
      rewrite (filter_all _ (take 50 c)) by done.
      rewrite (filter_none _ D) by (intros x Hx Hn; done).
      by rewrite app_nil_r. }
    exists D. rewrite Hall. split_and!.
    + done.
    + done.
    + assert (Heq : (λ e : string * nat,
                       Job.isTerminal
                         (heap (with_allJobs
                            (foldl (λ m e0, JsMap.delete e0.1 m) (allJobs s) D) s)
                          !!! e.2) = true) = T) by (by destruct s).
      rewrite Hkept, length_take. rewrite <- Hperm. lia.
    + intros d e Hd He HTe.
      assert (e ∈ take 50 c) as [i [Hi Hi50]]%elem_of_take.
      { rewrite <- Hkept. apply list_elem_of_filter. split; [| done].
        clear -HTe. by destruct s. }
      apply list_elem_of_lookup in Hd as [j Hj]. unfold D in Hj.
      rewrite lookup_drop in Hj.
      assert (key d ≤ key e)%Z as Hle.
      { eapply (JsArrayFacts.sorted_lookup key c i (50 + j)); [done | lia | done | done]. }
      clear -Hle. by destruct s.
    + intros d _. by rewrite <- Hperm.
  - exists []. split_and!.
    + symmetry. apply filter_all. intros x _. apply not_elem_of_nil.
    + intros d Hd. by apply elem_of_nil in Hd.
    + rewrite <- Hperm. lia.
    + intros d e Hd. by apply elem_of_nil in Hd.
    + intros d Hd. by apply elem_of_nil in Hd.
Qed.

Lemma count_flip {A} `{!EqDecision A} (P Q : A → Prop)
    `{!∀ x, Decision (P x), !∀ x, Decision (Q x)} (l : list A) x :
  NoDup l → x ∈ l → ¬ P x → Q x → (∀ y, y ∈ l → y ≠ x → (P y ↔ Q y)) →
  length (filter Q l) = S (length (filter P l)).
Proof.
  induction l as [|a l IH]; intros Hnd Hx HP HQ Hiff.
  { by apply elem_of_nil in Hx. }
  apply NoDup_cons in Hnd as [Ha Hnd].
  destruct (decide (a = x)) as [-> | Hne].
  - rewrite filter_cons_True, filter_cons_False by done. simpl. f_equal.
    f_equal. symmetry. apply filter_iff_in. intros y Hy. apply Hiff; [by right |].
    by intros ->.
  - apply elem_of_cons in Hx as [-> | Hx]; [done |].
    assert (Hl : length (filter Q l) = S (length (filter P l))).
    { apply IH; try done. intros y Hy. apply Hiff. by right. }
    destruct (decide (P a)) as [HPa | HPa].
    + rewrite !filter_cons_True; [simpl; by rewrite Hl | done |].
      apply Hiff; [by left | done | done].
    + rewrite !filter_cons_False; [done | done |].
      intros HQa. apply HPa, Hiff; [by left | done | done].
Qed.

Lemma NoDup_fmap_eq {A B} (f : A → B) (l : list A) x y :
  NoDup (f <$> l) → x ∈ l → y ∈ l → f x = f y → x = y.
Proof.
  intros Hnd [i Hi]%list_elem_of_lookup [j Hj]%list_elem_of_lookup Heq.
  assert (i = j) as ->.
  { eapply (NoDup_lookup _ _ _ _ Hnd); rewrite list_lookup_fmap.
    - by rewrite Hi.
    - rewrite Hj. simpl. by rewrite Heq. }
  congruence.
Qed.

Lemma heap_cleanupOldJobs s : heap (cleanupOldJobs s) = heap s.
Proof. unfold cleanupOldJobs. case_decide; by destruct s. Qed.

End CleanupFacts.
Module QueueFacts.
Import Queue.

#[local] Arguments JobId.generateJobId : simpl never.
#[local] Arguments Nat.min : simpl never.
#[local] Arguments N.pow : simpl never.

Lemma frames1 (fr : list Frame) f i :
  length fr ≤ 1 → fr !! i = Some f → i = 0 ∧ fr = [f].
Proof.
  destruct fr as [|f0 [|f1 l]]; simpl; intros Hl Hi; try done; [| lia].
  destruct i; simpl in Hi; [| done]. by injection Hi as ->.
Qed.

Lemma guard_frames_le s : GuardPre s → length (frames s) ≤ 1.
Proof. intros [H _ _ _ _ _ _ _]. destruct (isProcessing s); lia. Qed.

Lemma lookup_total_blank (h : list Job.t) r :
  length h ≤ r → h !!! r = Job.blank.
Proof.
  intros H. rewrite list_lookup_total_alt. by rewrite (lookup_ge_None_2 _ _ H).
Qed.

Lemma lookup_total_snoc (h : list Job.t) j r :
  (h ++ [j]) !!! r
  = if decide (r < length h) then h !!! r
    else if decide (r = length h) then j else Job.blank.
Proof.
  case_decide as H1; [by rewrite lookup_total_app_l |].
  case_decide as H2.
  - subst r. rewrite lookup_total_app_r by lia. by rewrite Nat.sub_diag.
  - apply lookup_total_blank. rewrite length_app. simpl. lia.
Qed.

(** The operations that touch one field only. *)
Lemma cleanupOldJobs_eq s :
  cleanupOldJobs s = with_allJobs (allJobs (cleanupOldJobs s)) s.
Proof. unfold cleanupOldJobs. case_decide; by destruct s. Qed.

Lemma sendWebhookNotification_eq r s :
  sendWebhookNotification r s
  = with_trace (trace (sendWebhookNotification r s)) s.
Proof.
  unfold sendWebhookNotification. simpl. destruct (truthy _); by destruct s.
Qed.

Lemma webhookSettled_eq r fr s :
  webhookSettled r fr s = with_trace (trace (webhookSettled r fr s)) s.
Proof. unfold webhookSettled. destruct (truthy _); by destruct s. Qed.

Ltac qsimpl := unfold GuardInv, statusOf in *; simpl in *.

(** A call of [processNextJob] while the guard is set, or with nothing
    queued, returns at once. *)
Lemma processNextJob_skip now s :
  isProcessing s = true ∨ jobQueue s = [] → processNextJob now s = s.
Proof.
  intros [H | H]; unfold processNextJob; rewrite H; simpl; [done |].
  by rewrite orb_true_r.
Qed.

Lemma GuardInv_processNextJob now s :
  GuardPre s → GuardInv (processNextJob now s).
Proof.
  destruct s as [q cur ip aj ctr st h fr pr tr].
  intros [Hf Hc Hrq Hrf Hqq Hnd Hfs Hpf]. qsimpl.
  unfold processNextJob. simpl.
  destruct ip; simpl.
  { split; [by split | done]. }
  destruct q as [|e q]; simpl.
  { split; [by split | done]. }
  apply nil_length_inv in Hf. subst fr.
  assert (He : job e < length h) by (apply Hrq; by left).
  apply NoDup_cons in Hnd as [Heq Hnd].
  split; [| done]. split; qsimpl.
  - done.
  - done.
  - intros e' He'. rewrite length_alter. apply Hrq. by right.
  - intros f ->%list_elem_of_singleton. simpl. by rewrite length_alter.
  - intros e' He'. rewrite list_lookup_total_alter_ne.
    + apply Hqq. by right.
    + intros Heq'. apply Heq. apply list_elem_of_fmap. by exists e'.
  - done.
  - intros f ->%list_elem_of_singleton. simpl.
    by rewrite list_lookup_total_alter_eq.
  - intros r. rewrite list_lookup_total_alter. case_decide as Hd.
    + destruct Hd as [<- _]. intros _. by exists e.
    + intros Hr. destruct (Hpf r Hr) as (e0 & He0 & _). done.
Qed.

Section WithPath.
Variable path_join : string → string → string.

Lemma GuardPre_createJob options tId tCreated s :
  GuardPre s → GuardPre (createJob path_join options tId tCreated s).2.
Proof.
  destruct s as [q cur ip aj ctr st h fr pr tr].
  intros [Hf Hc Hrq Hrf Hqq Hnd Hfs Hpf]. unfold createJob. qsimpl.
  split; qsimpl; try done.
  - intros e He. rewrite length_app. specialize (Hrq e He). lia.
  - intros f Hin. rewrite length_app. specialize (Hrf f Hin). lia.
  - intros e He. rewrite lookup_total_app_l by (by apply Hrq). by apply Hqq.
  - intros f Hin. rewrite lookup_total_app_l by (by apply Hrf). by apply Hfs.
  - intros r. rewrite lookup_total_snoc.
    repeat case_decide; simpl; try done. apply Hpf.
Qed.

(** The state in which [queueJob] calls [processNextJob]. *)
Lemma GuardPre_enqueue options pf tId tCreated s :
  GuardPre s →
  GuardPre
    (emit (LogQueued (createJob path_join options tId tCreated
                        (with_promises (promises s ++ [Pending]) s)).1)
       (with_jobQueue
          (jobQueue (createJob path_join options tId tCreated
                       (with_promises (promises s ++ [Pending]) s)).2
           ++ [{| job := (createJob path_join options tId tCreated
                            (with_promises (promises s ++ [Pending]) s)).1;
                  processFunction := pf; promise := length (promises s) |}])
          (createJob path_join options tId tCreated
             (with_promises (promises s ++ [Pending]) s)).2)).
Proof.
  intros HP.
  destruct s as [q cur ip aj ctr st h fr pr tr].
  destruct HP as [Hf Hc Hrq Hrf Hqq Hnd Hfs Hpf]. unfold createJob. qsimpl.
  split; qsimpl; try done.
  - intros e [He | He%list_elem_of_singleton]%elem_of_app; rewrite length_app; simpl.
    + specialize (Hrq e He). lia.
    + subst e. simpl. lia.
  - intros f Hin. rewrite length_app. specialize (Hrf f Hin). lia.
  - intros e [He | He%list_elem_of_singleton]%elem_of_app.
    + rewrite lookup_total_app_l by (by apply Hrq). by apply Hqq.
    + subst e. simpl. rewrite lookup_total_app_r by lia. by rewrite Nat.sub_diag.
  - rewrite fmap_app. simpl. apply NoDup_app. split_and!; [done | | apply NoDup_singleton].
    intros r [e [-> He]]%list_elem_of_fmap Hr%list_elem_of_singleton.
    specialize (Hrq e He). lia.
  - intros f Hin. rewrite lookup_total_app_l by (by apply Hrf). by apply Hfs.
  - intros r. rewrite lookup_total_snoc.
    repeat case_decide; simpl; try done. apply Hpf.
Qed.

Lemma GuardInv_queueJob options pf tId tCreated tStarted s :
  GuardInv s → GuardInv (queueJob path_join options pf tId tCreated tStarted s).
Proof.
  intros [HP _]. unfold queueJob. apply GuardInv_processNextJob.
  by apply GuardPre_enqueue.
Qed.

Ltac forget_notifier :=
  rewrite sendWebhookNotification_eq;
  match goal with
  | |- context [trace (sendWebhookNotification ?r ?x)] =>
      generalize (trace (sendWebhookNotification r x)); intro
  end.

Ltac forget_fetch :=
  rewrite webhookSettled_eq;
  match goal with
  | |- context [trace (webhookSettled ?r ?fr ?x)] =>
      generalize (trace (webhookSettled r fr x)); intro
  end.

Ltac forget_cleanup :=
  rewrite cleanupOldJobs_eq;
  match goal with
  | |- context [allJobs (cleanupOldJobs ?x)] =>
      generalize (allJobs (cleanupOldJobs x)); intro
  end.

Lemma GuardInv_onProcessSettled i o now s :
  GuardInv s → GuardInv (onProcessSettled i o now s).
Proof.
  intros [HP Hidle]. unfold onProcessSettled.
  destruct (frames s !! i) as [[e | e rs | e err] |] eqn:Hi; try done.
  destruct (frames1 _ _ _ (guard_frames_le _ HP) Hi) as [-> Hfr].
  assert (Hterm : ∀ j, Job.status (match o with
                        | Fulfilled rs => Job.complete now rs j
                        | RejectedWith err => Job.fail now err j end) ≠ processing
                      ∧ Job.status (match o with
                        | Fulfilled rs => Job.complete now rs j
                        | RejectedWith err => Job.fail now err j end) ≠ queued).
  { intros j. by destruct o. }
  destruct s as [q cur ip aj ctr st h fr pr tr].
  destruct HP as [Hf Hc Hrq Hrf Hqq Hnd Hfs Hpf]. qsimpl. subst fr.
  assert (He : job e < length h) by (apply (Hrf (AwaitProcess e)); by left).
  assert (Hip : ip = true) by (simpl in Hf; by destruct ip).
  assert (Hqe : ∀ e', e' ∈ q → job e' ≠ job e).
  { intros e' He' Heq. specialize (Hqq e' He').
    specialize (Hfs (AwaitProcess e) ltac:(by left)). simpl in Hfs. congruence. }
  destruct o as [rs | err]; forget_notifier; qsimpl.
  - split; [| congruence]. split; qsimpl; try done.
    + intros e' He'. rewrite length_alter. by apply Hrq.
    + intros f ->%list_elem_of_singleton. simpl. by rewrite length_alter.
    + intros e' He'. rewrite list_lookup_total_alter_ne by (intros ?; by eapply Hqe).
      by apply Hqq.
    + intros f ->%list_elem_of_singleton. simpl.
      by rewrite list_lookup_total_alter_eq.
    + intros r. rewrite list_lookup_total_alter. case_decide; [done |].
      intros Hr. destruct (Hpf r Hr) as (e0 & [= <-] & <-). tauto.
  - split; [| congruence]. split; qsimpl; try done.
    + intros e' He'. rewrite length_alter. by apply Hrq.
    + intros f ->%list_elem_of_singleton. simpl. by rewrite length_alter.
    + intros e' He'. rewrite list_lookup_total_alter_ne by (intros ?; by eapply Hqe).
      by apply Hqq.
    + intros f ->%list_elem_of_singleton. simpl.
      by rewrite list_lookup_total_alter_eq.
    + intros r. rewrite list_lookup_total_alter. case_decide; [done |].
      intros Hr. destruct (Hpf r Hr) as (e0 & [= <-] & <-). tauto.
Qed.

(** The state in which the [finally] block calls [processNextJob] when the
    [catch] block threw. *)
Lemma GuardPre_thrown s s' e t :
  GuardPre s → frames s = [AwaitProcess e] →
  jobQueue s' = jobQueue s →
  heap s' = alter (Job.failUnrecorded t) (job e) (heap s) →
  frames s' = [] → isProcessing s' = false → currentJob s' = None →
  GuardPre s'.
Proof.
  intros [Hf Hc Hrq Hrf Hqq Hnd Hfs Hpf] Hfr Hq Hh Hfr' Hip Hcur.
  assert (Hst : statusOf s (job e) = processing).
  { apply (Hfs (AwaitProcess e)). rewrite Hfr. by left. }
  assert (He : job e < length (heap s)).
  { apply (Hrf (AwaitProcess e)). rewrite Hfr. by left. }
  split; unfold statusOf in *; rewrite ?Hq, ?Hh, ?Hfr', ?Hip, ?Hcur; try done.
  - intros e' He'. rewrite length_alter. by apply Hrq.
  - intros ? H. by apply elem_of_nil in H.
  - intros e' He'. rewrite list_lookup_total_alter_ne; [by apply Hqq |].
    intros Heq. specialize (Hqq e' He'). rewrite <- Heq in Hqq. congruence.
  - intros ? H. by apply elem_of_nil in H.
  - intros r. rewrite list_lookup_total_alter. case_decide as Hd; [done |].
    intros Hr. destruct (Hpf r Hr) as (e0 & He0 & Heq). rewrite Hfr in He0.
    injection He0 as <-. subst r. exfalso. apply Hd. done.
Qed.

(** The turn of a rejection by [undefined] or [null], for the run [i]
    suspended at its callback: what is left to show is of the state in
    which the [finally] block calls [processNextJob]. *)
Ltac open_thrown HP e Hfr :=
  unfold onProcessRejectedNullish;
  match goal with
  | |- context [frames ?s !! ?i] =>
      let Hi := fresh "Hi" in
      destruct (frames s !! i) as [[e | e ?rs | e ?err] |] eqn:Hi; try done;
      destruct (frames1 _ _ _ (guard_frames_le _ HP) Hi) as [-> Hfr]
  end;
  unfold finally.

Ltac thrown_guard s e t :=
  eapply (GuardPre_thrown s _ e t); [done | done | ..];
  rewrite cleanupOldJobs_eq; destruct s; qsimpl; by subst.

Lemma GuardInv_onProcessRejectedNullish i t t' s :
  GuardInv s → GuardInv (onProcessRejectedNullish i t t' s).
Proof.
  intros [HP Hidle]. unfold onProcessRejectedNullish.
  destruct (frames s !! i) as [[e | e rs | e err] |] eqn:Hi; try done.
  destruct (frames1 _ _ _ (guard_frames_le _ HP) Hi) as [-> Hfr].
  unfold finally. apply GuardInv_processNextJob.
  eapply (GuardPre_thrown s _ e t); [done | done | ..];
    rewrite cleanupOldJobs_eq; destruct s; qsimpl; by subst.
Qed.

Lemma GuardInv_onWebhookSettled i fr now s :
  GuardInv s → GuardInv (onWebhookSettled i fr now s).
Proof.
  intros [HP Hidle]. unfold onWebhookSettled.
  destruct (frames s !! i) as [[e | e rs | e err] |] eqn:Hi; try done.
  - destruct (frames1 _ _ _ (guard_frames_le _ HP) Hi) as [-> Hfr].
    unfold finally. apply GuardInv_processNextJob.
    forget_cleanup. unfold settlePromise.
    match goal with |- context [alter ?f ?p ?l] => generalize (alter f p l); intro end.
    forget_fetch.
    destruct s as [q cur ip aj ctr st h frs pr tr].
    destruct HP as [Hf Hc Hrq Hrf Hqq Hnd Hfs Hpf]. qsimpl. subst frs.
    split; qsimpl; try done.
    + intros f Hin. by apply elem_of_nil in Hin.
    + intros f Hin. by apply elem_of_nil in Hin.
    + intros r Hr. destruct (Hpf r Hr) as (e0 & [=] & _).
  - destruct (frames1 _ _ _ (guard_frames_le _ HP) Hi) as [-> Hfr].
    unfold finally. apply GuardInv_processNextJob.
    forget_cleanup. unfold settlePromise.
    match goal with |- context [alter ?f ?p ?l] => generalize (alter f p l); intro end.
    forget_fetch.
    destruct s as [q cur ip aj ctr st h frs pr tr].
    destruct HP as [Hf Hc Hrq Hrf Hqq Hnd Hfs Hpf]. qsimpl. subst frs.
    split; qsimpl; try done.
    + intros f Hin. by apply elem_of_nil in Hin.
    + intros f Hin. by apply elem_of_nil in Hin.
    + intros r Hr. destruct (Hpf r Hr) as (e0 & [=] & _).
Qed.

Lemma GuardInv_step s inp : GuardInv s → GuardInv (step path_join s inp).
Proof.
  intros HI. destruct inp; simpl.
  - destruct HI as [HP Hidle]. split; [by apply GuardPre_createJob |].
    unfold createJob. by destruct s.
  - by apply GuardInv_queueJob.
  - by apply GuardInv_onProcessSettled.
  - by apply GuardInv_onProcessRejectedNullish.
  - by apply GuardInv_onWebhookSettled.
Qed.

Lemma GuardInv_init : GuardInv init.
Proof.
  split; [| done].
  split; simpl; try done; try (intros ? H; by apply elem_of_nil in H).
  apply NoDup_nil_2.
Qed.

Lemma exec_snoc inputs inp :
  exec path_join (inputs ++ [inp]) = step path_join (exec path_join inputs) inp.
Proof. unfold exec. by rewrite foldl_app. Qed.

Lemma GuardInv_exec inputs : GuardInv (exec path_join inputs).
Proof.
  induction inputs as [|inp inputs IH] using rev_ind; [apply GuardInv_init |].
  rewrite exec_snoc. by apply GuardInv_step.
Qed.


(** *** Timestamps *)

Lemma stamped_start now j : stamped (Job.start now j).
Proof. split; simpl; [eauto | done]. Qed.

Lemma stamped_complete now rs j :
  Job.status j = processing → stamped j → stamped (Job.complete now rs j).
Proof. intros Hs [H1 _]. split; simpl; [| eauto]. intros _. apply H1. congruence. Qed.

Lemma stamped_fail now err j :
  Job.status j = processing → stamped j → stamped (Job.fail now err j).
Proof. intros Hs [H1 _]. split; simpl; [| eauto]. intros _. apply H1. congruence. Qed.

Lemma stamped_failUnrecorded now j :
  Job.status j = processing → stamped j → stamped (Job.failUnrecorded now j).
Proof. intros Hs [H1 _]. split; simpl; [| eauto]. intros _. apply H1. congruence. Qed.

Lemma TimesInv_processNextJob now s : TimesInv s → TimesInv (processNextJob now s).
Proof.
  unfold TimesInv, processNextJob. intros H.
  destruct (isProcessing s || bool_decide (length (jobQueue s) = 0)); [done |].
  destruct (jobQueue s) as [|e q]; [done |]. destruct s; simpl in *.
  apply Forall_alter; [done |]. intros. apply stamped_start.
Qed.

Lemma TimesInv_step s inp :
  GuardInv s → TimesInv s → TimesInv (step path_join s inp).
Proof.
  intros [HP _] HT. destruct inp as [options tId tCreated
    | options pf tId tCreated tStarted | i o now | i tC tS | i fr now]; simpl.
  - unfold TimesInv, createJob in *. destruct s; simpl in *.
    apply Forall_app. split; [done |]. by repeat constructor.
  - unfold queueJob. apply TimesInv_processNextJob.
    unfold TimesInv, createJob in *. destruct s; simpl in *.
    apply Forall_app. split; [done |]. by repeat constructor.
  - unfold onProcessSettled.
    destruct (frames s !! i) as [[e | e rs | e err] |] eqn:Hi; try done.
    destruct (frames1 _ _ _ (guard_frames_le _ HP) Hi) as [-> Hfr].
    pose proof (frame_status _ HP (AwaitProcess e)) as Hst.
    rewrite Hfr in Hst. specialize (Hst ltac:(by left)).
    pose proof (refs_frames _ HP (AwaitProcess e)) as He.
    rewrite Hfr in He. specialize (He ltac:(by left)).
    unfold TimesInv in *.
    destruct o as [rs | err]; rewrite sendWebhookNotification_eq;
      destruct s; qsimpl; (apply Forall_alter; [done |]);
      intros x Hx%list_lookup_total_correct Hsx; rewrite <- Hx in *.
    + by apply stamped_complete.
    + by apply stamped_fail.
  - open_thrown HP e Hfr.
    pose proof (frame_status _ HP (AwaitProcess e)) as Hst.
    rewrite Hfr in Hst. specialize (Hst ltac:(by left)).
    apply TimesInv_processNextJob. rewrite cleanupOldJobs_eq.
    unfold TimesInv in *. destruct s; qsimpl.
    apply Forall_alter; [done |].
    intros x Hx%list_lookup_total_correct Hsx. rewrite <- Hx in *.
    by apply stamped_failUnrecorded.
  - unfold onWebhookSettled.
    destruct (frames s !! i) as [[e | e rs | e err] |] eqn:Hi; try done;
      unfold finally; apply TimesInv_processNextJob;
      rewrite cleanupOldJobs_eq; unfold settlePromise;
      rewrite webhookSettled_eq; unfold TimesInv in *; by destruct s.
Qed.

Lemma TimesInv_exec inputs : TimesInv (exec path_join inputs).
Proof.
  induction inputs as [|inp inputs IH] using rev_ind; [constructor |].
  rewrite exec_snoc. apply TimesInv_step; [apply GuardInv_exec | done].
Qed.

(** *** The trace *)

Lemma trace_sendWebhookNotification r s :
  ∃ evs, trace (sendWebhookNotification r s) = trace s ++ Notify r :: evs
         ∧ queuedOrder evs = [] ∧ startedOrder evs = []
         ∧ (∀ r', notifications r' evs = 0)
         ∧ (∀ r', posts r' evs
                  = if bool_decide (r = r') && truthy (Job.webhookUrl (heap s !!! r))
                    then 1 else 0).
Proof.
  unfold sendWebhookNotification. destruct s; simpl.
  destruct (truthy _); simpl.
  - eexists [_]. rewrite <- (assoc_L (++)). simpl. split_and!; try done.
    intros r'. unfold posts. simpl.
    rewrite andb_true_r. case_bool_decide; simpl.
    + rewrite filter_cons_True; [done |]. simpl. by rewrite bool_decide_eq_true.
    + rewrite filter_cons_False; [done |]. simpl. by rewrite bool_decide_eq_true.
  - exists []. split_and!; try done. intros r'. by rewrite andb_false_r.
Qed.

Lemma trace_webhookSettled r fr s :
  ∃ evs, trace (webhookSettled r fr s) = trace s ++ evs
         ∧ queuedOrder evs = [] ∧ startedOrder evs = []
         ∧ (∀ r', notifications r' evs = 0) ∧ (∀ r', posts r' evs = 0).
Proof.
  unfold webhookSettled. destruct s; simpl. destruct (truthy _); simpl.
  - eexists [_]. split_and!; try done; by destruct fr.
  - exists []. by rewrite app_nil_r.
Qed.

Lemma queuedOrder_app a b : queuedOrder (a ++ b) = queuedOrder a ++ queuedOrder b.
Proof. apply omap_app. Qed.

Lemma startedOrder_app a b : startedOrder (a ++ b) = startedOrder a ++ startedOrder b.
Proof. apply omap_app. Qed.



Lemma terminal_lt (h : list Job.t) r :
  Job.isTerminal (h !!! r) = true → r < length h.
Proof.
  intros H. destruct (decide (r < length h)) as [| Hge]; [done |].
  rewrite lookup_total_blank in H by lia. done.
Qed.

(** The state in which [finally] calls [processNextJob]. *)
Lemma GuardPre_finally s s' f :
  GuardPre s → frames s = [f] → frameStatus f ≠ processing →
  jobQueue s' = jobQueue s → heap s' = heap s → frames s' = [] →
  isProcessing s' = false → currentJob s' = None →
  GuardPre s'.
Proof.
  intros [Hf Hc Hrq Hrf Hqq Hnd Hfs Hpf] Hfr Hst Hq Hh Hfr' Hip Hcur.
  split; unfold statusOf in *; rewrite ?Hq, ?Hh, ?Hfr', ?Hip, ?Hcur; try done.
  - intros ? H. by apply elem_of_nil in H.
  - intros ? H. by apply elem_of_nil in H.
  - intros r Hr. destruct (Hpf r Hr) as (e & He & _). rewrite Hfr in He.
    injection He as ->. done.
Qed.

(** *** Order of service *)

Lemma OrderInv_processNextJob now s :
  GuardPre s → OrderInv s → OrderInv (processNextJob now s).
Proof.
  destruct s as [q cur ip aj ctr st h fr pr tr].
  intros [Hf Hc Hrq Hrf Hqq Hnd Hfs Hpf] [Ho Hl]. unfold OrderInv in *. qsimpl.
  unfold processNextJob. simpl.
  destruct ip; simpl; [done |].
  destruct q as [|e q]; simpl; [done |].
  apply nil_length_inv in Hf. subst fr.
  rewrite queuedOrder_app, startedOrder_app. simpl. rewrite app_nil_r.
  split.
  - rewrite Ho. by rewrite <- (assoc_L (++)).
  - intros i r Hi. apply lookup_snoc_Some in Hi as [[Hlt Hi] | [Hlen <-]].
    + left. destruct (Hl i r Hi) as [Ht | (_ & e0 & [=] & _)].
      rewrite list_lookup_total_alter_ne; [done |].
      intros <-. specialize (Hqq e ltac:(by left)).
      unfold Job.isTerminal in Ht. by rewrite Hqq in Ht.
    + right. rewrite length_app. simpl. split; [lia |]. by exists e.
Qed.

Lemma OrderInv_createJob options tId tCreated s :
  GuardPre s → OrderInv s → OrderInv (createJob path_join options tId tCreated s).2.
Proof.
  destruct s as [q cur ip aj ctr st h fr pr tr].
  intros HP [Ho Hl]. unfold OrderInv, createJob in *. qsimpl.
  rewrite queuedOrder_app, startedOrder_app. simpl. rewrite !app_nil_r.
  split; [done |]. intros i r Hi.
  destruct (Hl i r Hi) as [Ht | (Hlen & e & -> & <-)].
  - left. rewrite lookup_total_app_l; [done | by apply terminal_lt].
  - right. split; [done |]. by exists e.
Qed.

Lemma OrderInv_step s inp :
  GuardInv s → OrderInv s → OrderInv (step path_join s inp).
Proof.
  intros [HP Hidle] HO. destruct inp as [options tId tCreated
    | options pf tId tCreated tStarted | i o now | i tC tS | i fr now]; simpl.
  - by apply OrderInv_createJob.
  - pose proof (GuardInv_queueJob options pf tId tCreated tStarted s
                  (conj HP Hidle)) as _.
    unfold queueJob.
    set (s0 := with_promises _ s).
    assert (HP0 : GuardPre s0) by (destruct HP; destruct s; by split).
    assert (HO0 : OrderInv s0) by (by destruct s).
    pose proof (OrderInv_createJob options tId tCreated s0 HP0 HO0) as HO1.
    pose proof (GuardPre_createJob options tId tCreated s0 HP0) as HP1.
    apply OrderInv_processNextJob.
    + by apply GuardPre_enqueue.
    + destruct HO1 as [Ho Hl]. unfold OrderInv.
      assert (Hr : (createJob path_join options tId tCreated s0).1 = length (heap s))
        by (by destruct s).
      rewrite Hr. clear Hr.
      destruct (createJob path_join options tId tCreated s0).2
        as [q cur ip aj ctr st h frs pr tr]. qsimpl.
      rewrite queuedOrder_app, startedOrder_app. simpl. rewrite app_nil_r.
      rewrite fmap_app. simpl. split; [| done].
      rewrite Ho. by rewrite <- (assoc_L (++)).
  - unfold onProcessSettled.
    destruct (frames s !! i) as [[e | e rs | e err] |] eqn:Hi; try done.
    destruct (frames1 _ _ _ (guard_frames_le _ HP) Hi) as [-> Hfr].
    pose proof (refs_frames _ HP (AwaitProcess e)) as He.
    rewrite Hfr in He. specialize (He ltac:(by left)).
    destruct HO as [Ho Hl]. unfold OrderInv.
    destruct o as [rs | err]; rewrite sendWebhookNotification_eq;
      match goal with |- context [trace (sendWebhookNotification ?r ?x)] =>
        destruct (trace_sendWebhookNotification r x) as (evs & -> & Hq & Hs & _) end;
      destruct s as [q cur ip aj ctr st h frs pr tr]; qsimpl; subst frs;
      rewrite !queuedOrder_app, !startedOrder_app; simpl; rewrite Hq, Hs, !app_nil_r;
      (split; [done |]); intros i r Hir; left;
      destruct (Hl i r Hir) as [Ht | (_ & e0 & [= <-] & <-)];
      rewrite list_lookup_total_alter; case_decide; try done;
      exfalso; tauto.
  - open_thrown HP e Hfr.
    pose proof (refs_frames _ HP (AwaitProcess e)) as He.
    rewrite Hfr in He. specialize (He ltac:(by left)).
    apply OrderInv_processNextJob; [thrown_guard s e tC |].
    rewrite cleanupOldJobs_eq. destruct HO as [Ho Hl]. unfold OrderInv.
    destruct s as [q cur ip aj ctr st h frs pr tr]; qsimpl; subst frs.
    rewrite !queuedOrder_app, !startedOrder_app. simpl. rewrite !app_nil_r.
    split; [done |]. intros i r Hir. left.
    destruct (Hl i r Hir) as [Ht | (_ & e0 & [= <-] & <-)];
      rewrite list_lookup_total_alter; case_decide; try done;
      exfalso; tauto.
  - unfold onWebhookSettled.
    destruct (frames s !! i) as [[e | e rs | e err] |] eqn:Hi; try done;
      destruct (frames1 _ _ _ (guard_frames_le _ HP) Hi) as [-> Hfr];
      unfold finally; (apply OrderInv_processNextJob;
        [ eapply (GuardPre_finally s); [done | done | done | ..];
          rewrite cleanupOldJobs_eq; unfold settlePromise;
          rewrite webhookSettled_eq; destruct s; qsimpl; by subst
        | ]);
      rewrite cleanupOldJobs_eq; unfold settlePromise;
      rewrite webhookSettled_eq;
      match goal with |- context [trace (webhookSettled ?r ?fr ?x)] =>
        destruct (trace_webhookSettled r fr x) as (evs & -> & Hq & Hs & _) end;
      destruct HO as [Ho Hl]; unfold OrderInv;
      destruct s as [q cur ip aj ctr st h frs pr tr]; qsimpl; subst frs;
      rewrite !queuedOrder_app, !startedOrder_app, Hq, Hs, !app_nil_r;
      (split; [done |]); intros i0 r Hir; left;
      by destruct (Hl i0 r Hir) as [Ht | (_ & e0 & [=] & _)].
Qed.

Lemma OrderInv_exec inputs : OrderInv (exec path_join inputs).
Proof.
  induction inputs as [|inp inputs IH] using rev_ind.
  - split; [done |]. intros i r Hi. done.
  - rewrite exec_snoc. apply OrderInv_step; [apply GuardInv_exec | done].
Qed.

(** *** Notifications *)
















(** *** Promises *)

Lemma PromiseInv_processNextJob now s :
  GuardPre s → PromiseInv s → PromiseInv (processNextJob now s).
Proof.
  destruct s as [q cur ip aj ctr st h fr pr tr].
  intros [Hf Hc Hrq Hrf Hqq Hnd Hfs Hpf] [Hp Hl].
  unfold PromiseInv, liveEntries in *. qsimpl.
  unfold processNextJob. simpl.
  destruct ip; simpl; [done |].
  destruct q as [|e q]; simpl; [done |].
  apply nil_length_inv in Hf. subst fr. simpl in *. rewrite app_nil_r in *.
  split.
  - rewrite fmap_app. simpl. by rewrite <- Permutation_cons_append.
  - intros e' He'. apply Hl.
    apply elem_of_app in He' as [? | ->%list_elem_of_singleton]; [by right | by left].
Qed.

Lemma PromiseInv_step s inp :
  GuardInv s → PromiseInv s → PromiseInv (step path_join s inp).
Proof.
  intros [HP Hidle] HN. destruct inp as [options tId tCreated
    | options pf tId tCreated tStarted | i o now | i tC tS | i fr now]; simpl.
  - unfold createJob. by destruct s.
  - unfold queueJob. apply PromiseInv_processNextJob.
    + by apply GuardPre_enqueue.
    + destruct HN as [Hp Hl]. unfold PromiseInv, liveEntries, createJob in *.
      destruct s as [q cur ip aj ctr st h frs pr tr]. qsimpl.
      assert (Hlt : ∀ e, e ∈ q ++ (entryOf <$> frs) → promise e < length pr).
      { intros e He. eapply lookup_lt_Some. by apply Hl. }
      split.
      * rewrite <- (assoc_L (++)). simpl.
        rewrite !fmap_app. simpl. rewrite <- Permutation_middle.
        rewrite <- fmap_app.
        apply NoDup_cons. split; [| done].
        intros [e [Heq He]]%list_elem_of_fmap. specialize (Hlt e He). lia.
      * intros e He.
        assert (e ∈ q ++ (entryOf <$> frs) ∨ promise e = length pr) as [Hin | ->].
        { rewrite !elem_of_app in *. rewrite list_elem_of_singleton in He.
          destruct He as [[? | ->] | ?]; auto. }
        -- rewrite lookup_app_l by (by apply Hlt). by apply Hl.
        -- rewrite lookup_app_r by lia. by rewrite Nat.sub_diag.
  - unfold onProcessSettled.
    destruct (frames s !! i) as [[e | e rs | e err] |] eqn:Hi; try done.
    destruct (frames1 _ _ _ (guard_frames_le _ HP) Hi) as [-> Hfr].
    unfold PromiseInv, liveEntries in *.
    destruct o as [rs | err]; rewrite sendWebhookNotification_eq;
      destruct s as [q cur ip aj ctr st h frs pr tr]; qsimpl; by subst frs.
  - open_thrown HP e Hfr.
    apply PromiseInv_processNextJob; [thrown_guard s e tC |].
    rewrite cleanupOldJobs_eq.
    destruct HN as [Hp Hl]. unfold PromiseInv, liveEntries in *.
    destruct s as [q cur ip aj ctr st h frs pr tr]. qsimpl. subst frs.
    simpl in *. rewrite app_nil_r. rewrite fmap_app in Hp. simpl in Hp.
    apply NoDup_app in Hp as (Hq & Hdis & _).
    split; [done |]. intros e' He'. apply Hl, elem_of_app. by left.
  - unfold onWebhookSettled.
    destruct (frames s !! i) as [[e | e rs | e err] |] eqn:Hi; try done;
      destruct (frames1 _ _ _ (guard_frames_le _ HP) Hi) as [-> Hfr];
      unfold finally; (apply PromiseInv_processNextJob;
        [ eapply (GuardPre_finally s); [done | done | done | ..];
          rewrite cleanupOldJobs_eq; unfold settlePromise;
          rewrite webhookSettled_eq; destruct s; qsimpl; by subst
        | ]);
      rewrite cleanupOldJobs_eq; unfold settlePromise;
      rewrite webhookSettled_eq;
      destruct HN as [Hp Hl]; unfold PromiseInv, liveEntries in *;
      destruct s as [q cur ip aj ctr st h frs pr tr]; qsimpl; subst frs;
      simpl in *; rewrite app_nil_r; rewrite fmap_app in Hp; simpl in Hp;
      apply NoDup_app in Hp as (Hq & Hdis & _);
      (split; [done |]); intros e' He';
      (rewrite list_lookup_alter_ne;
        [ apply Hl, elem_of_app; by left
        | intros Heq; apply (Hdis (promise e'));
          [ apply list_elem_of_fmap; by exists e'
          | rewrite <- Heq; by left ] ]).
Qed.

Lemma PromiseInv_exec inputs : PromiseInv (exec path_join inputs).
Proof.
  induction inputs as [|inp inputs IH] using rev_ind.
  - split; [apply NoDup_nil_2 |]. intros e He. by apply elem_of_nil in He.
  - rewrite exec_snoc. apply PromiseInv_step; [apply GuardInv_exec | done].
Qed.

(** *** The store *)

Lemma incr_le c : (c ≤ JobId.incr c)%N.
Proof. unfold JobId.incr. destruct (N.ltb c (2 ^ 53)); lia. Qed.

Lemma StoreInv_ext s s' :
  allJobs s' = allJobs s → length (heap s') = length (heap s) →
  jobIdCounter s' = jobIdCounter s → StoreInv s → StoreInv s'.
Proof. intros Ha Hh Hc [H1 H2 H3 H4]. split; rewrite ?Ha, ?Hh, ?Hc; done. Qed.

Lemma StoreInv_processNextJob now s : StoreInv s → StoreInv (processNextJob now s).
Proof.
  apply StoreInv_ext; unfold processNextJob;
    destruct (isProcessing s || bool_decide (length (jobQueue s) = 0)); try done;
    destruct (jobQueue s); try done; destruct s; simpl; try done.
  apply length_alter.
Qed.

Lemma StoreInv_cleanupOldJobs s : StoreInv s → StoreInv (cleanupOldJobs s).
Proof.
  intros [H1 H2 H3 H4].
  destruct (CleanupFacts.cleanupOldJobs_spec s H1) as (D & Hall & _).
  split; rewrite ?Hall, ?CleanupFacts.heap_cleanupOldJobs.
  - by apply JsMapFacts.fmap_filter_NoDup.
  - by apply JsMapFacts.fmap_filter_NoDup.
  - intros e [_ He]%list_elem_of_filter. by apply H3.
  - intros e [_ He]%list_elem_of_filter.
    replace (jobIdCounter (cleanupOldJobs s)) with (jobIdCounter s); [by apply H4 |].
    unfold cleanupOldJobs. case_decide; by destruct s.
Qed.

Lemma StoreInv_createJob options tId tCreated s :
  StoreInv s → StoreInv (createJob path_join options tId tCreated s).2.
Proof.
  destruct s as [q cur ip aj ctr st h fr pr tr].
  intros [H1 H2 H3 H4]. unfold createJob. qsimpl.
  split; qsimpl.
  - by apply JsMapFacts.set_keys_NoDup.
  - apply JsMapFacts.set_values_NoDup; [done |].
    intros [e [Heq He]]%list_elem_of_fmap. specialize (H3 e He). lia.
  - intros e [-> | He]%JsMapFacts.set_elem; rewrite length_app; simpl; [lia |].
    specialize (H3 e He). lia.
  - intros e [-> | He]%JsMapFacts.set_elem.
    + exists tId, ctr. split; [done |]. unfold JobId.generateJobId. simpl. lia.
    + destruct (H4 e He) as (t & c & Hid & Hc). exists t, c. split; [done |].
      unfold JobId.generateJobId. simpl. pose proof (incr_le ctr). lia.
Qed.

Lemma StoreInv_step s inp : StoreInv s → StoreInv (step path_join s inp).
Proof.
  intros HS. destruct inp as [options tId tCreated
    | options pf tId tCreated tStarted | i o now | i tC tS | i fr now]; simpl.
  - by apply StoreInv_createJob.
  - unfold queueJob. apply StoreInv_processNextJob.
    set (s0 := with_promises _ s).
    assert (HS0 : StoreInv s0) by (revert HS; apply StoreInv_ext; by destruct s).
    pose proof (StoreInv_createJob options tId tCreated s0 HS0) as HS1.
    revert HS1. apply StoreInv_ext;
      by destruct (createJob path_join options tId tCreated s0).2.
  - unfold onProcessSettled.
    destruct (frames s !! i) as [[e | e rs | e err] |]; try done.
    revert HS. destruct o; apply StoreInv_ext; rewrite sendWebhookNotification_eq;
      destruct s; simpl; try done; apply length_alter.
  - unfold onProcessRejectedNullish.
    destruct (frames s !! i) as [[e | e rs | e err] |]; try done.
    unfold finally. apply StoreInv_processNextJob, StoreInv_cleanupOldJobs.
    revert HS. apply StoreInv_ext; destruct s; simpl; try done.
    apply length_alter.
  - unfold onWebhookSettled.
    destruct (frames s !! i) as [[e | e rs | e err] |]; try done;
      unfold finally; apply StoreInv_processNextJob, StoreInv_cleanupOldJobs;
      revert HS; apply StoreInv_ext; unfold settlePromise;
      rewrite webhookSettled_eq; by destruct s.
Qed.

Lemma StoreInv_exec inputs : StoreInv (exec path_join inputs).
Proof.
  induction inputs as [|inp inputs IH] using rev_ind.
  - split; simpl; try apply NoDup_nil_2; intros e He; by apply elem_of_nil in He.
  - rewrite exec_snoc. by apply StoreInv_step.
Qed.

(** *** Counting terminal job objects *)


Lemma length_filter_alter_flip {A} (P : A → Prop) `{!∀ x, Decision (P x)}
    (f : A → A) (l : list A) i x :
  l !! i = Some x → ¬ P x → P (f x) →
  length (filter P (alter f i l)) = S (length (filter P l)).
Proof.
  revert i. induction l as [|a l IH]; intros i Hi Hn Hp; [done |].
  destruct i as [|i]; simpl in *.
  - injection Hi as ->. by rewrite filter_cons_True, filter_cons_False.
  - specialize (IH i Hi Hn Hp). destruct (decide (P a)).
    + rewrite !filter_cons_True by done. simpl. f_equal. exact IH.
    + rewrite !filter_cons_False by done. exact IH.
Qed.

Lemma doneCount_ext s s' :
  length (heap s') = length (heap s) →
  (∀ r, Job.isTerminal (heap s' !!! r) = Job.isTerminal (heap s !!! r)) →
  doneCount s' = doneCount s.
Proof.
  unfold doneCount. generalize (heap s) (heap s'). clear s s'.
  induction l as [|a l IH]; intros [|b l'] Hlen Hiff; try done.
  injection Hlen as Hlen.
  assert (Hl : length (filter (λ j, Job.isTerminal j = true) l')
               = length (filter (λ j, Job.isTerminal j = true) l)).
  { apply IH; [done |]. intros r. apply (Hiff (S r)). }
  specialize (Hiff 0). simpl in Hiff.
  destruct (Job.isTerminal a) eqn:Ha.
  - rewrite !filter_cons_True by done. simpl. by rewrite Hl.
  - rewrite !filter_cons_False by (by rewrite ?Hiff, ?Ha). done.
Qed.

Lemma doneCount_finish s s' r f :
  r < length (heap s) → Job.isTerminal (heap s !!! r) = false →
  (∀ j, Job.isTerminal (f j) = true) → heap s' = alter f r (heap s) →
  doneCount s' = S (doneCount s).
Proof.
  intros Hr Hnt Hf Hh. unfold doneCount. rewrite Hh.
  apply (length_filter_alter_flip _ _ _ _ (heap s !!! r)).
  - by apply list_lookup_lookup_total_lt.
  - by rewrite Hnt.
  - apply Hf.
Qed.


Lemma doneCount_createJob options tId tCreated s :
  doneCount (createJob path_join options tId tCreated s).2 = doneCount s.
Proof.
  unfold doneCount, createJob. destruct s; simpl.
  rewrite filter_app. rewrite filter_cons_False by done.
  by rewrite app_nil_r.
Qed.

(** *** Retention *)

Lemma fresh_key s tId :
  StoreInv s → (JobId.incr (jobIdCounter s) < 2 ^ 53)%N →
  (JobId.generateJobId (jobIdCounter s) tId).1 ∉ (allJobs s).*1.
Proof.
  intros HS Hc [e [Heq He]]%list_elem_of_fmap.
  destruct (store_ids _ HS e He) as (t & c & Hid & Hle).
  rewrite Hid in Heq. apply JobIdFacts.generateJobId_inj in Heq.
  pose proof (incr_le (jobIdCounter s)).
  rewrite (JobIdFacts.incr_exact (jobIdCounter s)) in Heq by lia. lia.
Qed.

Lemma terminalEntries_eq s s' :
  allJobs s' = allJobs s →
  (∀ e, e ∈ allJobs s →
        Job.isTerminal (heap s' !!! e.2) = Job.isTerminal (heap s !!! e.2)) →
  terminalEntries s' = terminalEntries s.
Proof.
  intros Ha Hh. unfold terminalEntries. rewrite Ha.
  apply CleanupFacts.filter_iff_in. intros e He. by rewrite Hh.
Qed.

Lemma RetentionInv_same s s' :
  allJobs s' = allJobs s → length (heap s') = length (heap s) →
  (∀ r, Job.isTerminal (heap s' !!! r) = Job.isTerminal (heap s !!! r)) →
  (∀ r, Job.completedTime (heap s' !!! r) = Job.completedTime (heap s !!! r)) →
  awaitingWebhook s' = awaitingWebhook s →
  jobIdCounter s' = jobIdCounter s →
  RetentionInv s → RetentionInv s'.
Proof.
  intros Ha Hl Ht Hc Hw Hj HR. unfold RetentionInv.
  pose proof (doneCount_ext s s' Hl Ht) as Hd.
  rewrite (terminalEntries_eq s s') by (intros; by rewrite ?Ha, ?Ht).
  rewrite Ha, Hl, Hw, Hd, Hj. intros Hctr.
  destruct (HR Hctr) as (H1 & H2 & H3 & H4). split_and!.
  - intros r. rewrite Ht. apply H1.
  - done.
  - intros r. rewrite Ht. apply H3.
  - intros r e. rewrite Ht, !Hc. apply H4.
Qed.

Lemma RetentionInv_processNextJob now s :
  GuardPre s → RetentionInv s → RetentionInv (processNextJob now s).
Proof.
  intros HP. apply RetentionInv_same; unfold processNextJob;
    destruct (isProcessing s) eqn:Hip; simpl; try done;
    destruct (jobQueue s) as [|e q] eqn:Hq; simpl; try done.
  - apply length_alter.
  - intros r. pose proof (queue_queued _ HP e) as Hqq.
    rewrite Hq in Hqq. specialize (Hqq ltac:(by left)).
    unfold statusOf in Hqq. rewrite list_lookup_total_alter.
    case_decide as Hd; [| done]. destruct Hd as [<- _].
    unfold Job.isTerminal. simpl. by rewrite Hqq.
  - intros r. rewrite list_lookup_total_alter.
    case_decide as Hd; [destruct Hd as [<- _] |]; done.
  - pose proof (guard_frames _ HP) as Hf. rewrite Hip in Hf.
    apply nil_length_inv in Hf. unfold awaitingWebhook. simpl. by rewrite Hf.
Qed.

Lemma RetentionInv_createJob options tId tCreated s :
  StoreInv s → RetentionInv s →
  RetentionInv (createJob path_join options tId tCreated s).2.
Proof.
  intros HS HR Hctr.
  assert (Hc' : (JobId.incr (jobIdCounter s) < 2 ^ 53)%N) by (by destruct s).
  pose proof (fresh_key s tId HS Hc') as Hfresh.
  pose proof (incr_le (jobIdCounter s)) as Hle.
  destruct (HR ltac:(lia)) as (H1 & H2 & H3 & H4). clear HR Hctr.
  pose proof (store_bound _ HS) as Hb.
  assert (Hte : terminalEntries (createJob path_join options tId tCreated s).2
                = terminalEntries s).
  { unfold createJob, terminalEntries. destruct s; qsimpl.
    rewrite JsMapFacts.set_fresh by done. rewrite filter_app.
    rewrite (filter_cons_False _ (_, length heap0)); [| simpl].
    - rewrite app_nil_r. apply CleanupFacts.filter_iff_in. intros e He.
      by rewrite lookup_total_app_l by (by apply Hb).
    - rewrite lookup_total_app_r by lia. by rewrite Nat.sub_diag. }
  unfold RetentionInv. rewrite Hte, doneCount_createJob. clear Hte.
  unfold createJob, terminalEntries, awaitingWebhook in *.
  destruct s as [q cur ip aj ctr st h fr pr tr]. qsimpl.
  rewrite JsMapFacts.set_fresh by done. rewrite !fmap_app. simpl.
  split_and!.
  - intros r. rewrite length_app, lookup_total_snoc. simpl. intros Hr.
    destruct (decide (r < length h));
      [| intros _; apply elem_of_app; right; apply list_elem_of_singleton; lia].
    intros Ht. apply elem_of_app. left. by apply H1.
  - done.
  - intros r. rewrite length_app, lookup_total_snoc. simpl. intros Hr.
    destruct (decide (r < length h)); [| by destruct (decide (r = length h))].
    intros Ht Hn. apply (H3 r); [done | done |].
    intros Hin. apply Hn, elem_of_app. by left.
  - intros r e. rewrite length_app, lookup_total_snoc. simpl. intros Hr.
    destruct (decide (r < length h)); [| by destruct (decide (r = length h))].
    intros Ht Hn He Hw. rewrite lookup_total_app_l.
    + apply H4; try done. intros Hin. apply Hn, elem_of_app. by left.
    + apply Hb. apply list_elem_of_filter in He. tauto.
Qed.

Lemma RetentionInv_finish s s' r f :
  StoreInv s → RetentionInv s →
  r < length (heap s) → Job.isTerminal (heap s !!! r) = false →
  (∀ j, Job.isTerminal (f j) = true) →
  awaitingWebhook s = [] → awaitingWebhook s' = [r] →
  allJobs s' = allJobs s → heap s' = alter f r (heap s) →
  jobIdCounter s' = jobIdCounter s →
  RetentionInv s'.
Proof.
  intros HS HR Hr Hnt Hf Hw Hw' Ha Hh Hj Hctr. rewrite Hj in Hctr.
  pose proof (doneCount_finish s s' r f Hr Hnt Hf Hh) as Hd.
  destruct (HR Hctr) as (H1 & H2 & H3 & H4). clear HR.
  rewrite Hw in H2. rewrite decide_True in H2 by done.
  assert (Hin : r ∈ (allJobs s).*2) by (by apply H1).
  apply list_elem_of_fmap in Hin as [x [Hx Hxin]].
  assert (Hother : ∀ r', r' ≠ r → heap s' !!! r' = heap s !!! r').
  { intros r' Hne. rewrite Hh. by apply list_lookup_total_alter_ne. }
  assert (Hself : Job.isTerminal (heap s' !!! r) = true).
  { rewrite Hh, list_lookup_total_alter_eq by done. apply Hf. }
  assert (Hcount : length (terminalEntries s') = S (length (terminalEntries s))).
  { unfold terminalEntries. rewrite Ha.
    apply (CleanupFacts.count_flip _ _ _ x); try done.
    - eapply NoDup_fmap_1, (store_keys _ HS).
    - rewrite <- Hx. congruence.
    - by rewrite <- Hx.
    - intros y Hy Hne. rewrite Hother; [done |].
      intros Heq. apply Hne.
      eapply (CleanupFacts.NoDup_fmap_eq snd); [apply (store_refs _ HS) | done | done |].
      congruence. }
  rewrite Hw', Ha, Hh, Hd, length_alter. rewrite decide_False by done.
  rewrite Hcount, H2. simpl. split_and!.
  - intros r' Hr' Ht. apply H1; [done |].
    destruct (decide (r' = r)) as [-> | Hne]; [congruence |].
    by rewrite <- Hother, Hh.
  - lia.
  - done.
  - intros r' Hr' Ht Hn.
    destruct (decide (r' = r)) as [-> | Hne].
    { exfalso. apply Hn. apply list_elem_of_fmap. by exists x. }
    rewrite <- Hh, Hother in Ht by done. specialize (H3 r' Hr' Ht Hn). lia.
  - intros r' e Hr' Ht Hn He Hne.
    assert (e.2 ≠ r) as Her.
    { intros Heq. apply Hne. rewrite Heq. by left. }
    destruct (decide (r' = r)) as [-> | Hne'].
    { exfalso. apply Hn. apply list_elem_of_fmap. by exists x. }
    rewrite <- Hh in *. rewrite !Hother in * by done.
    apply H4; try done.
    + unfold terminalEntries in *. rewrite Ha in He.
      apply list_elem_of_filter in He as [HT He].
      apply list_elem_of_filter. split; [| done]. by rewrite <- Hother.
    + rewrite Hw. apply not_elem_of_nil.
Qed.

Lemma RetentionInv_cleanup s s1 y :
  StoreInv s → RetentionInv s → awaitingWebhook s = [y] →
  allJobs s1 = allJobs s → heap s1 = heap s → doneCount s1 = doneCount s →
  jobIdCounter s1 = jobIdCounter s → frames s1 = [] →
  RetentionInv (cleanupOldJobs s1).
Proof.
  intros HS HR Hw Ha Hh Hd Hj Hfr Hctr.
  assert (Hs2 : heap (cleanupOldJobs s1) = heap s
                ∧ doneCount (cleanupOldJobs s1) = doneCount s
                ∧ jobIdCounter (cleanupOldJobs s1) = jobIdCounter s
                ∧ awaitingWebhook (cleanupOldJobs s1) = []).
  { rewrite cleanupOldJobs_eq. unfold awaitingWebhook.
    destruct s1; simpl in *. by subst. }
  destruct Hs2 as (Hh2 & Hd2 & Hj2 & Hw2).
  rewrite Hj2 in Hctr.
  destruct (HR Hctr) as (H1 & H2 & H3 & H4). clear HR.
  rewrite Hw in H2. rewrite decide_False in H2 by done.
  destruct H2 as [Hpos H2].
  assert (Hkeys : NoDup (allJobs s1).*1) by (rewrite Ha; apply (store_keys _ HS)).
  destruct (CleanupFacts.cleanupOldJobs_spec s1 Hkeys)
    as (D & Hall & HD & Hcnt & Hrec & Hbig).
  rewrite Ha, Hh in *.
  assert (Hte2 : terminalEntries (cleanupOldJobs s1)
                 = filter (λ e, Job.isTerminal (heap s !!! e.2) = true)
                     (allJobs (cleanupOldJobs s1))).
  { unfold terminalEntries. by rewrite Hh2. }
  assert (Hsub : ∀ e, e ∈ allJobs (cleanupOldJobs s1) → e ∈ allJobs s ∧ e ∉ D).
  { intros e. rewrite Hall. rewrite list_elem_of_filter. tauto. }
  assert (Hdel : ∀ x, x ∈ allJobs s → x.2 ∉ (allJobs (cleanupOldJobs s1)).*2 → x ∈ D).
  { intros x Hx Hn. destruct (decide (x ∈ D)) as [| HnD]; [done |].
    exfalso. apply Hn. apply list_elem_of_fmap. exists x. split; [done |].
    rewrite Hall. apply list_elem_of_filter. done. }
  unfold RetentionInv. rewrite Hte2, Hh2, Hd2, Hw2.
  rewrite decide_True by done.
  fold (terminalEntries s) in Hcnt, Hbig.
  split_and!.
  - intros r Hr Ht. specialize (H1 r Hr Ht).
    apply list_elem_of_fmap in H1 as [x [-> Hx]].
    apply list_elem_of_fmap. exists x. split; [done |].
    rewrite Hall. apply list_elem_of_filter. split; [| done].
    intros HxD. destruct (HD x HxD) as [_ HT]. congruence.
  - rewrite Hcnt, H2. lia.
  - intros r Hr Ht Hn.
    destruct (decide (r ∈ (allJobs s).*2)) as [Hin | Hnin]; [| by apply (H3 r)].
    apply list_elem_of_fmap in Hin as [x [-> Hx]].
    specialize (Hbig x (Hdel x Hx Hn)). rewrite H2 in Hbig. lia.
  - intros r e Hr Ht Hn He _.
    apply list_elem_of_filter in He as [HTe He].
    destruct (Hsub e He) as [HeE HeD].
    destruct (decide (r ∈ (allJobs s).*2)) as [Hin | Hnin].
    { apply list_elem_of_fmap in Hin as [x [-> Hx]].
      by apply (Hrec x e (Hdel x Hx Hn)). }
    assert (HeT : e ∈ terminalEntries s) by (by apply list_elem_of_filter).
    destruct (decide (e.2 = y)) as [Hey | Hey].
    + specialize (H3 r Hr Ht Hnin).
      destruct D as [|x D'].
      { exfalso. rewrite (CleanupFacts.filter_all _ (allJobs s)) in Hall
          by (intros; apply not_elem_of_nil).
        rewrite Hall in Hcnt. fold (terminalEntries s) in Hcnt. lia. }
      assert (HxD : x ∈ x :: D') by (by left).
      destruct (HD x HxD) as [HxE HxT].
      assert (Hxe : x.2 ≠ e.2).
      { intros Heq. apply HeD.
        rewrite <- (CleanupFacts.NoDup_fmap_eq snd (allJobs s) x e
                      (store_refs _ HS) HxE HeE Heq). done. }
      etrans; [| by apply (Hrec x e HxD)].
      apply (H4 r x); try done.
      * by apply list_elem_of_filter.
      * rewrite Hw. intros Heq%list_elem_of_singleton. congruence.
    + apply (H4 r e); try done.
      rewrite Hw. by intros Heq%list_elem_of_singleton.
Qed.

Lemma RetentionInv_step s inp :
  GuardInv s → StoreInv s → RetentionInv s → RetentionInv (step path_join s inp).
Proof.
  intros [HP Hidle] HS HR. destruct inp as [options tId tCreated
    | options pf tId tCreated tStarted | i o now | i tC tS | i fr now]; simpl.
  - by apply RetentionInv_createJob.
  - unfold queueJob. apply RetentionInv_processNextJob.
    { by apply GuardPre_enqueue. }
    set (s0 := with_promises _ s).
    assert (HS0 : StoreInv s0) by (revert HS; apply StoreInv_ext; by destruct s).
    assert (HR0 : RetentionInv s0) by (revert HR; apply RetentionInv_same; by destruct s).
    pose proof (RetentionInv_createJob options tId tCreated s0 HS0 HR0) as HR1.
    revert HR1. apply RetentionInv_same;
      by destruct (createJob path_join options tId tCreated s0).2.
  - unfold onProcessSettled.
    destruct (frames s !! i) as [[e | e rs | e err] |] eqn:Hi; try done.
    destruct (frames1 _ _ _ (guard_frames_le _ HP) Hi) as [-> Hfr].
    pose proof (refs_frames _ HP (AwaitProcess e)) as He.
    rewrite Hfr in He. specialize (He ltac:(by left)).
    pose proof (frame_status _ HP (AwaitProcess e)) as Hst.
    rewrite Hfr in Hst. specialize (Hst ltac:(by left)).
    assert (Hnt : Job.isTerminal (heap s !!! job e) = false).
    { unfold statusOf in Hst. simpl in Hst. unfold Job.isTerminal. by rewrite Hst. }
    assert (Hw : awaitingWebhook s = []) by (unfold awaitingWebhook; by rewrite Hfr).
    destruct o as [rs | err].
    + eapply (RetentionInv_finish s _ (job e) (Job.complete now rs)); try done;
        rewrite sendWebhookNotification_eq; unfold awaitingWebhook, doneCount;
        destruct s; simpl in *; subst; simpl; try done; lia.
    + eapply (RetentionInv_finish s _ (job e) (Job.fail now err)); try done;
        rewrite sendWebhookNotification_eq; unfold awaitingWebhook, doneCount;
        destruct s; simpl in *; subst; simpl; try done; lia.
  - open_thrown HP e Hfr.
    pose proof (refs_frames _ HP (AwaitProcess e)) as He.
    rewrite Hfr in He. specialize (He ltac:(by left)).
    pose proof (frame_status _ HP (AwaitProcess e)) as Hst.
    rewrite Hfr in Hst. specialize (Hst ltac:(by left)).
    assert (Hnt : Job.isTerminal (heap s !!! job e) = false).
    { unfold statusOf in Hst. simpl in Hst. unfold Job.isTerminal. by rewrite Hst. }
    assert (Hw : awaitingWebhook s = []) by (unfold awaitingWebhook; by rewrite Hfr).
    apply RetentionInv_processNextJob; [thrown_guard s e tC |].
    set (mid := with_frames [AwaitWebhookTry e []]
                  (emit (CatchThrew (job e))
                     (mutate (job e) (Job.failUnrecorded tC) s))).
    assert (HSm : StoreInv mid).
    { revert HS. apply StoreInv_ext; destruct s; simpl; try done.
      apply length_alter. }
    assert (HRm : RetentionInv mid).
    { eapply (RetentionInv_finish s _ (job e) (Job.failUnrecorded tC)); try done;
        unfold awaitingWebhook; destruct s; simpl in *; subst; simpl; done. }
    eapply (RetentionInv_cleanup mid _ (job e)); [done | done | ..];
      unfold awaitingWebhook, doneCount; destruct s; simpl in *; by subst.
  - unfold onWebhookSettled.
    destruct (frames s !! i) as [[e | e rs | e err] |] eqn:Hi; try done;
      destruct (frames1 _ _ _ (guard_frames_le _ HP) Hi) as [-> Hfr];
      unfold finally; (apply RetentionInv_processNextJob;
        [ eapply (GuardPre_finally s); [done | done | done | ..];
          rewrite cleanupOldJobs_eq; unfold settlePromise;
          rewrite webhookSettled_eq; destruct s; qsimpl; by subst
        | ]);
      (eapply (RetentionInv_cleanup s _ (job e)); [done | done | ..];
        [ unfold awaitingWebhook; by rewrite Hfr | ..];
        unfold settlePromise, doneCount; rewrite webhookSettled_eq;
        destruct s; qsimpl; by subst).
Qed.

Lemma RetentionInv_exec inputs : RetentionInv (exec path_join inputs).
Proof.
  induction inputs as [|inp inputs IH] using rev_ind.
  - intros _. split_and!; try done; simpl; intros; lia.
  - rewrite exec_snoc.
    apply RetentionInv_step; [apply GuardInv_exec | apply StoreInv_exec | done].
Qed.

(** *** The counters *)








(** *** What a suspended run holds *)





(** *** Terminal jobs are never written again *)

Lemma frozen_processNextJob now s r j :
  GuardPre s → heap s !! r = Some j → Job.isTerminal j = true →
  heap (processNextJob now s) !! r = Some j.
Proof.
  intros HP Hr Ht. unfold processNextJob.
  destruct (isProcessing s) eqn:Hip; simpl; [done |].
  destruct (jobQueue s) as [|e q] eqn:Hq; simpl; [done |].
  pose proof (queue_queued _ HP e) as Hqq.
  rewrite Hq in Hqq. specialize (Hqq ltac:(by left)). unfold statusOf in Hqq.
  destruct s; simpl in *. rewrite list_lookup_alter_ne; [done |].
  intros <-. apply list_lookup_total_correct in Hr. rewrite Hr in Hqq.
  unfold Job.isTerminal in Ht. by rewrite Hqq in Ht.
Qed.

Lemma frozen_step s inp r j :
  GuardInv s → heap s !! r = Some j → Job.isTerminal j = true →
  heap (step path_join s inp) !! r = Some j.
Proof.
  intros [HP Hidle] Hr Ht. pose proof (lookup_lt_Some _ _ _ Hr) as Hlt.
  destruct inp as [options tId tCreated
    | options pf tId tCreated tStarted | i o now | i tC tS | i fr now]; simpl.
  - unfold createJob. destruct s; simpl in *. by rewrite lookup_app_l.
  - unfold queueJob. apply frozen_processNextJob; [by apply GuardPre_enqueue | | done].
    unfold createJob. destruct s; simpl in *. by rewrite lookup_app_l.
  - unfold onProcessSettled.
    destruct (frames s !! i) as [[e | e rs | e err] |] eqn:Hi; try done.
    destruct (frames1 _ _ _ (guard_frames_le _ HP) Hi) as [-> Hfr].
    pose proof (frame_status _ HP (AwaitProcess e)) as Hst.
    rewrite Hfr in Hst. specialize (Hst ltac:(by left)).
    unfold statusOf in Hst. simpl in Hst.
    assert (job e ≠ r).
    { intros <-. apply list_lookup_total_correct in Hr. rewrite Hr in Hst.
      unfold Job.isTerminal in Ht. by rewrite Hst in Ht. }
    destruct o as [rs | err]; rewrite sendWebhookNotification_eq;
      destruct s; simpl in *; by rewrite list_lookup_alter_ne.
  - open_thrown HP e Hfr.
    pose proof (frame_status _ HP (AwaitProcess e)) as Hst.
    rewrite Hfr in Hst. specialize (Hst ltac:(by left)).
    unfold statusOf in Hst. simpl in Hst.
    assert (job e ≠ r).
    { intros <-. apply list_lookup_total_correct in Hr. rewrite Hr in Hst.
      unfold Job.isTerminal in Ht. by rewrite Hst in Ht. }
    apply frozen_processNextJob; [thrown_guard s e tC | | done].
    rewrite cleanupOldJobs_eq. destruct s; simpl in *.
    by rewrite list_lookup_alter_ne.
  - unfold onWebhookSettled.
    destruct (frames s !! i) as [[e | e rs | e err] |] eqn:Hi; try done;
      destruct (frames1 _ _ _ (guard_frames_le _ HP) Hi) as [-> Hfr];
      unfold finally; (apply frozen_processNextJob;
        [ eapply (GuardPre_finally s); [done | done | done | ..];
          rewrite cleanupOldJobs_eq; unfold settlePromise;
          rewrite webhookSettled_eq; destruct s; qsimpl; by subst
        | | done ]);
      rewrite cleanupOldJobs_eq; unfold settlePromise;
      rewrite webhookSettled_eq; by destruct s.
Qed.

Lemma exec_app inputs more :
  exec path_join (inputs ++ more) = foldl (step path_join) (exec path_join inputs) more.
Proof. unfold exec. by rewrite foldl_app. Qed.

Lemma frozen_exec inputs more r j :
  heap (exec path_join inputs) !! r = Some j → Job.isTerminal j = true →
  heap (exec path_join (inputs ++ more)) !! r = Some j.
Proof.
  induction more as [|inp more IH] using rev_ind; intros Hr Ht.
  - by rewrite app_nil_r.
  - rewrite (assoc_L (++)), exec_snoc.
    apply frozen_step; [apply GuardInv_exec | by apply IH | done].
Qed.

(** *** The turn in which the webhook settles *)

Lemma onWebhookSettled_advances s f fr now :
  GuardInv s → frames s = [f] → frameStatus f ≠ processing →
  match jobQueue s with
  | [] =>
      isProcessing (onWebhookSettled 0 fr now s) = false
      ∧ frames (onWebhookSettled 0 fr now s) = []
      ∧ jobQueue (onWebhookSettled 0 fr now s) = []
  | e' :: q =>
      isProcessing (onWebhookSettled 0 fr now s) = true
      ∧ jobQueue (onWebhookSettled 0 fr now s) = q
      ∧ frames (onWebhookSettled 0 fr now s) = [AwaitProcess e']
      ∧ statusOf (onWebhookSettled 0 fr now s) (job e') = processing
      ∧ Job.startedAt (heap (onWebhookSettled 0 fr now s) !!! job e') = Some now
  end.
Proof.
  intros [HP Hidle] Hfr Hst. unfold onWebhookSettled. rewrite Hfr. simpl.
  pose proof (refs_queue _ HP) as Hrq.
  destruct f as [e | e rs | e err]; [done | |].
  - unfold finally. forget_cleanup. unfold settlePromise.
    rewrite webhookSettled_eq.
    destruct s as [q cur ip aj ctr st h frs pr tr]. qsimpl. subst frs.
    unfold processNextJob. simpl.
    destruct q as [|e' q]; simpl; [done |].
    assert (job e' < length h) by (apply Hrq; by left).
    by rewrite list_lookup_total_alter_eq.
  - unfold finally. forget_cleanup. unfold settlePromise.
    rewrite webhookSettled_eq.
    destruct s as [q cur ip aj ctr st h frs pr tr]. qsimpl. subst frs.
    unfold processNextJob. simpl.
    destruct q as [|e' q]; simpl; [done |].
    assert (job e' < length h) by (apply Hrq; by left).
    by rewrite list_lookup_total_alter_eq.
Qed.


Lemma onWebhookSettled_resolves s e rs fr now :
  PromiseInv s → frames s = [AwaitWebhookTry e rs] →
  promises (onWebhookSettled 0 fr now s) !! promise e
  = Some (Resolved
            {| outSuccess := true;
               outJobId := Job.id (heap s !!! job e);
               outFolder := Job.folder (heap s !!! job e);
               outTotal := Job.recordingsTotal (heap s !!! job e);
               outCompleted := Job.recordingsCompleted (heap s !!! job e);
               outFailed := Job.recordingsFailed (heap s !!! job e);
               outResults := rs |}).
Proof.
  intros [_ Hpend] Hfr. unfold onWebhookSettled. rewrite Hfr. simpl.
  assert (Hp : promises s !! promise e = Some Pending).
  { apply Hpend. unfold liveEntries. rewrite Hfr. apply elem_of_app. right. by left. }
  unfold finally.
  assert (Hpn : ∀ x, promises (processNextJob now x) = promises x).
  { intros x. unfold processNextJob.
    destruct (isProcessing x || bool_decide (length (jobQueue x) = 0)); [done |].
    destruct (jobQueue x); by destruct x. }
  rewrite Hpn, cleanupOldJobs_eq. unfold settlePromise.
  rewrite (webhookSettled_eq (job e) fr s). destruct s; simpl in *.
  by rewrite list_lookup_alter_eq, Hp.
Qed.







(** *** What the [catch] block leaves behind *)







(** *** A promise no run holds is never settled *)







(** *** The turn in which the [catch] block throws *)




(** *** The store and the console while and after the webhook is awaited *)



(** *** Which jobs were notified *)





End WithPath.
End QueueFacts.

(** ** The queue manager: the claims *)

(** C1: in every state the manager reaches, at most one job has status
    ['processing']. There is one suspended run of [processNextJob] exactly
    when [isProcessing] is set; a call made while it is set returns at once,
    changing nothing; two job objects that both have status ['processing']
    are the same object, and two entries of the store whose jobs are both
    ['processing'] are the same entry. *)
Theorem at_most_one_processing
    (path_join : string → string → string) (inputs : list Queue.Input) :
  length (Queue.frames (Queue.exec path_join inputs))
    = (if Queue.isProcessing (Queue.exec path_join inputs) then 1 else 0)
  ∧ (∀ now, Queue.isProcessing (Queue.exec path_join inputs) = true →
       Queue.processNextJob now (Queue.exec path_join inputs)
       = Queue.exec path_join inputs)
  ∧ (∀ r1 r2,
       Queue.statusOf (Queue.exec path_join inputs) r1 = processing →
       Queue.statusOf (Queue.exec path_join inputs) r2 = processing →
       r1 = r2)
  ∧ (∀ i1 i2 e1 e2,
       Queue.allJobs (Queue.exec path_join inputs) !! i1 = Some e1 →
       Queue.allJobs (Queue.exec path_join inputs) !! i2 = Some e2 →
       Queue.statusOf (Queue.exec path_join inputs) e1.2 = processing →
       Queue.statusOf (Queue.exec path_join inputs) e2.2 = processing →
       i1 = i2).
Proof.
  destruct (QueueFacts.GuardInv_exec path_join inputs) as [HP _].
  pose proof (QueueFacts.StoreInv_exec path_join inputs) as HS.
  assert (Hone : ∀ r1 r2,
    Queue.statusOf (Queue.exec path_join inputs) r1 = processing →
    Queue.statusOf (Queue.exec path_join inputs) r2 = processing → r1 = r2).
  { intros r1 r2 H1 H2.
    destruct (Queue.processing_frame _ HP r1 H1) as (e1 & Hf1 & <-).
    destruct (Queue.processing_frame _ HP r2 H2) as (e2 & Hf2 & <-).
    congruence. }
  split_and!.
  - apply (Queue.guard_frames _ HP).
  - intros now Hip. apply QueueFacts.processNextJob_skip. by left.
  - done.
  - intros i1 i2 e1 e2 Hi1 Hi2 H1 H2.
    eapply (NoDup_lookup _ _ _ _ (Queue.store_refs _ HS));
      rewrite list_lookup_fmap.
    + by rewrite Hi1.
    + rewrite Hi2. simpl. f_equal. by apply Hone.
Qed.

Lemma at_most_one_processing_witness :
  Queue.processNextJob 0 (Queue.exec Scenarios.join Scenarios.submitABC)
    = Queue.exec Scenarios.join Scenarios.submitABC
  ∧ 0 = 0
  ∧ 0 = 0.
Proof.
  destruct (at_most_one_processing Scenarios.join Scenarios.submitABC)
    as (_ & Hskip & Hone & Hstore).
  split_and!.
  - apply Hskip. reflexivity.
  - apply (Hone 0 0); reflexivity.
  - apply (Hstore 0 0 ("job_20250123143022_001", 0) ("job_20250123143022_001", 0));
      reflexivity.
Defined.

(** C2: jobs reach ['processing'] in the order they were submitted. In
    every state reached, the jobs started so far followed by those still
    queued are the jobs in the order [queueJob] pushed them; a queued entry
    has status ['queued']; and of two submitted jobs, once the later one has
    left ['queued'] the earlier one is terminal. *)
Theorem jobs_start_in_submission_order
    (path_join : string → string → string) (inputs : list Queue.Input) :
  Queue.queuedOrder (Queue.trace (Queue.exec path_join inputs))
    = Queue.startedOrder (Queue.trace (Queue.exec path_join inputs))
      ++ (Queue.job <$> Queue.jobQueue (Queue.exec path_join inputs))
  ∧ (∀ e, e ∈ Queue.jobQueue (Queue.exec path_join inputs) →
       Queue.statusOf (Queue.exec path_join inputs) (Queue.job e) = queued)
  ∧ (∀ i j a b, i < j →
       Queue.queuedOrder (Queue.trace (Queue.exec path_join inputs)) !! i = Some a →
       Queue.queuedOrder (Queue.trace (Queue.exec path_join inputs)) !! j = Some b →
       Queue.statusOf (Queue.exec path_join inputs) b ≠ queued →
       Job.isTerminal (Queue.heap (Queue.exec path_join inputs) !!! a) = true).
Proof.
  destruct (QueueFacts.GuardInv_exec path_join inputs) as [HP _].
  destruct (QueueFacts.OrderInv_exec path_join inputs) as [Ho Hl].
  split_and!; [done | apply (Queue.queue_queued _ HP) |].
  intros i j a b Hij Ha Hb Hnq. rewrite Ho in Ha, Hb.
  set (P := Queue.startedOrder _) in *.
  assert (Hj : j < length P).
  { destruct (decide (j < length P)) as [| Hge]; [done |]. exfalso.
    rewrite lookup_app_r in Hb by lia.
    apply list_lookup_fmap_Some in Hb as (e & -> & He).
    apply Hnq, (Queue.queue_queued _ HP). by eapply list_elem_of_lookup_2. }
  rewrite lookup_app_l in Ha by lia.
  destruct (Hl i a Ha) as [Ht | [Hlast _]]; [done | lia].
Qed.

Lemma jobs_start_in_submission_order_witness :
  Queue.statusOf (Queue.exec Scenarios.join Scenarios.submitABC) 2 = queued
  ∧ Job.isTerminal
      (Queue.heap (Queue.exec Scenarios.join Scenarios.bRejected) !!! 0) = true.
Proof.
  split.
  - destruct (jobs_start_in_submission_order Scenarios.join Scenarios.submitABC)
      as (_ & Hq & _).
    apply (Hq {| Queue.job := 2; Queue.processFunction := 2; Queue.promise := 2 |}).
    vm_compute. apply list_elem_of_In. right. left. reflexivity.
  - destruct (jobs_start_in_submission_order Scenarios.join Scenarios.bRejected)
      as (_ & _ & Hlook).
    apply (Hlook 0 1 0 1); [lia | reflexivity | reflexivity |].
    vm_compute. discriminate.
Defined.




(** C4, as stated, fails: a job submitted for three recordings whose
    callback resolves with one result is ['completed'] with a non-empty
    [results], and neither its counts nor [results.length] add up to
    [recordingsTotal]. *)
Lemma completed_counts_differ_from_total :
  Job.status (Queue.heap (Queue.exec Scenarios.join Scenarios.shortResults) !!! 0)
    = completed
  ∧ Job.results (Queue.heap (Queue.exec Scenarios.join Scenarios.shortResults) !!! 0)
    = [Scenarios.result "s1" true]
  ∧ Job.recordingsCompleted
      (Queue.heap (Queue.exec Scenarios.join Scenarios.shortResults) !!! 0)
    + Job.recordingsFailed
        (Queue.heap (Queue.exec Scenarios.join Scenarios.shortResults) !!! 0)
    ≠ Job.recordingsTotal
        (Queue.heap (Queue.exec Scenarios.join Scenarios.shortResults) !!! 0)
  ∧ length (Job.results
              (Queue.heap (Queue.exec Scenarios.join Scenarios.shortResults) !!! 0))
    ≠ Job.recordingsTotal
        (Queue.heap (Queue.exec Scenarios.join Scenarios.shortResults) !!! 0).
Proof. vm_compute. split_and!; (reflexivity || discriminate). Qed.

(** C4 (amended): when the callback of the job in hand resolves with a
    list [rs], the job becomes ['completed'] with [completedAt] the time of
    that turn, [results = rs], [recordingsCompleted] the number of results
    with [success] true and [recordingsFailed] the number with [success]
    false; the two counts add up to [results.length]; [recordingsTotal] stays
    what the submission gave. Counts and length equal [recordingsTotal] when
    the callback returns that many results, as it does when it returns what
    [processRecordingsInJob] gives for as many recordings as were announced.
    The record is not written again. *)
Theorem completed_job_counts
    (path_join : string → string → string) (inputs : list Queue.Input)
    (e : Queue.Entry) (rs : list TaskResult.t) (now : Z) :
  Queue.frames (Queue.exec path_join inputs) = [Queue.AwaitProcess e] →
  ∃ j' : Job.t,
    j' = Job.complete now rs (Queue.heap (Queue.exec path_join inputs) !!! Queue.job e)
    ∧ Queue.heap (Queue.exec path_join
                    (inputs ++ [Queue.ProcessSettled 0 (Fulfilled rs) now]))
        !! Queue.job e = Some j'
    ∧ Job.status j' = completed
    ∧ Job.completedAt j' = Some now
    ∧ Job.results j' = rs
    ∧ Job.recordingsCompleted j'
      = length (filter (λ r, TaskResult.success r = true) rs)
    ∧ Job.recordingsFailed j'
      = length (filter (λ r, TaskResult.success r = false) rs)
    ∧ Job.recordingsCompleted j' + Job.recordingsFailed j' = length (Job.results j')
    ∧ Job.recordingsTotal j'
      = Job.recordingsTotal (Queue.heap (Queue.exec path_join inputs) !!! Queue.job e)
    ∧ (length rs = Job.recordingsTotal j' →
         Job.recordingsCompleted j' + Job.recordingsFailed j' = Job.recordingsTotal j'
         ∧ length (Job.results j') = Job.recordingsTotal j')
    ∧ (∀ recordings k schedule,
         Limiter.processRecordingsInJob recordings k schedule = Some rs →
         Job.recordingsTotal j' = length recordings →
         Job.recordingsCompleted j' + Job.recordingsFailed j' = Job.recordingsTotal j'
         ∧ length (Job.results j') = Job.recordingsTotal j')
    ∧ (∀ more,
         Queue.heap (Queue.exec path_join
                       (inputs ++ [Queue.ProcessSettled 0 (Fulfilled rs) now] ++ more))
           !! Queue.job e = Some j').
Proof.
  intros Hfr.
  destruct (QueueFacts.GuardInv_exec path_join inputs) as [HP _].
  pose proof (Queue.refs_frames _ HP (Queue.AwaitProcess e)) as He.
  rewrite Hfr in He. specialize (He ltac:(by left)). simpl in He.
  set (s := Queue.exec path_join inputs) in *.
  assert (Hcount : ∀ l : list TaskResult.t,
    length (filter (λ r, TaskResult.success r = true) l)
    + length (filter (λ r, negb (TaskResult.success r) = true) l) = length l).
  { induction l as [|x l IH]; [done |].
    destruct (TaskResult.success x) eqn:Hx.
    - rewrite filter_cons_True, filter_cons_False by (by rewrite ?Hx). simpl. lia.
    - rewrite filter_cons_False, filter_cons_True by (by rewrite ?Hx). simpl. lia. }
  assert (Hneg : ∀ l : list TaskResult.t,
    filter (λ r, negb (TaskResult.success r) = true) l
    = filter (λ r, TaskResult.success r = false) l).
  { intros l. apply list_filter_iff. intros x. by destruct (TaskResult.success x). }
  assert (Hstep : Queue.heap (Queue.exec path_join
                    (inputs ++ [Queue.ProcessSettled 0 (Fulfilled rs) now]))
                  !! Queue.job e
                  = Some (Job.complete now rs (Queue.heap s !!! Queue.job e))).
  { rewrite QueueFacts.exec_snoc. fold s. simpl. unfold Queue.onProcessSettled.
    rewrite Hfr. simpl. rewrite QueueFacts.sendWebhookNotification_eq.
    destruct s; simpl in *. rewrite list_lookup_alter_eq.
    by rewrite (list_lookup_lookup_total_lt _ _ He). }
  eexists. split; [reflexivity |]. split_and!; try done.
  - simpl. by rewrite Hneg.
  - simpl. apply Hcount.
  - intros Hlen. simpl in *. rewrite Hcount. done.
  - intros recordings k schedule Hrs Htot. simpl in *. rewrite Hcount.
    apply LimiterFacts.processRecordingsInJob_length in Hrs. lia.
  - intros more. rewrite (assoc_L (++)).
    by apply QueueFacts.frozen_exec.
Qed.

Lemma completed_job_counts_witness :
  ∃ j' : Job.t,
    Queue.heap (Queue.exec Scenarios.join Scenarios.aSettled) !! 0 = Some j'
    ∧ Job.status j' = completed
    ∧ Job.recordingsCompleted j' = 3
    ∧ Job.recordingsFailed j' = 2
    ∧ Job.recordingsCompleted j' + Job.recordingsFailed j' = Job.recordingsTotal j'
    ∧ Queue.heap (Queue.exec Scenarios.join Scenarios.allDone) !! 0 = Some j'.
Proof.
  destruct (completed_job_counts Scenarios.join Scenarios.submitABC
              {| Queue.job := 0; Queue.processFunction := 0; Queue.promise := 0 |}
              Scenarios.fiveResults (Scenarios.t0 + 5000) eq_refl)
    as (j' & Hj & Hheap & Hst & _ & _ & Hc & Hf & _ & _ & Htot & _ & Hmore).
  exists j'. split_and!.
  - exact Hheap.
  - exact Hst.
  - rewrite Hc. reflexivity.
  - rewrite Hf. reflexivity.
  - apply Htot. rewrite Hj. reflexivity.
  - exact (Hmore
      [ Queue.WebhookSettled 0 (Queue.FetchNotOk 500) (Scenarios.t0 + 5200);
        Queue.ProcessSettled 0 (RejectedWith {| message := "browser crashed" |})
          (Scenarios.t0 + 9000);
        Queue.WebhookSettled 0 (Queue.FetchError {| message := "ECONNREFUSED" |})
          (Scenarios.t0 + 9100);
        Queue.ProcessSettled 0
          (Fulfilled [Scenarios.result "c1" true; Scenarios.result "c2" true;
                      Scenarios.result "c3" true; Scenarios.result "c4" true])
          (Scenarios.t0 + 12000);
        Queue.WebhookSettled 0 Queue.FetchOk (Scenarios.t0 + 12001) ]).
Defined.







(** C8: while the id counter is exact (below 2^53), in every state reached,
    [doneCount] being the number of job objects that are terminal: a job
    that is ['queued'] or ['processing'] is in the store; no terminal job
    has left the store unless more than fifty are terminal; while no run
    awaits a webhook (the manager idle, or a callback running) the store
    holds fifty terminal jobs, or all of them if fewer; while a run awaits
    the webhook of the job just finished, the trimmer not yet having run for
    it, the store holds that job and fifty of the terminal jobs before it,
    or all of them if fewer; so the store never holds more than fifty-one
    terminal jobs; and each terminal job of the store but the one whose
    webhook is awaited completed no earlier than any terminal job deleted
    from it. In particular, whenever the manager is idle, nothing is queued
    and the store holds the fifty terminal jobs completed last, or all of
    them. *)
Theorem store_keeps_fifty_latest_terminal_jobs
    (path_join : string → string → string) (inputs : list Queue.Input) :
  (Queue.jobIdCounter (Queue.exec path_join inputs) < 2 ^ 53)%N →
  (∀ r,
     r < length (Queue.heap (Queue.exec path_join inputs)) →
     Job.isTerminal (Queue.heap (Queue.exec path_join inputs) !!! r) = false →
     r ∈ (Queue.allJobs (Queue.exec path_join inputs)).*2)
  ∧ Queue.doneCount (Queue.exec path_join inputs)
    = length (filter (λ j, Job.isTerminal j = true)
                (Queue.heap (Queue.exec path_join inputs)))
  ∧ (∀ r,
       r < length (Queue.heap (Queue.exec path_join inputs)) →
       Job.isTerminal (Queue.heap (Queue.exec path_join inputs) !!! r) = true →
       r ∉ (Queue.allJobs (Queue.exec path_join inputs)).*2 →
       50 < Queue.doneCount (Queue.exec path_join inputs))
  ∧ (Queue.awaitingWebhook (Queue.exec path_join inputs) = [] →
     length (Queue.terminalEntries (Queue.exec path_join inputs)) = 50 `min` Queue.doneCount (Queue.exec path_join inputs))
  ∧ (Queue.awaitingWebhook (Queue.exec path_join inputs) ≠ [] →
     1 ≤ Queue.doneCount (Queue.exec path_join inputs)
     ∧ length (Queue.terminalEntries (Queue.exec path_join inputs))
       = S (50 `min` pred (Queue.doneCount (Queue.exec path_join inputs))))
  ∧ length (Queue.terminalEntries (Queue.exec path_join inputs)) ≤ 51
  ∧ (∀ r e,
       r < length (Queue.heap (Queue.exec path_join inputs)) →
       Job.isTerminal (Queue.heap (Queue.exec path_join inputs) !!! r) = true →
       r ∉ (Queue.allJobs (Queue.exec path_join inputs)).*2 →
       e ∈ Queue.terminalEntries (Queue.exec path_join inputs) →
       e.2 ∉ Queue.awaitingWebhook (Queue.exec path_join inputs) →
       (Job.completedTime (Queue.heap (Queue.exec path_join inputs) !!! r)
        ≤ Job.completedTime (Queue.heap (Queue.exec path_join inputs) !!! e.2))%Z)
  ∧ (Queue.isProcessing (Queue.exec path_join inputs) = false →
     Queue.jobQueue (Queue.exec path_join inputs) = []
     ∧ length (Queue.terminalEntries (Queue.exec path_join inputs))
       = 50 `min` Queue.doneCount (Queue.exec path_join inputs)
     ∧ (50 < Queue.doneCount (Queue.exec path_join inputs) →
        length (Queue.terminalEntries (Queue.exec path_join inputs)) = 50)
     ∧ (∀ r e,
          r < length (Queue.heap (Queue.exec path_join inputs)) →
          Job.isTerminal (Queue.heap (Queue.exec path_join inputs) !!! r) = true →
          r ∉ (Queue.allJobs (Queue.exec path_join inputs)).*2 →
          e ∈ Queue.terminalEntries (Queue.exec path_join inputs) →
          (Job.completedTime (Queue.heap (Queue.exec path_join inputs) !!! r)
           ≤ Job.completedTime (Queue.heap (Queue.exec path_join inputs) !!! e.2))%Z)).
Proof.
  intros Hctr.
  pose proof (QueueFacts.GuardInv_exec path_join inputs) as [HP Hidle].
  destruct (QueueFacts.RetentionInv_exec path_join inputs Hctr)
    as (Hlive & Hcount & Hgone & Hrecent).
  set (s := Queue.exec path_join inputs) in *.
  split_and!; try done.
  - intros Haw. by rewrite decide_True in Hcount.
  - intros Haw. by rewrite decide_False in Hcount.
  - destruct (decide (Queue.awaitingWebhook s = [])); lia.
  - intros Hip.
    assert (Hfr : Queue.frames s = []).
    { pose proof (Queue.guard_frames _ HP) as Hlen. rewrite Hip in Hlen.
      by destruct (Queue.frames s). }
    assert (Haw : Queue.awaitingWebhook s = []).
    { unfold Queue.awaitingWebhook. by rewrite Hfr. }
    destruct (decide (Queue.awaitingWebhook s = [])) as [_|Hne]; [|done].
    split_and!.
    + by apply Hidle.
    + exact Hcount.
    + intros Hmany. rewrite Hcount. lia.
    + intros r e Hr Hterm Hout He. apply Hrecent; try done.
      rewrite Haw. apply not_elem_of_nil.
Qed.

Lemma store_keeps_fifty_latest_terminal_jobs_witness :
  Queue.doneCount (Queue.exec Scenarios.join (Scenarios.oneAfterAnother 52)) = 52
  ∧ length (Queue.terminalEntries (Queue.exec Scenarios.join (Scenarios.oneAfterAnother 52))) = 50
  ∧ (Job.completedTime (Queue.heap (Queue.exec Scenarios.join (Scenarios.oneAfterAnother 52)) !!! 1%nat)
     ≤ Job.completedTime (Queue.heap (Queue.exec Scenarios.join (Scenarios.oneAfterAnother 52)) !!! 2%nat))%Z
  ∧ length
      (Queue.terminalEntries
         (Queue.exec Scenarios.join
            (Scenarios.oneAfterAnother 51
             ++ [Queue.CallQueueJob (Scenarios.options 0 None) 51
                   (Scenarios.t0 + 51000) (Scenarios.t0 + 51000)
                   (Scenarios.t0 + 51000);
                 Queue.ProcessSettled 0 (Fulfilled []) (Scenarios.t0 + 51500)])))
    = 51.
Proof.
  destruct (store_keeps_fifty_latest_terminal_jobs Scenarios.join
              (Scenarios.oneAfterAnother 52))
    as (_ & Hdone & _ & _ & _ & _ & _ & Hidle).
  { vm_compute. reflexivity. }
  destruct Hidle as (_ & _ & Hfifty & Hrecent).
  { vm_compute. reflexivity. }
  destruct (store_keeps_fifty_latest_terminal_jobs Scenarios.join
              (Scenarios.oneAfterAnother 51
               ++ [Queue.CallQueueJob (Scenarios.options 0 None) 51
                     (Scenarios.t0 + 51000) (Scenarios.t0 + 51000)
                     (Scenarios.t0 + 51000);
                   Queue.ProcessSettled 0 (Fulfilled []) (Scenarios.t0 + 51500)]))
    as (_ & Hdone' & _ & _ & Hbusy & _).
  { vm_compute. reflexivity. }
  destruct Hbusy as [_ Hlen].
  { vm_compute. discriminate. }
  split_and!.
  - rewrite Hdone. vm_compute. reflexivity.
  - apply Hfifty. rewrite Hdone. vm_compute. lia.
  - apply (Hrecent 1 ("job_20250123143024_003", 2)).
    + vm_compute. lia.
    + vm_compute. reflexivity.
    + vm_compute. intros Hin. apply list_elem_of_In in Hin. simpl in Hin.
      repeat (destruct Hin as [Hin|Hin]; [discriminate Hin|]). exact Hin.
    + apply list_elem_of_In. vm_compute. left. reflexivity.
  - rewrite Hlen, Hdone'. vm_compute. reflexivity.
Defined.

(** C10: in every state reached, every job object whose status is
    ['completed'] or ['failed'] has both [startedAt] and [completedAt] set;
    so each entry [cleanupOldJobs] ranks has a [completedAt], and the time
    the comparator reads from it is that timestamp. *)
Theorem terminal_jobs_have_timestamps
    (path_join : string → string → string) (inputs : list Queue.Input) :
  (∀ r j,
     Queue.heap (Queue.exec path_join inputs) !! r = Some j →
     Job.isTerminal j = true →
     is_Some (Job.startedAt j) ∧ is_Some (Job.completedAt j))
  ∧ (∀ e,
       e ∈ Queue.terminalEntries (Queue.exec path_join inputs) →
       ∃ t,
         Job.completedAt (Queue.heap (Queue.exec path_join inputs) !!! e.2)
         = Some t
         ∧ Job.completedTime (Queue.heap (Queue.exec path_join inputs) !!! e.2)
           = t).
Proof.
  pose proof (QueueFacts.TimesInv_exec path_join inputs) as HT.
  unfold Queue.TimesInv in HT. rewrite Forall_lookup in HT.
  assert (Hheap : ∀ r j,
            Queue.heap (Queue.exec path_join inputs) !! r = Some j →
            Job.isTerminal j = true →
            is_Some (Job.startedAt j) ∧ is_Some (Job.completedAt j)).
  { intros r j Hr Ht. destruct (HT r j Hr) as [H1 H2]. split; [|by apply H2].
    apply H1. unfold Job.isTerminal in Ht. by destruct (Job.status j). }
  split; [exact Hheap|].
  intros e He. unfold Queue.terminalEntries in He.
  apply list_elem_of_filter in He as [Hterm _].
  pose proof (QueueFacts.terminal_lt _ _ Hterm) as Hlt.
  apply list_lookup_lookup_total_lt in Hlt.
  destruct (Hheap _ _ Hlt Hterm) as [_ [t Ht]].
  exists t. split; [exact Ht|]. unfold Job.completedTime. by rewrite Ht.
Qed.

Lemma terminal_jobs_have_timestamps_witness :
  is_Some
    (Job.startedAt
       (Queue.heap (Queue.exec Scenarios.join Scenarios.allDone) !!! 1))
  ∧ ∃ t,
      Job.completedAt
        (Queue.heap (Queue.exec Scenarios.join Scenarios.allDone) !!! 1) = Some t
      ∧ Job.completedTime
          (Queue.heap (Queue.exec Scenarios.join Scenarios.allDone) !!! 1) = t.
Proof.
  destruct (terminal_jobs_have_timestamps Scenarios.join Scenarios.allDone)
    as [Hheap Hstore].
  split.
  - destruct (Hheap 1
                (Queue.heap (Queue.exec Scenarios.join Scenarios.allDone) !!! 1))
      as [Hstarted _].
    + apply list_lookup_lookup_total_lt. vm_compute. lia.
    + vm_compute. reflexivity.
    + exact Hstarted.
  - apply (Hstore ("job_20250123143022_002", 1)).
    apply list_elem_of_In. vm_compute. right. left. reflexivity.
Defined.

(** * Part III: the rest of the manager and the helpers of its callers *)

(** ** The read side of the manager *)

Module QueueViewFacts.
Import Queue QueueView.

#[local] Arguments JobId.generateJobId : simpl never.
#[local] Arguments N.pow : simpl never.

Lemma statusLe_refl a : statusLe a a = true.
Proof. by destruct a. Qed.

Lemma statusLe_trans a b c :
  statusLe a b = true → statusLe b c = true → statusLe a c = true.
Proof. by destruct a, b, c. Qed.

Lemma sameJobLater_refl j : sameJobLater j j.
Proof. unfold sameJobLater. by rewrite statusLe_refl. Qed.

Lemma sameJobLater_trans j1 j2 j3 :
  sameJobLater j1 j2 → sameJobLater j2 j3 → sameJobLater j1 j3.
Proof.
  unfold sameJobLater.
  intros (-> & -> & -> & -> & -> & -> & -> & H1) (-> & -> & -> & -> & -> & -> & -> & H2).
  split_and!; try done. by eapply statusLe_trans.
Qed.

Lemma heapLater_refl h : heapLater h h.
Proof. split; [done |]. intros. apply sameJobLater_refl. Qed.

Lemma heapLater_trans h1 h2 h3 :
  heapLater h1 h2 → heapLater h2 h3 → heapLater h1 h3.
Proof.
  intros [Hl1 H1] [Hl2 H2]. split; [lia |]. intros r Hr.
  eapply sameJobLater_trans; [by apply H1 | apply H2; lia].
Qed.

Lemma heapLater_snoc h j : heapLater h (h ++ [j]).
Proof.
  split; [rewrite length_app; lia |]. intros r Hr.
  rewrite lookup_total_app_l by done. apply sameJobLater_refl.
Qed.

Lemma heapLater_alter (f : Job.t → Job.t) h r :
  (r < length h → sameJobLater (h !!! r) (f (h !!! r))) →
  heapLater h (alter f r h).
Proof.
  intros Hf. split; [by rewrite length_alter |]. intros r' Hr'.
  destruct (decide (r' = r)) as [-> | Hne].
  - rewrite list_lookup_total_alter_eq by done. by apply Hf.
  - rewrite list_lookup_total_alter_ne by done. apply sameJobLater_refl.
Qed.

Lemma sameJobLater_start now j :
  Job.status j = queued → sameJobLater j (Job.start now j).
Proof. intros H. unfold sameJobLater. simpl. by rewrite H. Qed.

Lemma sameJobLater_complete now rs j :
  Job.status j = processing → sameJobLater j (Job.complete now rs j).
Proof. intros H. unfold sameJobLater. simpl. by rewrite H. Qed.

Lemma sameJobLater_fail now e j :
  Job.status j = processing → sameJobLater j (Job.fail now e j).
Proof. intros H. unfold sameJobLater. simpl. by rewrite H. Qed.

Lemma sameJobLater_failUnrecorded now j :
  Job.status j = processing → sameJobLater j (Job.failUnrecorded now j).
Proof. intros H. unfold sameJobLater. simpl. by rewrite H. Qed.

Lemma heap_processNextJob now s :
  heap (processNextJob now s)
  = if isProcessing s then heap s
    else match jobQueue s with
         | [] => heap s
         | e :: _ => alter (Job.start now) (job e) (heap s)
         end.
Proof.
  unfold processNextJob. destruct (isProcessing s); simpl; [done |].
  by destruct (jobQueue s).
Qed.

Lemma heapLater_processNextJob now s :
  GuardPre s → heapLater (heap s) (heap (processNextJob now s)).
Proof.
  intros HP. rewrite heap_processNextJob.
  destruct (isProcessing s); [apply heapLater_refl |].
  destruct (jobQueue s) as [|e q] eqn:Hq; [apply heapLater_refl |].
  apply heapLater_alter. intros _. apply sameJobLater_start.
  apply (queue_queued _ HP). rewrite Hq. by left.
Qed.

Section WithPath.
Variable path_join : string → string → string.

Lemma heap_createJob options tId tCreated s :
  heap (createJob path_join options tId tCreated s).2
  = heap s
    ++ [newJob path_join options
          (JobId.generateJobId (jobIdCounter s) tId).1 tCreated].
Proof. done. Qed.

Lemma allJobs_processNextJob now s : allJobs (processNextJob now s) = allJobs s.
Proof.
  unfold processNextJob. destruct (isProcessing s); simpl; [done |].
  by destruct (jobQueue s).
Qed.

Lemma allJobs_cleanupOldJobs s e :
  e ∈ allJobs (cleanupOldJobs s) → e ∈ allJobs s.
Proof.
  unfold cleanupOldJobs. case_decide; [| done]. simpl.
  rewrite JsMapFacts.foldl_delete. by intros [_ Hin]%list_elem_of_filter.
Qed.

(** What each input amounts to, for a state that satisfies the guard
    invariant. *)
Lemma onWebhookSettled_cases i fr now s :
  GuardInv s →
  onWebhookSettled i fr now s = s
  ∨ ∃ f s0,
      i = 0 ∧ frames s = [f] ∧ frameStatus f ≠ processing
      ∧ GuardPre s0 ∧ heap s0 = heap s ∧ jobQueue s0 = jobQueue s
      ∧ stats s0 = stats s ∧ jobIdCounter s0 = jobIdCounter s
      ∧ isProcessing s0 = false ∧ frames s0 = [] ∧ currentJob s0 = None
      ∧ (∀ e, e ∈ allJobs s0 → e ∈ allJobs s)
      ∧ onWebhookSettled i fr now s = processNextJob now s0.
Proof.
  intros [HP Hidle]. unfold onWebhookSettled.
  destruct (frames s !! i) as [[e | e rs | e err] |] eqn:Hi; try (by left);
    destruct (QueueFacts.frames1 _ _ _ (QueueFacts.guard_frames_le _ HP) Hi)
      as [-> Hfr];
    right; unfold finally.
  - exists (AwaitWebhookTry e rs). eexists. split_and!.
    13: reflexivity.
    1-3: done.
    { eapply (QueueFacts.GuardPre_finally s); [done | exact Hfr | done | ..];
        rewrite QueueFacts.cleanupOldJobs_eq; unfold settlePromise;
        rewrite QueueFacts.webhookSettled_eq; destruct s; QueueFacts.qsimpl;
        by subst. }
    8: intros e0 He0%allJobs_cleanupOldJobs; revert He0.
    1-7: rewrite QueueFacts.cleanupOldJobs_eq.
    all: unfold settlePromise; rewrite QueueFacts.webhookSettled_eq;
      destruct s; QueueFacts.qsimpl; by subst.
  - exists (AwaitWebhookCatch e err). eexists. split_and!.
    13: reflexivity.
    1-3: done.
    { eapply (QueueFacts.GuardPre_finally s); [done | exact Hfr | done | ..];
        rewrite QueueFacts.cleanupOldJobs_eq; unfold settlePromise;
        rewrite QueueFacts.webhookSettled_eq; destruct s; QueueFacts.qsimpl;
        by subst. }
    8: intros e0 He0%allJobs_cleanupOldJobs; revert He0.
    1-7: rewrite QueueFacts.cleanupOldJobs_eq.
    all: unfold settlePromise; rewrite QueueFacts.webhookSettled_eq;
      destruct s; QueueFacts.qsimpl; by subst.
Qed.

Lemma onProcessSettled_cases i o now s :
  GuardInv s →
  onProcessSettled i o now s = s
  ∨ ∃ e,
      i = 0 ∧ frames s = [AwaitProcess e] ∧ job e < length (heap s)
      ∧ Job.status (heap s !!! job e) = processing
      ∧ jobQueue (onProcessSettled i o now s) = jobQueue s
      ∧ isProcessing (onProcessSettled i o now s) = isProcessing s
      ∧ currentJob (onProcessSettled i o now s) = currentJob s
      ∧ allJobs (onProcessSettled i o now s) = allJobs s
      ∧ promises (onProcessSettled i o now s) = promises s
      ∧ match o with
        | Fulfilled rs =>
            heap (onProcessSettled i o now s)
            = alter (Job.complete now rs) (job e) (heap s)
            ∧ frames (onProcessSettled i o now s) = [AwaitWebhookTry e rs]
            ∧ stats (onProcessSettled i o now s)
              = {| jobsCompleted := S (jobsCompleted (stats s));
                   jobsFailed := jobsFailed (stats s);
                   recordingsProcessed :=
                     recordingsProcessed (stats s) + length rs |}
        | RejectedWith err =>
            heap (onProcessSettled i o now s)
            = alter (Job.fail now err) (job e) (heap s)
            ∧ frames (onProcessSettled i o now s) = [AwaitWebhookCatch e err]
            ∧ stats (onProcessSettled i o now s)
              = {| jobsCompleted := jobsCompleted (stats s);
                   jobsFailed := S (jobsFailed (stats s));
                   recordingsProcessed := recordingsProcessed (stats s) |}
        end.
Proof.
  intros [HP Hidle]. unfold onProcessSettled.
  destruct (frames s !! i) as [[e | e rs | e err] |] eqn:Hi; try (by left).
  destruct (QueueFacts.frames1 _ _ _ (QueueFacts.guard_frames_le _ HP) Hi)
    as [-> Hfr].
  pose proof (frame_status _ HP (AwaitProcess e)) as Hst.
  rewrite Hfr in Hst. specialize (Hst ltac:(by left)).
  pose proof (refs_frames _ HP (AwaitProcess e)) as He.
  rewrite Hfr in He. specialize (He ltac:(by left)).
  right. exists e.
  destruct o as [rs | err]; rewrite QueueFacts.sendWebhookNotification_eq;
    simpl; rewrite Hfr; done.
Qed.

Lemma onProcessRejectedNullish_cases i tC tS s :
  GuardInv s →
  onProcessRejectedNullish i tC tS s = s
  ∨ ∃ e s0,
      i = 0 ∧ frames s = [AwaitProcess e] ∧ job e < length (heap s)
      ∧ Job.status (heap s !!! job e) = processing
      ∧ GuardPre s0
      ∧ heap s0 = alter (Job.failUnrecorded tC) (job e) (heap s)
      ∧ jobQueue s0 = jobQueue s
      ∧ stats s0 = stats s ∧ jobIdCounter s0 = jobIdCounter s
      ∧ promises s0 = promises s
      ∧ trace s0 = trace s ++ [CatchThrew (job e)]
      ∧ isProcessing s0 = false ∧ frames s0 = [] ∧ currentJob s0 = None
      ∧ (∀ e, e ∈ allJobs s0 → e ∈ allJobs s)
      ∧ onProcessRejectedNullish i tC tS s = processNextJob tS s0.
Proof.
  intros [HP Hidle]. unfold onProcessRejectedNullish.
  destruct (frames s !! i) as [[e | e rs | e err] |] eqn:Hi; try (by left).
  destruct (QueueFacts.frames1 _ _ _ (QueueFacts.guard_frames_le _ HP) Hi)
    as [-> Hfr].
  pose proof (frame_status _ HP (AwaitProcess e)) as Hst.
  rewrite Hfr in Hst. specialize (Hst ltac:(by left)).
  pose proof (refs_frames _ HP (AwaitProcess e)) as He.
  rewrite Hfr in He. specialize (He ltac:(by left)).
  right. unfold finally. exists e. eexists. split_and!.
  16: reflexivity.
  1-4: done.
  { eapply (QueueFacts.GuardPre_thrown s _ e tC); [done | exact Hfr | ..];
      rewrite QueueFacts.cleanupOldJobs_eq; destruct s; QueueFacts.qsimpl;
      by subst. }
  10: intros e0 He0%allJobs_cleanupOldJobs; revert He0.
  1-9: rewrite QueueFacts.cleanupOldJobs_eq.
  all: destruct s; QueueFacts.qsimpl; by subst.
Qed.

Lemma queueJob_cases options pf tId tCreated tStarted s :
  GuardPre s →
  ∃ s0,
    GuardPre s0
    ∧ heap s0
      = heap s ++ [newJob path_join options
                     (JobId.generateJobId (jobIdCounter s) tId).1 tCreated]
    ∧ jobQueue s0
      = jobQueue s ++ [{| job := length (heap s); processFunction := pf;
                          promise := length (promises s) |}]
    ∧ promises s0 = promises s ++ [Pending]
    ∧ allJobs s0
      = JsMap.set (JobId.generateJobId (jobIdCounter s) tId).1
          (length (heap s)) (allJobs s)
    ∧ stats s0 = stats s ∧ isProcessing s0 = isProcessing s
    ∧ frames s0 = frames s ∧ currentJob s0 = currentJob s
    ∧ queueJob path_join options pf tId tCreated tStarted s
      = processNextJob tStarted s0.
Proof.
  intros HP. unfold queueJob. eexists.
  split; [by apply (QueueFacts.GuardPre_enqueue path_join options pf tId tCreated) |].
  split_and!; try reflexivity.
Qed.

Lemma heapLater_step s inp :
  GuardInv s → heapLater (heap s) (heap (step path_join s inp)).
Proof.
  intros HG. pose proof HG as [HP Hidle].
  destruct inp as [options tId tCreated
    | options pf tId tCreated tStarted | i o now | i tC tS | i fr now]; cbn [step].
  - rewrite heap_createJob. apply heapLater_snoc.
  - unfold queueJob.
    eapply heapLater_trans;
      [| apply heapLater_processNextJob; by apply QueueFacts.GuardPre_enqueue].
    simpl. apply heapLater_snoc.
  - unfold onProcessSettled.
    destruct (frames s !! i) as [[e | e rs | e err] |] eqn:Hi;
      try apply heapLater_refl.
    destruct (QueueFacts.frames1 _ _ _ (QueueFacts.guard_frames_le _ HP) Hi)
      as [-> Hfr].
    pose proof (frame_status _ HP (AwaitProcess e)) as Hst.
    rewrite Hfr in Hst. specialize (Hst ltac:(by left)).
    unfold statusOf in Hst. simpl in Hst.
    destruct o as [rs | err]; rewrite QueueFacts.sendWebhookNotification_eq;
      simpl; apply heapLater_alter; intros _.
    + by apply sameJobLater_complete.
    + by apply sameJobLater_fail.
  - destruct (onProcessRejectedNullish_cases i tC tS s HG)
      as [-> | (e & s0 & _ & _ & _ & Hpr & HP0 & Hh0 & _ & _ & _ & _ & _ & _
                & _ & _ & _ & ->)].
    + apply heapLater_refl.
    + eapply heapLater_trans; [| by apply heapLater_processNextJob].
      rewrite Hh0. apply heapLater_alter. intros _.
      by apply sameJobLater_failUnrecorded.
  - destruct (onWebhookSettled_cases i fr now s HG)
      as [-> | (f & s0 & _ & _ & _ & HP0 & Hh0 & _ & _ & _ & _ & _ & _ & _ & ->)].
    + apply heapLater_refl.
    + rewrite <- Hh0. by apply heapLater_processNextJob.
Qed.

Lemma heapLater_exec inputs more :
  heapLater (heap (exec path_join inputs)) (heap (exec path_join (inputs ++ more))).
Proof.
  induction more as [|inp more IH] using rev_ind.
  - rewrite app_nil_r. apply heapLater_refl.
  - rewrite (assoc_L (++)), QueueFacts.exec_snoc.
    eapply heapLater_trans; [exact IH |].
    apply heapLater_step, QueueFacts.GuardInv_exec.
Qed.

(** *** Keys and ids *)

Lemma StoreIds_later s s' :
  (∀ e, e ∈ allJobs s' → e ∈ allJobs s) →
  heapLater (heap s) (heap s') →
  StoreInv s → StoreIds s → StoreIds s'.
Proof.
  intros Hsub [_ Hl] HS HI e He. specialize (Hsub e He).
  destruct (Hl e.2 (store_bound _ HS e Hsub)) as [-> _]. by apply HI.
Qed.

Lemma StoreIds_createJob options tId tCreated s :
  StoreInv s → StoreIds s →
  StoreIds (createJob path_join options tId tCreated s).2.
Proof.
  intros HS HI e He. simpl in He.
  apply JsMapFacts.set_elem in He as [-> | He]; simpl.
  - by rewrite QueueFacts.lookup_total_snoc, decide_False, decide_True by lia.
  - rewrite lookup_total_app_l by (by apply (store_bound _ HS)). by apply HI.
Qed.

Lemma allJobs_onWebhookSettled i fr now s e :
  e ∈ allJobs (onWebhookSettled i fr now s) → e ∈ allJobs s.
Proof.
  unfold onWebhookSettled.
  destruct (frames s !! i) as [[e0 | e0 rs | e0 err] |]; try done;
    unfold finally; rewrite allJobs_processNextJob;
    intros Hin%allJobs_cleanupOldJobs; revert Hin; unfold settlePromise;
    rewrite QueueFacts.webhookSettled_eq; by destruct s.
Qed.

Lemma allJobs_onProcessSettled i o now s :
  allJobs (onProcessSettled i o now s) = allJobs s.
Proof.
  unfold onProcessSettled.
  destruct (frames s !! i) as [[e | e rs | e err] |]; try done.
  destruct o; rewrite QueueFacts.sendWebhookNotification_eq; by destruct s.
Qed.

Lemma allJobs_onProcessRejectedNullish i tC tS s e :
  e ∈ allJobs (onProcessRejectedNullish i tC tS s) → e ∈ allJobs s.
Proof.
  unfold onProcessRejectedNullish.
  destruct (frames s !! i) as [[e0 | e0 rs | e0 err] |]; try done;
    unfold finally; rewrite allJobs_processNextJob;
    intros Hin%allJobs_cleanupOldJobs; revert Hin; by destruct s.
Qed.

Lemma StoreIds_step s inp :
  GuardInv s → StoreInv s → StoreIds s → StoreIds (step path_join s inp).
Proof.
  intros HG HS HI. pose proof HG as [HP Hidle].
  destruct inp as [options tId tCreated
    | options pf tId tCreated tStarted | i o now | i tC tS | i fr now].
  - by apply StoreIds_createJob.
  - cbn [step]. unfold queueJob.
    set (s0 := with_promises _ s).
    assert (HS0 : StoreInv s0) by (by destruct HS; split).
    assert (HI0 : StoreIds s0) by done.
    pose proof (StoreIds_createJob options tId tCreated s0 HS0 HI0) as HI1.
    pose proof (QueueFacts.StoreInv_createJob path_join options tId tCreated
                  s0 HS0) as HS1.
    eapply StoreIds_later;
      [ intros e; rewrite allJobs_processNextJob; intros He; exact He
      | apply heapLater_processNextJob; by apply QueueFacts.GuardPre_enqueue
      | |].
    + by destruct HS1; split.
    + done.
  - eapply StoreIds_later; [| by apply heapLater_step | done | done].
    cbn [step]. by rewrite allJobs_onProcessSettled.
  - eapply StoreIds_later; [| by apply heapLater_step | done | done].
    cbn [step]. apply allJobs_onProcessRejectedNullish.
  - eapply StoreIds_later; [| by apply heapLater_step | done | done].
    cbn [step]. apply allJobs_onWebhookSettled.
Qed.

Lemma StoreIds_exec inputs : StoreIds (exec path_join inputs).
Proof.
  induction inputs as [|inp inputs IH] using rev_ind.
  - by intros e He%elem_of_nil.
  - rewrite QueueFacts.exec_snoc.
    apply StoreIds_step;
      [apply QueueFacts.GuardInv_exec | apply QueueFacts.StoreInv_exec | done].
Qed.

(** *** [Map.get] *)

Lemma get_Some_elem {V} k (v : V) m : JsMap.get k m = Some v → (k, v) ∈ m.
Proof.
  induction m as [|e m IH]; simpl; [done |].
  case_decide as Hd.
  - intros [= <-]. subst k. destruct e. by left.
  - intros H. right. by apply IH.
Qed.

Lemma get_None {V} k (m : list (string * V)) : JsMap.get k m = None ↔ k ∉ m.*1.
Proof.
  induction m as [|e m IH]; simpl.
  - split; [intros _; apply not_elem_of_nil | done].
  - case_decide as Hd.
    + split; [done |]. intros H. exfalso. apply H. subst k. by left.
    + rewrite IH, not_elem_of_cons.
      split; [intros Hk; split; [congruence | done] | by intros [_ Hk]].
Qed.

Lemma elem_get {V} k (v : V) m : NoDup m.*1 → (k, v) ∈ m → JsMap.get k m = Some v.
Proof.
  induction m as [|e m IH]; simpl; [by intros _ ?%elem_of_nil |].
  intros [He Hnd]%NoDup_cons [Heq | Hin]%elem_of_cons.
  - subst e. by rewrite decide_True.
  - case_decide as Hd; [| by apply IH].
    exfalso. apply He. rewrite Hd. apply list_elem_of_fmap. by exists (k, v).
Qed.

Lemma get_set_eq {V} k (v : V) m : JsMap.get k (JsMap.set k v m) = Some v.
Proof.
  induction m as [|e m IH]; simpl; [by rewrite decide_True |].
  case_decide as Hd; simpl; [by rewrite decide_True |].
  by rewrite decide_False.
Qed.

Lemma get_set_ne {V} k k' (v : V) m :
  k' ≠ k → JsMap.get k' (JsMap.set k v m) = JsMap.get k' m.
Proof.
  intros Hne. induction m as [|e m IH]; simpl; [by rewrite decide_False |].
  case_decide as Hd; simpl.
  - rewrite !decide_False; [done | congruence | done].
  - case_decide; [done | exact IH].
Qed.

(** *** A job nothing has in hand *)

Lemma untouched_processNextJob now s r j :
  heap s !! r = Some j → r ∉ job <$> jobQueue s →
  heap (processNextJob now s) !! r = Some j
  ∧ r ∉ job <$> jobQueue (processNextJob now s).
Proof.
  intros Hr Hq. unfold processNextJob.
  destruct (isProcessing s); simpl; [done |].
  destruct (jobQueue s) as [|e q] eqn:Heq; simpl; [by rewrite Heq |].
  simpl in Hq. apply not_elem_of_cons in Hq as [Hne Hq].
  split; [| done]. by rewrite list_lookup_alter_ne.
Qed.

Lemma untouched_step s inp r j :
  GuardInv s → heap s !! r = Some j → Job.status j = queued →
  r ∉ job <$> jobQueue s →
  heap (step path_join s inp) !! r = Some j
  ∧ r ∉ job <$> jobQueue (step path_join s inp).
Proof.
  intros HG Hr Hst Hq. pose proof HG as [HP Hidle].
  pose proof (lookup_lt_Some _ _ _ Hr) as Hlt.
  destruct inp as [options tId tCreated
    | options pf tId tCreated tStarted | i o now | i tC tS | i fr now]; cbn [step].
  - rewrite heap_createJob. split; [by rewrite lookup_app_l | done].
  - destruct (queueJob_cases options pf tId tCreated tStarted s HP)
      as (s0 & HP0 & Hh0 & Hq0 & _ & _ & _ & _ & _ & _ & ->).
    apply untouched_processNextJob.
    + rewrite Hh0. by rewrite lookup_app_l.
    + rewrite Hq0, fmap_app. simpl. rewrite not_elem_of_app. split; [done |].
      rewrite not_elem_of_cons. split; [lia | apply not_elem_of_nil].
  - destruct (onProcessSettled_cases i o now s HG)
      as [-> | (e & _ & _ & He & Hpr & Hq' & _ & _ & _ & _ & Ho)]; [done |].
    rewrite Hq'. split; [| done].
    assert (job e ≠ r).
    { intros <-. apply list_lookup_total_correct in Hr. congruence. }
    destruct o as [rs | err]; destruct Ho as (-> & _);
      by rewrite list_lookup_alter_ne.
  - destruct (onProcessRejectedNullish_cases i tC tS s HG)
      as [-> | (e & s0 & _ & _ & He & Hpr & HP0 & Hh0 & Hq0 & _ & _ & _ & _ & _
                & _ & _ & _ & ->)]; [done |].
    assert (job e ≠ r).
    { intros <-. apply list_lookup_total_correct in Hr. congruence. }
    apply untouched_processNextJob; rewrite ?Hh0, ?Hq0; [| done].
    by rewrite list_lookup_alter_ne.
  - destruct (onWebhookSettled_cases i fr now s HG)
      as [-> | (f & s0 & _ & _ & _ & HP0 & Hh0 & Hq0 & _ & _ & _ & _ & _ & _ & ->)];
      [done |].
    apply untouched_processNextJob; by rewrite ?Hh0, ?Hq0.
Qed.

(** *** The counters of [stats] *)








(** *** Submitting and draining *)

Lemma queueJob_busy options pf tId tCreated tStarted s :
  GuardPre s → isProcessing s = true →
  heap (queueJob path_join options pf tId tCreated tStarted s)
  = heap s ++ [newJob path_join options
                 (JobId.generateJobId (jobIdCounter s) tId).1 tCreated]
  ∧ jobQueue (queueJob path_join options pf tId tCreated tStarted s)
    = jobQueue s ++ [{| job := length (heap s); processFunction := pf;
                        promise := length (promises s) |}]
  ∧ frames (queueJob path_join options pf tId tCreated tStarted s) = frames s
  ∧ promises (queueJob path_join options pf tId tCreated tStarted s)
    = promises s ++ [Pending].
Proof.
  intros HP Hip.
  destruct (queueJob_cases options pf tId tCreated tStarted s HP)
    as (s0 & HP0 & Hh0 & Hq0 & Hp0 & _ & _ & Hip0 & Hfr0 & _ & ->).
  rewrite QueueFacts.processNextJob_skip by (left; congruence). done.
Qed.

Lemma queueJob_idle options pf tId tCreated tStarted s :
  GuardInv s → isProcessing s = false →
  heap (queueJob path_join options pf tId tCreated tStarted s)
  = heap s ++ [Job.start tStarted
                 (newJob path_join options
                    (JobId.generateJobId (jobIdCounter s) tId).1 tCreated)]
  ∧ jobQueue (queueJob path_join options pf tId tCreated tStarted s) = []
  ∧ frames (queueJob path_join options pf tId tCreated tStarted s)
    = [AwaitProcess {| job := length (heap s); processFunction := pf;
                       promise := length (promises s) |}]
  ∧ isProcessing (queueJob path_join options pf tId tCreated tStarted s) = true
  ∧ promises (queueJob path_join options pf tId tCreated tStarted s)
    = promises s ++ [Pending].
Proof.
  intros [HP Hidle] Hip.
  destruct (queueJob_cases options pf tId tCreated tStarted s HP)
    as (s0 & HP0 & Hh0 & Hq0 & Hp0 & _ & _ & Hip0 & Hfr0 & _ & ->).
  rewrite (Hidle Hip) in Hq0. simpl in Hq0.
  pose proof (guard_frames _ HP) as Hlen. rewrite Hip in Hlen.
  apply nil_length_inv in Hlen. rewrite Hlen in Hfr0.
  unfold processNextJob. rewrite Hip0, Hip, Hq0. simpl.
  rewrite Hh0, Hfr0, Hp0. split_and!; try done.
  rewrite alter_app_r_alt by lia. by rewrite Nat.sub_diag.
Qed.

Lemma onProcessSettled_suspends s e o now :
  GuardInv s → frames s = [AwaitProcess e] →
  jobQueue (onProcessSettled 0 o now s) = jobQueue s
  ∧ Job.status (heap (onProcessSettled 0 o now s) !!! job e) = statusAfter o
  ∧ ∃ f, frames (onProcessSettled 0 o now s) = [f] ∧ entryOf f = e
         ∧ frameStatus f ≠ processing.
Proof.
  intros HG Hfr.
  destruct (onProcessSettled_cases 0 o now s HG)
    as [Heq | (e' & _ & Hfr' & He & _ & Hq & _ & _ & _ & _ & Ho)].
  { exfalso. revert Heq. unfold onProcessSettled. rewrite Hfr. simpl.
    destruct o; rewrite QueueFacts.sendWebhookNotification_eq;
      intros Heq; apply (f_equal frames) in Heq; simpl in Heq;
      rewrite Hfr in Heq; discriminate Heq. }
  rewrite Hfr in Hfr'. injection Hfr' as <-.
  split; [done |].
  destruct o as [rs | err]; destruct Ho as (-> & -> & _);
    rewrite list_lookup_total_alter_eq by done; split; try done;
    eexists; split_and!; try reflexivity; done.
Qed.

Lemma run_one_job options pf tId tCreated tStarted rs tCompleted fr tNext s :
  GuardInv s → PromiseInv s → isProcessing s = false →
  promises
    (onWebhookSettled 0 fr tNext
       (onProcessSettled 0 (Fulfilled rs) tCompleted
          (queueJob path_join options pf tId tCreated tStarted s)))
  !! length (promises s)
  = Some (Resolved
            {| outSuccess := true;
               outJobId := (JobId.generateJobId (jobIdCounter s) tId).1;
               outFolder :=
                 path_join (orString (outputDir options) "./recordings")
                   (JobId.generateJobId (jobIdCounter s) tId).1;
               outTotal := default 0 (recordingsCount options);
               outCompleted :=
                 length (filter (λ r, TaskResult.success r = true) rs);
               outFailed :=
                 length (filter (λ r, negb (TaskResult.success r) = true) rs);
               outResults := rs |})
  ∧ isProcessing
      (onWebhookSettled 0 fr tNext
         (onProcessSettled 0 (Fulfilled rs) tCompleted
            (queueJob path_join options pf tId tCreated tStarted s)))
    = false.
Proof.
  intros HG0 HP0 Hip.
  pose proof (QueueFacts.GuardInv_step path_join s
                (CallQueueJob options pf tId tCreated tStarted) HG0) as HG1.
  pose proof (QueueFacts.PromiseInv_step path_join s
                (CallQueueJob options pf tId tCreated tStarted) HG0 HP0) as HP1.
  cbn [step] in HG1, HP1.
  destruct (queueJob_idle options pf tId tCreated tStarted s HG0 Hip)
    as (Hh1 & Hq1 & Hfr1 & _ & _).
  revert HG1 HP1 Hh1 Hq1 Hfr1.
  generalize (queueJob path_join options pf tId tCreated tStarted s).
  intros s1 HG1 HP1 Hh1 Hq1 Hfr1.
  pose proof (QueueFacts.GuardInv_step path_join s1
                (ProcessSettled 0 (Fulfilled rs) tCompleted) HG1) as HG2.
  pose proof (QueueFacts.PromiseInv_step path_join s1
                (ProcessSettled 0 (Fulfilled rs) tCompleted) HG1 HP1) as HP2.
  cbn [step] in HG2, HP2.
  destruct (onProcessSettled_cases 0 (Fulfilled rs) tCompleted s1 HG1)
    as [Heq | (e' & _ & Hfr' & He & _ & Hq2 & _ & _ & _ & _ & Hh2 & Hfr2 & _)].
  { exfalso. revert Heq. unfold onProcessSettled. rewrite Hfr1. simpl.
    rewrite QueueFacts.sendWebhookNotification_eq.
    intros Heq. apply (f_equal frames) in Heq. simpl in Heq.
    rewrite Hfr1 in Heq. discriminate Heq. }
  rewrite Hfr1 in Hfr'. injection Hfr' as <-.
  revert HG2 HP2 Hq2 Hh2 Hfr2.
  generalize (onProcessSettled 0 (Fulfilled rs) tCompleted s1).
  intros s2 HG2 HP2 Hq2 Hh2 Hfr2. split.
  - pose proof (QueueFacts.onWebhookSettled_resolves s2 _ rs fr tNext HP2 Hfr2)
      as Hres.
    cbn [promise job] in Hres. rewrite Hres, Hh2, Hh1. cbn [job].
    rewrite alter_app_r_alt by lia. rewrite Nat.sub_diag.
    rewrite lookup_total_app_r by lia. rewrite Nat.sub_diag. reflexivity.
  - pose proof (QueueFacts.onWebhookSettled_advances s2 _ fr tNext HG2 Hfr2
                  ltac:(done)) as Hadv.
    rewrite Hq2, Hq1 in Hadv. tauto.
Qed.

Lemma GuardInv_foldl s more :
  GuardInv s → GuardInv (foldl (step path_join) s more).
Proof.
  revert s. induction more as [|inp more IH]; intros s HG; [done |].
  simpl. by apply IH, QueueFacts.GuardInv_step.
Qed.

Lemma frozen_foldl s more r j :
  GuardInv s → heap s !! r = Some j → Job.isTerminal j = true →
  heap (foldl (step path_join) s more) !! r = Some j.
Proof.
  revert s. induction more as [|inp more IH]; intros s HG Hr Ht; [done |].
  simpl. apply IH; [by apply QueueFacts.GuardInv_step | | done].
  by apply QueueFacts.frozen_step.
Qed.

Lemma isTerminal_statusAfter (j : Job.t) o :
  Job.status j = statusAfter o → Job.isTerminal j = true.
Proof. unfold Job.isTerminal. intros ->. by destruct o. Qed.

Lemma drains xs : ∀ s e,
  GuardInv s → frames s = [AwaitProcess e] →
  length xs = S (length (jobQueue s)) →
  isProcessing (foldl (step path_join) s (settlements xs)) = false
  ∧ jobQueue (foldl (step path_join) s (settlements xs)) = []
  ∧ ∀ k r,
      (job e :: (job <$> jobQueue s)) !! k = Some r →
      ∃ x, xs !! k = Some x
           ∧ statusOf (foldl (step path_join) s (settlements xs)) r
             = statusAfter x.1.1.1.
Proof.
  induction xs as [|x xs IH]; intros s e HG Hfr Hlen; [done |].
  destruct x as [[[o t1] fr] t2].
  change (settlements ((o, t1, fr, t2) :: xs))
    with (ProcessSettled 0 o t1 :: WebhookSettled 0 fr t2 :: settlements xs).
  cbn [foldl step].
  destruct (onProcessSettled_suspends s e o t1 HG Hfr)
    as (Hq1 & Hst1 & f & Hfr1 & Hf & Hfs).
  pose proof (QueueFacts.GuardInv_onProcessSettled 0 o t1 s HG) as HG1.
  pose proof (refs_frames _ (proj1 HG1) f) as He1.
  rewrite Hfr1, Hf in He1. specialize (He1 ltac:(by left)).
  pose proof (list_lookup_lookup_total_lt _ _ He1) as Hl1.
  pose proof (isTerminal_statusAfter _ _ Hst1) as Ht1.
  revert Hq1 Hst1 Hfr1 HG1 He1 Hl1 Ht1.
  generalize (onProcessSettled 0 o t1 s). intros s1 Hq1 Hst1 Hfr1 HG1 He1 Hl1 Ht1.
  assert (Hdone : ∀ more,
            statusOf (foldl (step path_join) s1 more) (job e) = statusAfter o).
  { intros more. unfold statusOf.
    by rewrite (list_lookup_total_correct _ _ _
                  (frozen_foldl s1 more _ _ HG1 Hl1 Ht1)). }
  pose proof (QueueFacts.onWebhookSettled_advances s1 f fr t2 HG1 Hfr1 Hfs)
    as Hadv.
  pose proof (QueueFacts.GuardInv_onWebhookSettled 0 fr t2 s1 HG1) as HG2.
  rewrite Hq1 in Hadv. simpl in Hlen.
  destruct (jobQueue s) as [|e' q] eqn:Hq.
  - destruct xs; [| done]. simpl. destruct Hadv as (Hip & _ & Hq2).
    split_and!; try done.
    intros [|k] r Hk; [| done]. injection Hk as <-.
    exists (o, t1, fr, t2). split; [done |].
    exact (Hdone [WebhookSettled 0 fr t2]).
  - destruct Hadv as (_ & Hq2 & Hfr2 & _).
    revert HG2 Hq2 Hfr2 Hdone. cbn [foldl step].
    intros HG2 Hq2 Hfr2 Hdone.
    destruct (IH (onWebhookSettled 0 fr t2 s1) e' HG2 Hfr2)
      as (Hip & Hqe & Hall).
    { rewrite Hq2. simpl in Hlen. lia. }
    split_and!; try done.
    intros [|k] r Hk.
    + injection Hk as <-. exists (o, t1, fr, t2). split; [done |].
      exact (Hdone (WebhookSettled 0 fr t2 :: settlements xs)).
    + simpl in Hk. rewrite Hq2 in Hall.
      destruct (Hall k r Hk) as (x & Hx & Hsx). by exists x.
Qed.

(** *** The POSTs *)

Lemma postsOf_app tr1 tr2 : postsOf (tr1 ++ tr2) = postsOf tr1 ++ postsOf tr2.
Proof. unfold postsOf. apply omap_app. Qed.

Lemma postsOf_processNextJob now s :
  postsOf (trace (processNextJob now s)) = postsOf (trace s).
Proof.
  unfold processNextJob. destruct (isProcessing s); simpl; [done |].
  destruct (jobQueue s); simpl; [done |].
  rewrite postsOf_app. simpl. by rewrite app_nil_r.
Qed.

Lemma postsOf_webhookSettled r fr s :
  postsOf (trace (webhookSettled r fr s)) = postsOf (trace s).
Proof.
  unfold webhookSettled. destruct (truthy _); [| done]. simpl.
  rewrite postsOf_app. destruct fr; simpl; by rewrite app_nil_r.
Qed.

Lemma postsOf_sendWebhookNotification r s :
  postsOf (trace (sendWebhookNotification r s))
  = postsOf (trace s)
    ++ (if truthy (Job.webhookUrl (heap s !!! r))
        then [(r, default "" (Job.webhookUrl (heap s !!! r)),
               payloadOf (heap s !!! r))]
        else []).
Proof.
  unfold sendWebhookNotification. simpl.
  destruct (truthy _); simpl; rewrite !postsOf_app; simpl;
    by rewrite ?app_nil_r.
Qed.

Lemma truthy_Some o : truthy o = true → o = Some (default "" o).
Proof. by destruct o. Qed.

Lemma PostsReport_frozen s s' :
  postsOf (trace s') = postsOf (trace s) →
  (∀ r j, heap s !! r = Some j → Job.isTerminal j = true →
          heap s' !! r = Some j) →
  PostsReport s → PostsReport s'.
Proof.
  intros Ht Hfz HR r url body Hin. rewrite Ht in Hin.
  destruct (HR r url body Hin) as (Hlt & Hterm & Hbody & Hurl).
  pose proof (list_lookup_lookup_total_lt _ _ Hlt) as Hl.
  pose proof (Hfz _ _ Hl Hterm) as Hl'.
  rewrite (list_lookup_total_correct _ _ _ Hl').
  split_and!; try done. by eapply lookup_lt_Some.
Qed.

Lemma PostsReport_step s inp :
  GuardInv s → PostsReport s → PostsReport (step path_join s inp).
Proof.
  intros HG HR. pose proof HG as [HP Hidle].
  assert (Hfz : ∀ r j, heap s !! r = Some j → Job.isTerminal j = true →
                       heap (step path_join s inp) !! r = Some j)
    by (intros r j; by apply QueueFacts.frozen_step).
  destruct inp as [options tId tCreated
    | options pf tId tCreated tStarted | i o now | i tC tS | i fr now].
  - eapply PostsReport_frozen; [| exact Hfz | done].
    cbn [step]. simpl. rewrite postsOf_app. simpl. by rewrite app_nil_r.
  - eapply PostsReport_frozen; [| exact Hfz | done].
    cbn [step]. unfold queueJob. rewrite postsOf_processNextJob. simpl.
    rewrite !postsOf_app. simpl. by rewrite !app_nil_r.
  - revert Hfz. cbn [step].
    destruct (onProcessSettled_cases i o now s HG)
      as [-> | (e & -> & Hfr & He & Hpr & _ & _ & _ & _ & _ & Ho)]; [done |].
    intros Hfz r url body Hin.
    assert (Htr : postsOf (trace (onProcessSettled 0 o now s))
                  = postsOf (trace s)
                    ++ (if truthy (Job.webhookUrl
                                     (heap (onProcessSettled 0 o now s) !!! job e))
                        then [(job e,
                               default "" (Job.webhookUrl
                                  (heap (onProcessSettled 0 o now s) !!! job e)),
                               payloadOf
                                 (heap (onProcessSettled 0 o now s) !!! job e))]
                        else [])).
    { unfold onProcessSettled. rewrite Hfr. simpl.
      destruct o; simpl; rewrite postsOf_sendWebhookNotification;
        rewrite QueueFacts.sendWebhookNotification_eq; simpl;
        rewrite postsOf_app; simpl; by rewrite app_nil_r. }
    rewrite Htr in Hin. apply elem_of_app in Hin as [Hin | Hin].
    + destruct (HR r url body Hin) as (Hlt & Hterm & Hbody & Hurl).
      pose proof (list_lookup_lookup_total_lt _ _ Hlt) as Hl.
      pose proof (Hfz _ _ Hl Hterm) as Hl'.
      rewrite (list_lookup_total_correct _ _ _ Hl').
      split_and!; try done. by eapply lookup_lt_Some.
    + destruct (truthy _) eqn:Ht; [| by apply elem_of_nil in Hin].
      apply list_elem_of_singleton in Hin. injection Hin as -> -> ->.
      split_and!; try done.
      * destruct o; destruct Ho as (-> & _); by rewrite length_alter.
      * destruct o; destruct Ho as (-> & _);
          by rewrite list_lookup_total_alter_eq.
      * by apply truthy_Some.
  - eapply PostsReport_frozen; [| exact Hfz | done].
    cbn [step]. unfold onProcessRejectedNullish.
    destruct (frames s !! i) as [[e | e rs | e err] |]; try done.
    unfold finally. rewrite postsOf_processNextJob.
    rewrite QueueFacts.cleanupOldJobs_eq. simpl.
    rewrite postsOf_app. simpl. by rewrite app_nil_r.
  - eapply PostsReport_frozen; [| exact Hfz | done].
    cbn [step]. unfold onWebhookSettled.
    destruct (frames s !! i) as [[e | e rs | e err] |]; try done;
      unfold finally; rewrite postsOf_processNextJob;
      rewrite QueueFacts.cleanupOldJobs_eq; unfold settlePromise; simpl;
      by rewrite postsOf_webhookSettled.
Qed.

Lemma PostsReport_exec inputs : PostsReport (exec path_join inputs).
Proof.
  induction inputs as [|inp inputs IH] using rev_ind.
  - by intros r url body ?%elem_of_nil.
  - rewrite QueueFacts.exec_snoc.
    apply PostsReport_step; [apply QueueFacts.GuardInv_exec | done].
Qed.

(** *** The trimmer, twice *)

Lemma cleanupOldJobs_small s :
  length (filter (λ e, Job.isTerminal (heap s !!! e.2) = true) (allJobs s)) ≤ 50 →
  cleanupOldJobs s = s.
Proof.
  intros Hle. unfold cleanupOldJobs.
  rewrite decide_False; [done |].
  rewrite (JsArrayFacts.sort_Permutation
             (λ e : string * nat, Job.completedTime (heap s !!! e.2))).
  lia.
Qed.

Lemma cleanupOldJobs_idem s :
  NoDup (allJobs s).*1 → cleanupOldJobs (cleanupOldJobs s) = cleanupOldJobs s.
Proof.
  intros Hnd.
  destruct (CleanupFacts.cleanupOldJobs_spec s Hnd) as (D & _ & _ & Hcount & _).
  apply cleanupOldJobs_small.
  rewrite (CleanupFacts.heap_cleanupOldJobs s), Hcount. lia.
Qed.

End WithPath.
End QueueViewFacts.

(** X1: in every state the manager reaches, [getJobStatus(id)] returns
    either [null] or a job object whose [id] is the one asked for; it returns
    [null] exactly when the store has no such key. *)
Theorem getJobStatus_returns_the_job_of_that_id
    (path_join : string → string → string) (inputs : list Queue.Input) :
  (∀ k j,
     Queue.getJobStatus k (Queue.exec path_join inputs) = Some j → Job.id j = k)
  ∧ (∀ k,
       Queue.getJobStatus k (Queue.exec path_join inputs) = None
       ↔ k ∉ (Queue.allJobs (Queue.exec path_join inputs)).*1).
Proof.
  pose proof (QueueViewFacts.StoreIds_exec path_join inputs) as HI.
  pose proof (QueueFacts.StoreInv_exec path_join inputs) as HS.
  set (s := Queue.exec path_join inputs) in *.
  split.
  - intros k j Hget. unfold Queue.getJobStatus in Hget.
    destruct (JsMap.get k (Queue.allJobs s)) as [r|] eqn:Hr; [| done].
    simpl in Hget. apply QueueViewFacts.get_Some_elem in Hr.
    apply list_lookup_total_correct in Hget. subst j. exact (HI _ Hr).
  - intros k. rewrite <- QueueViewFacts.get_None. unfold Queue.getJobStatus.
    destruct (JsMap.get k (Queue.allJobs s)) as [r|] eqn:Hr; simpl; [| done].
    apply QueueViewFacts.get_Some_elem in Hr.
    pose proof (Queue.store_bound _ HS _ Hr) as Hlt. simpl in Hlt.
    apply list_lookup_lookup_total_lt in Hlt. rewrite Hlt. done.
Qed.

Lemma getJobStatus_returns_the_job_of_that_id_witness :
  Job.id
    {| Job.id := "job_20250123143022_002"; Job.status := queued;
       Job.folder := "recordings/job_20250123143022_002";
       Job.createdAt := 1737642622010; Job.startedAt := None;
       Job.completedAt := None; Job.recordingsTotal := 3;
       Job.recordingsCompleted := 0; Job.recordingsFailed := 0;
       Job.results := []; Job.error := None;
       Job.webhookUrl := Some "https://hooks.example/b";
       Job.uploadToGdrive := false; Job.metadata := [] |}
  = "job_20250123143022_002"
  ∧ Queue.getJobStatus "job_20250123143022_004"
      (Queue.exec Scenarios.join Scenarios.submitABC) = None.
Proof.
  destruct (getJobStatus_returns_the_job_of_that_id Scenarios.join
              Scenarios.submitABC) as [Hid Hnone].
  split.
  - apply Hid. vm_compute. reflexivity.
  - apply Hnone. vm_compute. intros Hin. apply list_elem_of_In in Hin.
    simpl in Hin. repeat (destruct Hin as [Hin|Hin]; [discriminate Hin|]).
    exact Hin.
Defined.

(** X2: while the id counter is exact, a job that is ['queued'] or
    ['processing'] is found by [getJobStatus] under its own id, in every
    state the manager reaches: the trimmer never removes it and no other job
    has taken its key. *)
Theorem unfinished_job_is_found_by_its_id
    (path_join : string → string → string) (inputs : list Queue.Input) (r : nat) :
  (Queue.jobIdCounter (Queue.exec path_join inputs) < 2 ^ 53)%N →
  r < length (Queue.heap (Queue.exec path_join inputs)) →
  Job.isTerminal (Queue.heap (Queue.exec path_join inputs) !!! r) = false →
  Queue.getJobStatus
    (Job.id (Queue.heap (Queue.exec path_join inputs) !!! r))
    (Queue.exec path_join inputs)
  = Some (Queue.heap (Queue.exec path_join inputs) !!! r).
Proof.
  intros Hctr Hr Hlive.
  pose proof (QueueViewFacts.StoreIds_exec path_join inputs) as HI.
  pose proof (QueueFacts.StoreInv_exec path_join inputs) as HS.
  destruct (QueueFacts.RetentionInv_exec path_join inputs Hctr) as (Hin & _).
  set (s := Queue.exec path_join inputs) in *.
  apply Hin in Hlive; [| done].
  apply list_elem_of_fmap in Hlive as (e & -> & He).
  rewrite (HI e He). unfold Queue.getJobStatus.
  rewrite (QueueViewFacts.elem_get e.1 e.2); simpl.
  - by apply list_lookup_lookup_total_lt.
  - apply (Queue.store_keys _ HS).
  - by destruct e.
Qed.

Lemma unfinished_job_is_found_by_its_id_witness :
  Queue.getJobStatus "job_20250123143022_003"
    (Queue.exec Scenarios.join Scenarios.bRejected)
  = Some (Queue.heap (Queue.exec Scenarios.join Scenarios.bRejected) !!! 2).
Proof.
  assert (Hid : Job.id (Queue.heap (Queue.exec Scenarios.join Scenarios.bRejected)
                        !!! 2) = "job_20250123143022_003")
    by (vm_compute; reflexivity).
  rewrite <- Hid at 1.
  apply (unfinished_job_is_found_by_its_id Scenarios.join Scenarios.bRejected 2).
  - vm_compute. reflexivity.
  - vm_compute. lia.
  - vm_compute. reflexivity.
Defined.

(** X3: [createJob] puts the new job object in the store under the id it
    generated, as made ('queued', no timestamps but [createdAt], no results);
    the lookup of every other id is as before; while the counter is exact
    the id was not in the store before; and nothing is queued or started. *)
Theorem createJob_registers_the_new_job
    (path_join : string → string → string) (inputs : list Queue.Input)
    (options : Queue.Options) (tId tCreated : Z) :
  Queue.getJobStatus
    (JobId.generateJobId (Queue.jobIdCounter (Queue.exec path_join inputs)) tId).1
    (Queue.exec path_join (inputs ++ [Queue.CallCreateJob options tId tCreated]))
  = Some (Queue.newJob path_join options
            (JobId.generateJobId
               (Queue.jobIdCounter (Queue.exec path_join inputs)) tId).1
            tCreated)
  ∧ (∀ k,
       k ≠ (JobId.generateJobId
              (Queue.jobIdCounter (Queue.exec path_join inputs)) tId).1 →
       Queue.getJobStatus k
         (Queue.exec path_join (inputs ++ [Queue.CallCreateJob options tId tCreated]))
       = Queue.getJobStatus k (Queue.exec path_join inputs))
  ∧ ((Queue.jobIdCounter (Queue.exec path_join inputs) + 1 < 2 ^ 53)%N →
     Queue.getJobStatus
       (JobId.generateJobId
          (Queue.jobIdCounter (Queue.exec path_join inputs)) tId).1
       (Queue.exec path_join inputs) = None)
  ∧ Queue.jobQueue
      (Queue.exec path_join (inputs ++ [Queue.CallCreateJob options tId tCreated]))
    = Queue.jobQueue (Queue.exec path_join inputs)
  ∧ Queue.isProcessing
      (Queue.exec path_join (inputs ++ [Queue.CallCreateJob options tId tCreated]))
    = Queue.isProcessing (Queue.exec path_join inputs).
Proof.
  pose proof (QueueFacts.StoreInv_exec path_join inputs) as HS.
  rewrite QueueFacts.exec_snoc.
  set (s := Queue.exec path_join inputs) in *. cbn [Queue.step].
  set (id := (JobId.generateJobId (Queue.jobIdCounter s) tId).1).
  split_and!; try done.
  - unfold Queue.getJobStatus. simpl. fold id.
    rewrite QueueViewFacts.get_set_eq. simpl.
    by rewrite lookup_app_r, Nat.sub_diag by lia.
  - intros k Hk. unfold Queue.getJobStatus. simpl. fold id.
    rewrite QueueViewFacts.get_set_ne by done.
    destruct (JsMap.get k (Queue.allJobs s)) as [r|] eqn:Hr; [| done]. simpl.
    apply QueueViewFacts.get_Some_elem in Hr.
    pose proof (Queue.store_bound _ HS _ Hr) as Hlt. simpl in Hlt.
    by rewrite lookup_app_l.
  - intros Hctr. unfold Queue.getJobStatus.
    assert (Hfresh : id ∉ (Queue.allJobs s).*1).
    { apply QueueFacts.fresh_key; [done |].
      unfold JobId.incr. destruct (N.ltb_spec (Queue.jobIdCounter s) (2 ^ 53)); lia. }
    apply QueueViewFacts.get_None in Hfresh. by rewrite Hfresh.
Qed.

Lemma createJob_registers_the_new_job_witness :
  Queue.getJobStatus "job_20250123143100_004"
    (Queue.exec Scenarios.join Scenarios.submitABC) = None.
Proof.
  destruct (createJob_registers_the_new_job Scenarios.join Scenarios.submitABC
              (Scenarios.options 1 None) (Scenarios.t0 + 38000) (Scenarios.t0 + 38000))
    as (_ & _ & Hfresh & _).
  apply Hfresh. vm_compute. reflexivity.
Defined.

(** X4: a job made by a bare call of the exported [createJob] is never
    run: whatever is submitted or settles afterwards, its
    object stays exactly as [createJob] made it, with status ['queued']. *)
Theorem job_created_without_queueing_is_never_run
    (path_join : string → string → string) (inputs more : list Queue.Input)
    (options : Queue.Options) (tId tCreated : Z) :
  Queue.heap
    (Queue.exec path_join
       (inputs ++ Queue.CallCreateJob options tId tCreated :: more))
  !! length (Queue.heap (Queue.exec path_join inputs))
  = Some (Queue.newJob path_join options
            (JobId.generateJobId
               (Queue.jobIdCounter (Queue.exec path_join inputs)) tId).1
            tCreated).
Proof.
  set (r := length (Queue.heap (Queue.exec path_join inputs))).
  set (j := Queue.newJob _ _ _ _).
  cut (Queue.heap
         (Queue.exec path_join
            (inputs ++ Queue.CallCreateJob options tId tCreated :: more)) !! r
       = Some j
       ∧ r ∉ Queue.job
             <$> Queue.jobQueue
                   (Queue.exec path_join
                      (inputs ++ Queue.CallCreateJob options tId tCreated :: more))).
  { by intros [H _]. }
  induction more as [|inp more IH] using rev_ind.
  - rewrite QueueFacts.exec_snoc. cbn [Queue.step]. split.
    + rewrite QueueViewFacts.heap_createJob.
      by rewrite lookup_app_r, Nat.sub_diag by lia.
    + simpl. destruct (QueueFacts.GuardInv_exec path_join inputs) as [HP _].
      intros [e [Hr He]]%list_elem_of_fmap.
      pose proof (Queue.refs_queue _ HP e He). unfold r in Hr. lia.
  - destruct IH as [Hr Hq].
    replace (inputs ++ Queue.CallCreateJob options tId tCreated :: more ++ [inp])
      with ((inputs ++ Queue.CallCreateJob options tId tCreated :: more) ++ [inp])
      by (by rewrite <- (assoc_L (++))).
    rewrite QueueFacts.exec_snoc.
    apply QueueViewFacts.untouched_step;
      [apply QueueFacts.GuardInv_exec | done | done | done].
Qed.

(** X5: [updateJob(id, updates)] on a state the manager has reached. With
    no job under [id] it changes nothing. Otherwise the job under [id]
    becomes the updated one and the lookup of every other id is as before;
    the store's keys and the queue are untouched. *)
Theorem updateJob_changes_only_that_job
    (path_join : string → string → string) (inputs : list Queue.Input)
    (k : string) (updates : Job.t → Job.t) :
  (Queue.getJobStatus k (Queue.exec path_join inputs) = None →
   Queue.updateJob k updates (Queue.exec path_join inputs)
   = Queue.exec path_join inputs)
  ∧ (∀ j,
       Queue.getJobStatus k (Queue.exec path_join inputs) = Some j →
       Queue.getJobStatus k
         (Queue.updateJob k updates (Queue.exec path_join inputs))
       = Some (updates j)
       ∧ ∀ k', k' ≠ k →
           Queue.getJobStatus k'
             (Queue.updateJob k updates (Queue.exec path_join inputs))
           = Queue.getJobStatus k' (Queue.exec path_join inputs))
  ∧ Queue.allJobs (Queue.updateJob k updates (Queue.exec path_join inputs))
    = Queue.allJobs (Queue.exec path_join inputs)
  ∧ Queue.jobQueue (Queue.updateJob k updates (Queue.exec path_join inputs))
    = Queue.jobQueue (Queue.exec path_join inputs).
Proof.
  pose proof (QueueFacts.StoreInv_exec path_join inputs) as HS.
  set (s := Queue.exec path_join inputs) in *.
  unfold Queue.updateJob, Queue.getJobStatus.
  destruct (JsMap.get k (Queue.allJobs s)) as [r|] eqn:Hr; simpl.
  - pose proof (QueueViewFacts.get_Some_elem _ _ _ Hr) as Hin.
    pose proof (Queue.store_bound _ HS _ Hin) as Hlt. simpl in Hlt.
    split_and!; try done.
    + intros H. by rewrite (list_lookup_lookup_total_lt _ _ Hlt) in H.
    + intros j Hj. rewrite Hr. simpl. split.
      * by rewrite list_lookup_alter_eq, Hj.
      * intros k' Hk'.
        destruct (JsMap.get k' (Queue.allJobs s)) as [r'|] eqn:Hr'; [| done].
        simpl. rewrite list_lookup_alter_ne; [done |]. intros <-.
        apply QueueViewFacts.get_Some_elem in Hr'.
        pose proof (CleanupFacts.NoDup_fmap_eq snd _ _ _
                      (Queue.store_refs _ HS) Hin Hr' eq_refl) as Heq.
        congruence.
  - split_and!; done.
Qed.

Lemma updateJob_changes_only_that_job_witness :
  Queue.updateJob "job_20250123143022_009" (Job.start 0)
    (Queue.exec Scenarios.join Scenarios.submitABC)
  = Queue.exec Scenarios.join Scenarios.submitABC
  ∧ Queue.getJobStatus "job_20250123143022_003"
      (Queue.updateJob "job_20250123143022_002" (Job.start 0)
         (Queue.exec Scenarios.join Scenarios.submitABC))
    = Queue.getJobStatus "job_20250123143022_003"
        (Queue.exec Scenarios.join Scenarios.submitABC).
Proof.
  split.
  - destruct (updateJob_changes_only_that_job Scenarios.join Scenarios.submitABC
                "job_20250123143022_009" (Job.start 0)) as (Hnone & _).
    apply Hnone. vm_compute. reflexivity.
  - destruct (updateJob_changes_only_that_job Scenarios.join Scenarios.submitABC
                "job_20250123143022_002" (Job.start 0)) as (_ & Hsome & _).
    destruct (Queue.getJobStatus "job_20250123143022_002"
                (Queue.exec Scenarios.join Scenarios.submitABC)) as [j|] eqn:Hj.
    + destruct (Hsome j eq_refl) as [_ Hother]. apply Hother. discriminate.
    + vm_compute in Hj. discriminate Hj.
Defined.

(** X6: the manager never rewrites a job's identity and never moves its
    status backwards. Between any state it reaches and any later one, a job
    object keeps its [id], [folder], [createdAt], [recordingsTotal],
    [webhookUrl], [uploadToGdrive] and [metadata], and its status is the same
    or further along 'queued' < 'processing' < 'completed' / 'failed'; and no
    job object disappears. *)
Theorem job_identity_is_kept_and_status_moves_forward
    (path_join : string → string → string) (inputs more : list Queue.Input) :
  length (Queue.heap (Queue.exec path_join inputs))
  ≤ length (Queue.heap (Queue.exec path_join (inputs ++ more)))
  ∧ ∀ r,
      r < length (Queue.heap (Queue.exec path_join inputs)) →
      QueueView.sameJobLater
        (Queue.heap (Queue.exec path_join inputs) !!! r)
        (Queue.heap (Queue.exec path_join (inputs ++ more)) !!! r).
Proof. apply QueueViewFacts.heapLater_exec. Qed.

Lemma job_identity_is_kept_and_status_moves_forward_witness :
  QueueView.sameJobLater
    (Queue.heap (Queue.exec Scenarios.join Scenarios.submitABC) !!! 1)
    (Queue.heap (Queue.exec Scenarios.join Scenarios.allDone) !!! 1).
Proof.
  destruct (job_identity_is_kept_and_status_moves_forward Scenarios.join
              Scenarios.submitABC
              [ Queue.ProcessSettled 0 (Fulfilled Scenarios.fiveResults)
                  (Scenarios.t0 + 5000);
                Queue.WebhookSettled 0 (Queue.FetchNotOk 500) (Scenarios.t0 + 5200);
                Queue.ProcessSettled 0
                  (RejectedWith {| message := "browser crashed" |})
                  (Scenarios.t0 + 9000);
                Queue.WebhookSettled 0
                  (Queue.FetchError {| message := "ECONNREFUSED" |})
                  (Scenarios.t0 + 9100);
                Queue.ProcessSettled 0
                  (Fulfilled [Scenarios.result "c1" true; Scenarios.result "c2" true;
                              Scenarios.result "c3" true; Scenarios.result "c4" true])
                  (Scenarios.t0 + 12000);
                Queue.WebhookSettled 0 Queue.FetchOk (Scenarios.t0 + 12001) ])
    as [_ Hjob].
  apply (Hjob 1). vm_compute. lia.
Defined.

(** X7: what [getActiveJobs()] returns in a state the manager has reached.
    When the manager is idle the list is empty. Otherwise it is the current
    job, whose status is not ['queued'], followed by the jobs of the queue in
    queue order, each ['queued']; its elements are pairwise distinct job
    objects, and the queued ones are the last jobs submitted, in submission
    order. *)
Theorem getActiveJobs_is_current_job_then_queue
    (path_join : string → string → string) (inputs : list Queue.Input) :
  (Queue.isProcessing (Queue.exec path_join inputs) = false →
   QueueView.getActiveJobs (Queue.exec path_join inputs) = [])
  ∧ (Queue.isProcessing (Queue.exec path_join inputs) = true →
     ∃ r,
       Queue.currentJob (Queue.exec path_join inputs) = Some r
       ∧ QueueView.getActiveJobs (Queue.exec path_join inputs)
         = r :: (Queue.job <$> Queue.jobQueue (Queue.exec path_join inputs))
       ∧ Queue.statusOf (Queue.exec path_join inputs) r ≠ queued)
  ∧ NoDup (QueueView.getActiveJobs (Queue.exec path_join inputs))
  ∧ (∀ r,
       r ∈ QueueView.getActiveJobs (Queue.exec path_join inputs) →
       r < length (Queue.heap (Queue.exec path_join inputs)))
  ∧ (∀ r,
       r ∈ Queue.job <$> Queue.jobQueue (Queue.exec path_join inputs) →
       Queue.statusOf (Queue.exec path_join inputs) r = queued)
  ∧ (Queue.job <$> Queue.jobQueue (Queue.exec path_join inputs))
    `suffix_of` Queue.queuedOrder (Queue.trace (Queue.exec path_join inputs)).
Proof.
  destruct (QueueFacts.GuardInv_exec path_join inputs) as [HP Hidle].
  destruct (QueueFacts.OrderInv_exec path_join inputs) as [Ho _].
  set (s := Queue.exec path_join inputs) in *.
  pose proof (Queue.guard_frames _ HP) as Hlen.
  pose proof (Queue.guard_current _ HP) as Hcur.
  assert (Hq : ∀ r, r ∈ Queue.job <$> Queue.jobQueue s →
                    Queue.statusOf s r = queued).
  { intros r [e [-> He]]%list_elem_of_fmap. by apply (Queue.queue_queued _ HP). }
  assert (Hbusy : Queue.isProcessing s = true →
            ∃ f, Queue.frames s = [f]
                 ∧ Queue.currentJob s = Some (Queue.job (Queue.entryOf f))).
  { intros Hip. rewrite Hip in Hlen.
    destruct (Queue.frames s) as [|f [|f' fr]] eqn:Hfr; try done.
    exists f. by rewrite Hcur. }
  unfold QueueView.getActiveJobs.
  destruct (Queue.isProcessing s) eqn:Hip.
  - destruct (Hbusy eq_refl) as (f & Hfr & Hc). rewrite Hc. simpl.
    assert (Hst : Queue.statusOf s (Queue.job (Queue.entryOf f)) ≠ queued).
    { rewrite (Queue.frame_status _ HP f) by (rewrite Hfr; by left).
      by destruct f. }
    split_and!; try done.
    + intros _. by eexists.
    + apply NoDup_cons. split; [| apply (Queue.queue_nodup _ HP)].
      intros Hin. by apply Hst, Hq.
    + intros r [-> | Hin]%elem_of_cons.
      * apply (Queue.refs_frames _ HP f). rewrite Hfr. by left.
      * apply list_elem_of_fmap in Hin as (e & -> & He).
        by apply (Queue.refs_queue _ HP).
    + rewrite Ho. by eexists.
  - rewrite (Hidle eq_refl) in *.
    apply nil_length_inv in Hlen. rewrite Hlen in Hcur.
    simpl in Hcur. rewrite Hcur. simpl.
    split_and!; try done.
    + apply NoDup_nil_2.
    + by intros r ?%elem_of_nil.
    + apply suffix_nil.
Qed.

Lemma getActiveJobs_is_current_job_then_queue_witness :
  QueueView.getActiveJobs (Queue.exec Scenarios.join Scenarios.allDone) = []
  ∧ ∃ r,
      Queue.currentJob (Queue.exec Scenarios.join Scenarios.aSettled) = Some r
      ∧ QueueView.getActiveJobs (Queue.exec Scenarios.join Scenarios.aSettled)
        = r :: (Queue.job
                  <$> Queue.jobQueue (Queue.exec Scenarios.join Scenarios.aSettled))
      ∧ Queue.statusOf (Queue.exec Scenarios.join Scenarios.aSettled) r ≠ queued.
Proof.
  split.
  - destruct (getActiveJobs_is_current_job_then_queue Scenarios.join
                Scenarios.allDone) as (Hidle & _).
    apply Hidle. vm_compute. reflexivity.
  - destruct (getActiveJobs_is_current_job_then_queue Scenarios.join
                Scenarios.aSettled) as (_ & Hbusy & _).
    apply Hbusy. vm_compute. reflexivity.
Defined.



(** X9: what a call of [queueJob] does to a state the manager has reached.
    It always allocates one new pending promise. If the manager is idle the
    new job is popped in the same call: it is ['processing'] with [startedAt]
    set, the queue stays empty and a run is suspended on its callback. If a
    job is in hand the new job is appended to the back of the queue as made,
    ['queued'], and the suspended run and every existing job object are left
    as they were. *)
Theorem queueJob_starts_at_once_only_when_idle
    (path_join : string → string → string) (inputs : list Queue.Input)
    (options : Queue.Options) (pf : nat) (tId tCreated tStarted : Z) :
  Queue.promises
    (Queue.exec path_join
       (inputs ++ [Queue.CallQueueJob options pf tId tCreated tStarted]))
  = Queue.promises (Queue.exec path_join inputs) ++ [Queue.Pending]
  ∧ (Queue.isProcessing (Queue.exec path_join inputs) = false →
     Queue.heap
       (Queue.exec path_join
          (inputs ++ [Queue.CallQueueJob options pf tId tCreated tStarted]))
     = Queue.heap (Queue.exec path_join inputs)
       ++ [Job.start tStarted
             (Queue.newJob path_join options
                (JobId.generateJobId
                   (Queue.jobIdCounter (Queue.exec path_join inputs)) tId).1
                tCreated)]
     ∧ Queue.jobQueue
         (Queue.exec path_join
            (inputs ++ [Queue.CallQueueJob options pf tId tCreated tStarted]))
       = []
     ∧ Queue.frames
         (Queue.exec path_join
            (inputs ++ [Queue.CallQueueJob options pf tId tCreated tStarted]))
       = [Queue.AwaitProcess
            {| Queue.job := length (Queue.heap (Queue.exec path_join inputs));
               Queue.processFunction := pf;
               Queue.promise :=
                 length (Queue.promises (Queue.exec path_join inputs)) |}])
  ∧ (Queue.isProcessing (Queue.exec path_join inputs) = true →
     Queue.heap
       (Queue.exec path_join
          (inputs ++ [Queue.CallQueueJob options pf tId tCreated tStarted]))
     = Queue.heap (Queue.exec path_join inputs)
       ++ [Queue.newJob path_join options
             (JobId.generateJobId
                (Queue.jobIdCounter (Queue.exec path_join inputs)) tId).1
             tCreated]
     ∧ Queue.jobQueue
         (Queue.exec path_join
            (inputs ++ [Queue.CallQueueJob options pf tId tCreated tStarted]))
       = Queue.jobQueue (Queue.exec path_join inputs)
         ++ [{| Queue.job := length (Queue.heap (Queue.exec path_join inputs));
                Queue.processFunction := pf;
                Queue.promise :=
                  length (Queue.promises (Queue.exec path_join inputs)) |}]
     ∧ Queue.frames
         (Queue.exec path_join
            (inputs ++ [Queue.CallQueueJob options pf tId tCreated tStarted]))
       = Queue.frames (Queue.exec path_join inputs)).
Proof.
  pose proof (QueueFacts.GuardInv_exec path_join inputs) as HG.
  rewrite QueueFacts.exec_snoc.
  set (s := Queue.exec path_join inputs) in *. cbn [Queue.step].
  split_and!.
  - destruct (Queue.isProcessing s) eqn:Hip.
    + by destruct (QueueViewFacts.queueJob_busy path_join options pf tId tCreated
                     tStarted s (proj1 HG) Hip) as (_ & _ & _ & ->).
    + by destruct (QueueViewFacts.queueJob_idle path_join options pf tId tCreated
                     tStarted s HG Hip) as (_ & _ & _ & _ & ->).
  - intros Hip.
    destruct (QueueViewFacts.queueJob_idle path_join options pf tId tCreated
                tStarted s HG Hip) as (-> & -> & -> & _). done.
  - intros Hip.
    destruct (QueueViewFacts.queueJob_busy path_join options pf tId tCreated
                tStarted s (proj1 HG) Hip) as (-> & -> & -> & _). done.
Qed.

Lemma queueJob_starts_at_once_only_when_idle_witness :
  Queue.jobQueue
    (Queue.exec Scenarios.join
       (Scenarios.allDone
        ++ [Queue.CallQueueJob (Scenarios.options 1 None) 3
              (Scenarios.t0 + 20000) (Scenarios.t0 + 20000) (Scenarios.t0 + 20000)]))
  = []
  ∧ Queue.frames
      (Queue.exec Scenarios.join
         (Scenarios.aSettled
          ++ [Queue.CallQueueJob (Scenarios.options 1 None) 3
                (Scenarios.t0 + 6000) (Scenarios.t0 + 6000) (Scenarios.t0 + 6000)]))
    = Queue.frames (Queue.exec Scenarios.join Scenarios.aSettled).
Proof.
  split.
  - destruct (queueJob_starts_at_once_only_when_idle Scenarios.join
                Scenarios.allDone (Scenarios.options 1 None) 3
                (Scenarios.t0 + 20000) (Scenarios.t0 + 20000)
                (Scenarios.t0 + 20000)) as (_ & Hidle & _).
    destruct Hidle as (_ & Hq & _); [| exact Hq]. vm_compute. reflexivity.
  - destruct (queueJob_starts_at_once_only_when_idle Scenarios.join
                Scenarios.aSettled (Scenarios.options 1 None) 3
                (Scenarios.t0 + 6000) (Scenarios.t0 + 6000)
                (Scenarios.t0 + 6000)) as (_ & _ & Hbusy).
    destruct Hbusy as (_ & _ & Hfr); [| exact Hfr]. vm_compute. reflexivity.
Defined.

(** X10: what the caller of [queueJob] gets when the manager is idle and
    the callback resolves with [rs]: once the webhook wait is over, however
    the delivery went, the promise the call returned is resolved with
    [success: true], the generated [jobId], the folder under [outputDir] (or
    ['./recordings']), [total] the [recordingsCount] given (or 0),
    [completed] and [failed] the numbers of results with and without
    [success], and [results] the list itself; and the manager is idle
    again. *)
Theorem queueJob_resolves_with_the_job_summary
    (path_join : string → string → string) (inputs : list Queue.Input)
    (options : Queue.Options) (pf : nat) (tId tCreated tStarted : Z)
    (rs : list TaskResult.t) (tCompleted : Z) (fr : Queue.FetchResult)
    (tNext : Z) :
  Queue.isProcessing (Queue.exec path_join inputs) = false →
  Queue.promises
    (Queue.exec path_join
       (inputs ++ [Queue.CallQueueJob options pf tId tCreated tStarted;
                   Queue.ProcessSettled 0 (Fulfilled rs) tCompleted;
                   Queue.WebhookSettled 0 fr tNext]))
  !! length (Queue.promises (Queue.exec path_join inputs))
  = Some (Queue.Resolved
            {| Queue.outSuccess := true;
               Queue.outJobId :=
                 (JobId.generateJobId
                    (Queue.jobIdCounter (Queue.exec path_join inputs)) tId).1;
               Queue.outFolder :=
                 path_join
                   (Queue.orString (Queue.outputDir options) "./recordings")
                   (JobId.generateJobId
                      (Queue.jobIdCounter (Queue.exec path_join inputs)) tId).1;
               Queue.outTotal := default 0 (Queue.recordingsCount options);
               Queue.outCompleted :=
                 length (filter (λ r, TaskResult.success r = true) rs);
               Queue.outFailed :=
                 length (filter (λ r, negb (TaskResult.success r) = true) rs);
               Queue.outResults := rs |})
  ∧ Queue.isProcessing
      (Queue.exec path_join
         (inputs ++ [Queue.CallQueueJob options pf tId tCreated tStarted;
                     Queue.ProcessSettled 0 (Fulfilled rs) tCompleted;
                     Queue.WebhookSettled 0 fr tNext]))
    = false.
Proof.
  intros Hip.
  replace (inputs ++ [Queue.CallQueueJob options pf tId tCreated tStarted;
                      Queue.ProcessSettled 0 (Fulfilled rs) tCompleted;
                      Queue.WebhookSettled 0 fr tNext])
    with (((inputs ++ [Queue.CallQueueJob options pf tId tCreated tStarted])
           ++ [Queue.ProcessSettled 0 (Fulfilled rs) tCompleted])
          ++ [Queue.WebhookSettled 0 fr tNext])
    by (by rewrite <- !(assoc_L (++))).
  rewrite !QueueFacts.exec_snoc.
  apply QueueViewFacts.run_one_job;
    [apply QueueFacts.GuardInv_exec | apply QueueFacts.PromiseInv_exec | done].
Qed.

Lemma queueJob_resolves_with_the_job_summary_witness :
  Queue.promises
    (Queue.exec Scenarios.join
       (Scenarios.allDone
        ++ [Queue.CallQueueJob (Scenarios.options 2 None) 3
              (Scenarios.t0 + 20000) (Scenarios.t0 + 20000) (Scenarios.t0 + 20000);
            Queue.ProcessSettled 0
              (Fulfilled [Scenarios.result "d1" true; Scenarios.result "d2" false])
              (Scenarios.t0 + 25000);
            Queue.WebhookSettled 0 Queue.FetchOk (Scenarios.t0 + 25001)]))
  !! 3
  = Some (Queue.Resolved
            {| Queue.outSuccess := true;
               Queue.outJobId := "job_20250123143042_004";
               Queue.outFolder := "recordings/job_20250123143042_004";
               Queue.outTotal := 2; Queue.outCompleted := 1;
               Queue.outFailed := 1;
               Queue.outResults :=
                 [Scenarios.result "d1" true; Scenarios.result "d2" false] |}).
Proof.
  destruct (queueJob_resolves_with_the_job_summary Scenarios.join
              Scenarios.allDone (Scenarios.options 2 None) 3
              (Scenarios.t0 + 20000) (Scenarios.t0 + 20000) (Scenarios.t0 + 20000)
              [Scenarios.result "d1" true; Scenarios.result "d2" false]
              (Scenarios.t0 + 25000) Queue.FetchOk (Scenarios.t0 + 25001))
    as [Hres _].
  { vm_compute. reflexivity. }
  assert (Hlen : length (Queue.promises
                           (Queue.exec Scenarios.join Scenarios.allDone)) = 3)
    by (vm_compute; reflexivity).
  rewrite Hlen in Hres. rewrite Hres. vm_compute. reflexivity.
Defined.

(** X11: the queue always drains, one job after the other. From a state
    in which a job's callback is awaited and [n] more jobs are queued, let
    the job in hand and then each queued job settle in turn, each callback
    resolving or rejecting and each webhook delivery ending any way. After
    these [n + 1] jobs the manager is idle with an empty queue, and the
    [k]-th of them is ['completed'] if its own callback resolved and
    ['failed'] if it rejected, whatever happened to the others. *)
Theorem queue_drains_job_by_job
    (path_join : string → string → string) (inputs : list Queue.Input)
    (e : Queue.Entry)
    (xs : list (Settled (list TaskResult.t) * Z * Queue.FetchResult * Z)) :
  Queue.frames (Queue.exec path_join inputs) = [Queue.AwaitProcess e] →
  length xs = S (length (Queue.jobQueue (Queue.exec path_join inputs))) →
  Queue.isProcessing
    (Queue.exec path_join (inputs ++ QueueView.settlements xs)) = false
  ∧ Queue.jobQueue
      (Queue.exec path_join (inputs ++ QueueView.settlements xs)) = []
  ∧ ∀ k r,
      (Queue.job e
       :: (Queue.job <$> Queue.jobQueue (Queue.exec path_join inputs))) !! k
      = Some r →
      ∃ x, xs !! k = Some x
           ∧ Queue.statusOf
               (Queue.exec path_join (inputs ++ QueueView.settlements xs)) r
             = QueueView.statusAfter x.1.1.1.
Proof.
  intros Hfr Hlen. rewrite QueueFacts.exec_app.
  apply QueueViewFacts.drains; [apply QueueFacts.GuardInv_exec | done | done].
Qed.

Lemma queue_drains_job_by_job_witness :
  Queue.isProcessing
    (Queue.exec Scenarios.join
       (Scenarios.submitABC
        ++ QueueView.settlements
             [ (Fulfilled Scenarios.fiveResults, Scenarios.t0 + 5000,
                Queue.FetchNotOk 500, Scenarios.t0 + 5200);
               (RejectedWith {| message := "browser crashed" |},
                Scenarios.t0 + 9000,
                Queue.FetchError {| message := "ECONNREFUSED" |},
                Scenarios.t0 + 9100);
               (Fulfilled [Scenarios.result "c1" true], Scenarios.t0 + 12000,
                Queue.FetchOk, Scenarios.t0 + 12001) ]%Z))
  = false
  ∧ ∃ x,
      [ (Fulfilled Scenarios.fiveResults, Scenarios.t0 + 5000,
         Queue.FetchNotOk 500, Scenarios.t0 + 5200);
        (RejectedWith {| message := "browser crashed" |},
         Scenarios.t0 + 9000,
         Queue.FetchError {| message := "ECONNREFUSED" |},
         Scenarios.t0 + 9100);
        (Fulfilled [Scenarios.result "c1" true], Scenarios.t0 + 12000,
         Queue.FetchOk, Scenarios.t0 + 12001) ]%Z !! 1 = Some x
      ∧ Queue.statusOf
          (Queue.exec Scenarios.join
             (Scenarios.submitABC
              ++ QueueView.settlements
                   [ (Fulfilled Scenarios.fiveResults, Scenarios.t0 + 5000,
                      Queue.FetchNotOk 500, Scenarios.t0 + 5200);
                     (RejectedWith {| message := "browser crashed" |},
                      Scenarios.t0 + 9000,
                      Queue.FetchError {| message := "ECONNREFUSED" |},
                      Scenarios.t0 + 9100);
                     (Fulfilled [Scenarios.result "c1" true],
                      Scenarios.t0 + 12000,
                      Queue.FetchOk, Scenarios.t0 + 12001) ]%Z))
          1
        = QueueView.statusAfter x.1.1.1.
Proof.
  destruct (queue_drains_job_by_job Scenarios.join Scenarios.submitABC
              {| Queue.job := 0; Queue.processFunction := 0; Queue.promise := 0 |}
              [ (Fulfilled Scenarios.fiveResults, Scenarios.t0 + 5000,
                 Queue.FetchNotOk 500, Scenarios.t0 + 5200);
                (RejectedWith {| message := "browser crashed" |},
                 Scenarios.t0 + 9000,
                 Queue.FetchError {| message := "ECONNREFUSED" |},
                 Scenarios.t0 + 9100);
                (Fulfilled [Scenarios.result "c1" true], Scenarios.t0 + 12000,
                 Queue.FetchOk, Scenarios.t0 + 12001) ]%Z)
    as (Hidle & _ & Hall).
  { vm_compute. reflexivity. }
  { vm_compute. reflexivity. }
  split; [exact Hidle |].
  apply (Hall 1 1). vm_compute. reflexivity.
Defined.

(** X22: whenever the manager has POSTed a webhook for a job, the job is in a
    terminal state, the URL is the job's own [webhookUrl], and the body sent
    is the summary of the job object as it still stands in any later state:
    id, status, folder, counts, timestamps, results and metadata. *)
Theorem webhook_body_reports_the_finished_job
    (path_join : string → string → string) (inputs : list Queue.Input)
    (r : nat) (url : string) (body : Queue.Payload) :
  (r, url, body)
    ∈ QueueView.postsOf (Queue.trace (Queue.exec path_join inputs)) →
  r < length (Queue.heap (Queue.exec path_join inputs))
  ∧ Job.isTerminal (Queue.heap (Queue.exec path_join inputs) !!! r) = true
  ∧ Job.webhookUrl (Queue.heap (Queue.exec path_join inputs) !!! r) = Some url
  ∧ body = Queue.payloadOf (Queue.heap (Queue.exec path_join inputs) !!! r).
Proof.
  intros Hin.
  destruct (QueueViewFacts.PostsReport_exec path_join inputs r url body Hin)
    as (Hlt & Hterm & Hbody & Hurl).
  done.
Qed.

Lemma webhook_body_reports_the_finished_job_witness :
  Job.isTerminal
    (Queue.heap (Queue.exec Scenarios.join Scenarios.allDone) !!! 0) = true
  ∧ Job.webhookUrl
      (Queue.heap (Queue.exec Scenarios.join Scenarios.allDone) !!! 0)
    = Some "https://hooks.example/a".
Proof.
  destruct (webhook_body_reports_the_finished_job Scenarios.join
              Scenarios.allDone 0 "https://hooks.example/a"
              (Queue.payloadOf
                 (Queue.heap (Queue.exec Scenarios.join Scenarios.aSettled)
                    !!! 0)))
    as (_ & Hterm & Hurl & _).
  { vm_compute. apply list_elem_of_here. }
  split; [exact Hterm | exact Hurl].
Defined.

(** X23: on a store whose keys are distinct, as a [Map]'s are,
    [cleanupOldJobs] run a second time changes nothing; and it changes nothing
    at all while the store holds at most fifty terminal jobs. *)
Theorem trimming_twice_is_trimming_once (s : Queue.State) :
  NoDup (Queue.allJobs s).*1 →
  Queue.cleanupOldJobs (Queue.cleanupOldJobs s) = Queue.cleanupOldJobs s
  ∧ (length (Queue.terminalEntries s) ≤ 50 → Queue.cleanupOldJobs s = s).
Proof.
  intros Hnd. split.
  - by apply QueueViewFacts.cleanupOldJobs_idem.
  - apply QueueViewFacts.cleanupOldJobs_small.
Qed.

Lemma trimming_twice_is_trimming_once_witness :
  Queue.cleanupOldJobs
    (Queue.cleanupOldJobs (Queue.exec Scenarios.join Scenarios.cSettled))
  = Queue.cleanupOldJobs (Queue.exec Scenarios.join Scenarios.cSettled).
Proof.
  destruct (trimming_twice_is_trimming_once
              (Queue.exec Scenarios.join Scenarios.cSettled)) as [Hidem _].
  { vm_compute.
    repeat (apply NoDup_cons_2;
            [ intros Hin; apply list_elem_of_In in Hin; simpl in Hin;
              repeat (destruct Hin as [Hin|Hin]; [discriminate Hin|]);
              exact Hin |]).
    apply NoDup_nil_2. }
  exact Hidem.
Defined.

(** ** Durations *)

Module JsTextFacts.
Import JsString JsText JsStringFacts.

Lemma of_N_nonempty n : of_N n ≠ "".
Proof.
  unfold of_N, NilZero.string_of_uint.
  destruct (N.to_uint n) eqn:E; simpl; try done.
Qed.

Lemma padStart0_nonempty w n : padStart0 w (of_N n) ≠ "".
Proof.
  unfold padStart0. intros H. apply (f_equal String.length) in H.
  rewrite length_app in H. simpl in H.
  pose proof (of_N_nonempty n) as Hn. destruct (of_N n); [done |]. simpl in H. lia.
Qed.

Lemma parseDigits_padStart0 w n : parseDigits (padStart0 w (of_N n)) = n.
Proof.
  unfold parseDigits, padStart0. by rewrite read_zeros, read_of_N.
Qed.

Lemma span_digits_app d r :
  all_digits d = true → no_leading_digit r = true →
  span_digits (d +:+ r) = (d, r).
Proof.
  intros Hd Hr. induction d as [|c d IH]; sapp.
  - destruct r as [|c r]; [done |]. simpl in *.
    by destruct (is_digit c).
  - simpl in Hd. apply andb_true_iff in Hd as [Hc Hd].
    rewrite Hc, (IH Hd). done.
Qed.

Lemma match_number_word_no_digit word s :
  no_leading_digit s = true → match_number_word word s = None.
Proof.
  intros Hs. unfold match_number_word.
  destruct s as [|c s]; [done |]. simpl in *.
  by destruct (is_digit c).
Qed.

Lemma search_unfold word c s :
  search_number_word word (String c s)
  = match match_number_word word (String c s) with
    | Some d => Some d
    | None => search_number_word word s
    end.
Proof. reflexivity. Qed.

Lemma search_skip word pre s :
  no_digit pre = true →
  search_number_word word (pre +:+ s) = search_number_word word s.
Proof.
  induction pre as [|c pre IH]; [done |].
  intros [Hc Hpre]%andb_true_iff. rewrite app_cons, search_unfold.
  rewrite match_number_word_no_digit by done. by apply IH.
Qed.

Lemma match_number_word_digits word d r :
  all_digits d = true → d ≠ "" → no_leading_digit r = true →
  match_number_word word (d +:+ r)
  = if starts_with word (skip_spaces r) then Some d else None.
Proof.
  intros Hd Hne Hr. unfold match_number_word.
  rewrite span_digits_app by done. simpl.
  destruct d; [done |]. done.
Qed.

Lemma search_digits word d r :
  all_digits d = true → d ≠ "" → no_leading_digit r = true →
  search_number_word word (d +:+ r)
  = if starts_with word (skip_spaces r) then Some d
    else search_number_word word r.
Proof.
  intros Hd Hne Hr.
  destruct (starts_with word (skip_spaces r)) eqn:Hw.
  - destruct d as [|c d]; [done |].
    rewrite app_cons, search_unfold, <- app_cons.
    by rewrite match_number_word_digits, Hw.
  - clear Hne. induction d as [|c d IH]; [done |].
    pose proof Hd as Hd'. simpl in Hd'.
    apply andb_true_iff in Hd' as [Hc Hd'].
    rewrite app_cons, search_unfold, <- app_cons.
    rewrite match_number_word_digits, Hw by done. by apply IH.
Qed.

Lemma space_no_digit c : is_space c = true → is_digit c = false.
Proof. by destruct c as [[] [] [] [] [] [] [] []]. Qed.

Lemma all_space_no_digit sp : all_space sp = true → no_digit sp = true.
Proof.
  induction sp as [|c sp IH]; [done |]. simpl.
  intros [Hc Hsp]%andb_true_iff. by rewrite (space_no_digit c Hc), IH.
Qed.

Lemma skip_spaces_app sp r :
  all_space sp = true → skip_spaces (sp +:+ r) = skip_spaces r.
Proof.
  induction sp as [|c sp IH]; [done |]. simpl.
  intros [Hc Hsp]%andb_true_iff. by rewrite Hc, IH.
Qed.

Lemma no_leading_digit_app sp r :
  all_space sp = true → no_leading_digit r = true →
  no_leading_digit (sp +:+ r) = true.
Proof.
  destruct sp as [|c sp]; [done |]. simpl.
  intros [Hc _]%andb_true_iff _. by rewrite (space_no_digit c Hc).
Qed.

Lemma search_none word s :
  no_digit s = true → search_number_word word s = None.
Proof.
  induction s as [|c s IH]; [done |].
  intros [Hc Hs]%andb_true_iff. rewrite search_unfold.
  rewrite match_number_word_no_digit by done. by apply IH.
Qed.

(** *** [split] *)

Lemma split_nonempty c s : split c s ≠ [].
Proof.
  destruct s as [|x s]; simpl; [done |].
  destruct (Ascii.eqb x c); [done |]. by destruct (split c s).
Qed.

Lemma split_lacks c s : lacks c s = true → split c s = [s].
Proof.
  induction s as [|x s IH]; simpl; [done |].
  intros [Hx Hs]%andb_true_iff. apply negb_true_iff in Hx. rewrite Hx.
  by rewrite (IH Hs).
Qed.

Lemma split_app c a b :
  split c (a +:+ String c b) = split c a ++ split c b.
Proof.
  induction a as [|x a IH]; sapp.
  - by rewrite Ascii.eqb_refl.
  - destruct (Ascii.eqb x c); [by rewrite IH |].
    rewrite IH. pose proof (split_nonempty c a).
    by destruct (split c a).
Qed.

End JsTextFacts.

(** X12: [parseDuration] reads a duration written as minutes then seconds.
    For numbers [m] and [s], written in decimal with any zero-padding,
    [m], white space or none, ["minute"], any text without digits, [s],
    white space or none, ["second"] and any text at all gives
    [(60 m + s) * 1000] milliseconds: so for ["05 minutes and 04 seconds"]
    as for ["10minutes5seconds"]. *)
Theorem parseDuration_reads_minutes_then_seconds
    (m s : N) (w1 w2 : nat) (sp1 sp2 between rest : string) :
  (60000 * m + 1000 * s < 2 ^ 53)%N →
  JsText.all_space sp1 = true →
  JsText.all_space sp2 = true →
  JsText.no_digit between = true →
  ClarityApi.parseDuration
    (JsString.padStart0 w1 (JsString.of_N m) +:+ sp1 +:+ "minute" +:+ between
     +:+ JsString.padStart0 w2 (JsString.of_N s) +:+ sp2 +:+ "second" +:+ rest)
  = (60000 * m + 1000 * s)%N.
Proof.
  intros _ Hsp1 Hsp2 Hb. unfold ClarityApi.parseDuration.
  set (M := JsString.padStart0 w1 (JsString.of_N m)).
  set (S := JsString.padStart0 w2 (JsString.of_N s)).
  assert (HM : JsString.all_digits M = true)
    by apply JsStringFacts.all_digits_padStart0, JsStringFacts.all_digits_of_N.
  assert (HS : JsString.all_digits S = true)
    by apply JsStringFacts.all_digits_padStart0, JsStringFacts.all_digits_of_N.
  set (tail := between +:+ S +:+ sp2 +:+ "second" +:+ rest).
  assert (H1 : JsText.no_leading_digit (sp1 +:+ "minute" +:+ tail) = true)
    by (by apply JsTextFacts.no_leading_digit_app).
  assert (H2 : JsText.no_leading_digit (sp2 +:+ "second" +:+ rest) = true)
    by (by apply JsTextFacts.no_leading_digit_app).
  rewrite !(JsTextFacts.search_digits _ M)
    by (try done; apply JsTextFacts.padStart0_nonempty).
  rewrite (JsTextFacts.skip_spaces_app sp1) by done.
  simpl JsText.skip_spaces. simpl JsText.starts_with.
  rewrite (JsTextFacts.search_skip "second" sp1)
    by (by apply JsTextFacts.all_space_no_digit).
  change ("minute" +:+ tail)
    with ("minute" +:+ (between +:+ (S +:+ (sp2 +:+ "second" +:+ rest)))).
  rewrite (JsTextFacts.search_skip "second" "minute") by done.
  rewrite (JsTextFacts.search_skip "second" between) by done.
  rewrite (JsTextFacts.search_digits _ S)
    by (try done; apply JsTextFacts.padStart0_nonempty).
  rewrite (JsTextFacts.skip_spaces_app sp2) by done.
  simpl JsText.skip_spaces. simpl JsText.starts_with.
  unfold M, S. rewrite !JsTextFacts.parseDigits_padStart0. lia.
Qed.

Lemma parseDuration_reads_minutes_then_seconds_witness :
  ClarityApi.parseDuration "05 minutes and 04 seconds" = 304000%N
  ∧ ClarityApi.parseDuration "10minutes5seconds" = 605000%N.
Proof.
  split.
  - apply (parseDuration_reads_minutes_then_seconds 5 4 2 2 " " " " "s and " "s").
    + vm_compute. reflexivity.
    + reflexivity.
    + reflexivity.
    + reflexivity.
  - apply (parseDuration_reads_minutes_then_seconds 10 5 0 0 "" "" "s" "s").
    + vm_compute. reflexivity.
    + reflexivity.
    + reflexivity.
    + reflexivity.
Defined.

(** X13: how long a recording of the [/batch] route is captured for. The
    time is never above the configured timeout and, if that is at least 20
    seconds, never below 20 seconds. A duration text without a digit, the
    empty one included, parses to 0 and so counts as five minutes, giving 5
    min 15 s or the timeout if that is shorter; a text that parses to [d > 0]
    gives [d] plus 15 seconds when that lies within the two bounds. *)
Theorem batch_recording_time_is_bounded
    (totalDuration : string) (recordingTimeoutMinutes : Z) :
  (Browserless.batchRecordDuration totalDuration recordingTimeoutMinutes
   ≤ recordingTimeoutMinutes * 60 * 1000)%Z
  ∧ ((20000 ≤ recordingTimeoutMinutes * 60 * 1000)%Z →
     (20000 ≤ Browserless.batchRecordDuration totalDuration
                recordingTimeoutMinutes)%Z)
  ∧ (JsText.no_digit totalDuration = true →
     ClarityApi.parseDuration totalDuration = 0%N
     ∧ Browserless.batchRecordDuration totalDuration recordingTimeoutMinutes
       = Z.min 315000 (recordingTimeoutMinutes * 60 * 1000))
  ∧ (ClarityApi.parseDuration totalDuration ≠ 0%N →
     (20000 ≤ Z.of_N (ClarityApi.parseDuration totalDuration) + 15000
      ≤ recordingTimeoutMinutes * 60 * 1000)%Z →
     Browserless.batchRecordDuration totalDuration recordingTimeoutMinutes
     = (Z.of_N (ClarityApi.parseDuration totalDuration) + 15000)%Z).
Proof.
  unfold Browserless.batchRecordDuration, Browserless.recordDuration,
    Browserless.batchDurationMs.
  split_and!.
  - lia.
  - lia.
  - intros Hn.
    assert (H0 : ClarityApi.parseDuration totalDuration = 0%N).
    { unfold ClarityApi.parseDuration.
      by rewrite !JsTextFacts.search_none. }
    rewrite H0. simpl N.eqb. cbv iota. split; [done | lia].
  - intros Hne Hb. destruct (N.eqb_spec (ClarityApi.parseDuration totalDuration) 0);
      [done | lia].
Qed.

Lemma batch_recording_time_is_bounded_witness :
  Browserless.batchRecordDuration "" 35 = 315000%Z
  ∧ Browserless.batchRecordDuration "40 minutes and 00 seconds" 35 = 2100000%Z
  ∧ Browserless.batchRecordDuration "05 minutes and 04 seconds" 35 = 319000%Z.
Proof.
  split_and!.
  - destruct (batch_recording_time_is_bounded "" 35) as (_ & _ & Hnone & _).
    destruct Hnone as [_ ->]; reflexivity.
  - destruct (batch_recording_time_is_bounded "40 minutes and 00 seconds" 35)
      as (Hmax & _).
    apply Z.le_antisymm; [exact Hmax | vm_compute; discriminate].
  - destruct (batch_recording_time_is_bounded "05 minutes and 04 seconds" 35)
      as (_ & _ & _ & Hin).
    rewrite Hin; [reflexivity | vm_compute; discriminate | vm_compute].
    split; discriminate.
Defined.

(** X14: [extractSessionId] returns the last but one of the parts of the
    URL between slashes. For a player URL ending in [/sessionId/recordingId]
    that is the session id; with a slash at the end it is the recording id
    instead; and for a text without a slash it is [undefined]. *)
Theorem extractSessionId_takes_second_to_last_part
    (base sessionId recordingId : string) :
  JsText.lacks "/" sessionId = true →
  JsText.lacks "/" recordingId = true →
  ClarityApi.extractSessionId
    (base +:+ "/" +:+ sessionId +:+ "/" +:+ recordingId) = Some sessionId
  ∧ ClarityApi.extractSessionId
      (base +:+ "/" +:+ sessionId +:+ "/" +:+ recordingId +:+ "/")
    = Some recordingId
  ∧ ClarityApi.extractSessionId recordingId = None.
Proof.
  intros Hs Hr. unfold ClarityApi.extractSessionId.
  pose proof (JsTextFacts.split_nonempty "/" base) as Hb.
  split_and!.
  - change (base +:+ "/" +:+ sessionId +:+ "/" +:+ recordingId)
      with (base +:+ String "/" (sessionId +:+ String "/" recordingId)).
    rewrite !JsTextFacts.split_app, (JsTextFacts.split_lacks _ _ Hs),
      (JsTextFacts.split_lacks _ _ Hr).
    rewrite !length_app. simpl length.
    rewrite decide_True by lia.
    rewrite lookup_app_r by lia.
    by replace (length (JsText.split "/" base) + (1 + 1) - 2
                - length (JsText.split "/" base)) with 0 by lia.
  - change (base +:+ "/" +:+ sessionId +:+ "/" +:+ recordingId +:+ "/")
      with (base +:+ String "/" (sessionId +:+ String "/"
                                    (recordingId +:+ String "/" ""))).
    rewrite !JsTextFacts.split_app, (JsTextFacts.split_lacks _ _ Hs),
      (JsTextFacts.split_lacks _ _ Hr).
    rewrite !length_app. simpl length.
    rewrite decide_True by lia.
    rewrite lookup_app_r by lia.
    by replace (length (JsText.split "/" base) + (1 + (1 + 1)) - 2
                - length (JsText.split "/" base)) with 1 by lia.
  - by rewrite JsTextFacts.split_lacks.
Qed.

Lemma extractSessionId_takes_second_to_last_part_witness :
  ClarityApi.extractSessionId
    "https://clarity.microsoft.com/player/proj1/sess42/rec7" = Some "sess42".
Proof.
  destruct (extractSessionId_takes_second_to_last_part
              "https://clarity.microsoft.com/player/proj1" "sess42" "rec7")
    as (Hid & _); [reflexivity | reflexivity |].
  exact Hid.
Defined.

(** ** Retrying *)

Module RetryFacts.
Import Retry.

Lemma calls_Call k evs : calls (Call k :: evs) = k :: calls evs.
Proof. reflexivity. Qed.

Lemma calls_Sleep ms evs : calls (Sleep ms :: evs) = calls evs.
Proof. reflexivity. Qed.

Lemma sleeps_Call k evs : sleeps (Call k :: evs) = sleeps evs.
Proof. reflexivity. Qed.

Lemma sleeps_Sleep ms evs : sleeps (Sleep ms :: evs) = ms :: sleeps evs.
Proof. reflexivity. Qed.

Section WithFn.
Context {A : Type} (fn : nat → Settled A).

Lemma loop_S remaining attempt lastError :
  loop fn (S remaining) attempt lastError
  = match fn attempt with
    | Fulfilled v => ([Call attempt], Returned v)
    | RejectedWith error =>
        (Call attempt
         :: match remaining with
            | O => (loop fn remaining (S attempt) (Some error)).1
            | S _ =>
                Sleep (5000 * 3 ^ N.of_nat (attempt - 1))%N
                :: (loop fn remaining (S attempt) (Some error)).1
            end,
         (loop fn remaining (S attempt) (Some error)).2)
    end.
Proof. reflexivity. Qed.

Lemma loop_success k : ∀ remaining attempt lastError v,
  k < remaining →
  (∀ j, j < k → ∃ e, fn (attempt + j) = RejectedWith e) →
  fn (attempt + k) = Fulfilled v →
  (loop fn remaining attempt lastError).2 = Returned v
  ∧ calls (loop fn remaining attempt lastError).1 = seq attempt (S k)
  ∧ sleeps (loop fn remaining attempt lastError).1
    = (λ j, 5000 * 3 ^ N.of_nat (j - 1))%N <$> seq attempt k.
Proof.
  induction k as [|k IH]; intros remaining attempt lastError v Hk Hrej Hok.
  - destruct remaining as [|remaining]; [lia |]. simpl.
    rewrite Nat.add_0_r in Hok. by rewrite Hok.
  - destruct remaining as [|[|remaining]]; [lia | lia |].
    destruct (Hrej 0 ltac:(lia)) as [e He]. rewrite Nat.add_0_r in He.
    rewrite loop_S, He.
    destruct (IH (S remaining) (S attempt) (Some e) v) as (H1 & H2 & H3).
    + lia.
    + intros j Hj. destruct (Hrej (S j) ltac:(lia)) as [e' He'].
      exists e'. by rewrite <- He', Nat.add_succ_r.
    + by rewrite <- Hok, Nat.add_succ_r.
    + cbn [fst snd]. split_and!; [done | |].
      * by rewrite calls_Call, calls_Sleep, H2.
      * by rewrite sleeps_Call, sleeps_Sleep, H3.
Qed.

Lemma loop_failure remaining : ∀ attempt lastError,
  (∀ j, j < remaining → ∃ e, fn (attempt + j) = RejectedWith e) →
  calls (loop fn remaining attempt lastError).1 = seq attempt remaining
  ∧ sleeps (loop fn remaining attempt lastError).1
    = (λ j, 5000 * 3 ^ N.of_nat (j - 1))%N <$> seq attempt (remaining - 1)
  ∧ (remaining = 0 → (loop fn remaining attempt lastError).2 = Threw lastError)
  ∧ (∀ e, 0 < remaining → fn (attempt + remaining - 1) = RejectedWith e →
          (loop fn remaining attempt lastError).2 = Threw (Some e)).
Proof.
  induction remaining as [|remaining IH]; intros attempt lastError Hrej.
  - simpl. split_and!; try done. lia.
  - destruct (Hrej 0 ltac:(lia)) as [e He]. rewrite Nat.add_0_r in He.
    rewrite loop_S, He.
    destruct (IH (S attempt) (Some e)) as (H1 & H2 & H3 & H4).
    { intros j Hj. destruct (Hrej (S j) ltac:(lia)) as [e' He'].
      exists e'. by rewrite <- He', Nat.add_succ_r. }
    cbn [fst snd]. split_and!.
    + destruct remaining; rewrite calls_Call, ?calls_Sleep, H1; done.
    + destruct remaining; rewrite sleeps_Call, ?sleeps_Sleep, H2; [done |].
      simpl. by rewrite Nat.sub_0_r.
    + done.
    + intros e' _ He'. destruct remaining as [|remaining].
      * rewrite H3 by done. f_equal. f_equal.
        replace (attempt + 1 - 1) with attempt in He' by lia. congruence.
      * apply H4; [lia |]. rewrite <- He'. f_equal. lia.
Qed.

End WithFn.
End RetryFacts.

(** X15: [withRetry] returns the value of the first call of [fn] that
    succeeds, if that is within [maxAttempts]: with the first [k - 1] calls
    rejecting and the [k]-th resolving, [fn] is called exactly [k] times, the
    waits before calls 2, 3, ... , [k] are 5 s, 15 s, 45 s, ... (5 s times
    3 to the number of failures so far less one), and nothing is waited
    after the success. *)
Theorem withRetry_returns_the_first_success
    {A : Type} (fn : nat → Settled A) (maxAttempts : Z) (k : nat) (v : A) :
  1 ≤ k → (Z.of_nat k ≤ maxAttempts)%Z →
  (∀ j, 1 ≤ j < k → ∃ e, fn j = RejectedWith e) →
  fn k = Fulfilled v →
  (Retry.withRetry fn maxAttempts).2 = Retry.Returned v
  ∧ Retry.calls (Retry.withRetry fn maxAttempts).1 = seq 1 k
  ∧ Retry.sleeps (Retry.withRetry fn maxAttempts).1
    = (λ j, 5000 * 3 ^ N.of_nat (j - 1))%N <$> seq 1 (k - 1).
Proof.
  intros Hk Hmax Hrej Hok. unfold Retry.withRetry.
  destruct k as [|k]; [lia |].
  destruct (RetryFacts.loop_success fn k (Z.to_nat maxAttempts) 1 None v)
    as (H1 & H2 & H3).
  - lia.
  - intros j Hj. apply Hrej. lia.
  - by replace (1 + k) with (S k) by lia.
  - split_and!; [done | done |]. rewrite H3. f_equal. f_equal. lia.
Qed.

Lemma withRetry_returns_the_first_success_witness :
  (Retry.withRetry
     (λ k, if decide (k = 3) then Fulfilled "video"
           else RejectedWith {| message := "timeout" |}) 3).2
  = Retry.Returned "video"
  ∧ Retry.sleeps
      (Retry.withRetry
         (λ k, if decide (k = 3) then Fulfilled "video"
               else RejectedWith {| message := "timeout" |}) 3).1
    = [5000; 15000]%N.
Proof.
  destruct (withRetry_returns_the_first_success
              (λ k, if decide (k = 3) then Fulfilled "video"
                    else RejectedWith {| message := "timeout" |}) 3 3 "video")
    as (Hv & _ & Hs).
  - lia.
  - lia.
  - intros j Hj. exists {| message := "timeout" |}.
    destruct (decide (j = 3)); [lia | reflexivity].
  - reflexivity.
  - split; [exact Hv | exact Hs].
Defined.

(** X16: when every call of [fn] within [maxAttempts] rejects, [withRetry]
    calls it [maxAttempts] times, waits 5 s, 15 s, ... between the calls and
    not after the last one, and throws the error of the last call. With
    [maxAttempts] zero or negative it never calls [fn] and throws
    [undefined]. *)
Theorem withRetry_throws_the_last_error
    {A : Type} (fn : nat → Settled A) (maxAttempts : Z) :
  (∀ j, 1 ≤ j ≤ Z.to_nat maxAttempts → ∃ e, fn j = RejectedWith e) →
  Retry.calls (Retry.withRetry fn maxAttempts).1 = seq 1 (Z.to_nat maxAttempts)
  ∧ Retry.sleeps (Retry.withRetry fn maxAttempts).1
    = (λ j, 5000 * 3 ^ N.of_nat (j - 1))%N <$> seq 1 (Z.to_nat maxAttempts - 1)
  ∧ ((maxAttempts ≤ 0)%Z →
     Retry.withRetry fn maxAttempts = ([], Retry.Threw None))
  ∧ (∀ e, (1 ≤ maxAttempts)%Z → fn (Z.to_nat maxAttempts) = RejectedWith e →
          (Retry.withRetry fn maxAttempts).2 = Retry.Threw (Some e)).
Proof.
  intros Hrej. unfold Retry.withRetry.
  destruct (RetryFacts.loop_failure fn (Z.to_nat maxAttempts) 1 None)
    as (H1 & H2 & H3 & H4).
  { intros j Hj. apply Hrej. lia. }
  split_and!; [done | done | |].
  - intros Hle. replace (Z.to_nat maxAttempts) with 0 by lia. done.
  - intros e Hge He. apply H4; [lia |].
    by replace (1 + Z.to_nat maxAttempts - 1) with (Z.to_nat maxAttempts) by lia.
Qed.

Lemma withRetry_throws_the_last_error_witness :
  Retry.calls
    (Retry.withRetry
       (λ k, RejectedWith (A := string) {| message := "timeout" |}) 3).1
  = [1; 2; 3]
  ∧ Retry.sleeps
      (Retry.withRetry
         (λ k, RejectedWith (A := string) {| message := "timeout" |}) 3).1
    = [5000; 15000]%N
  ∧ (Retry.withRetry
       (λ k, RejectedWith (A := string) {| message := "timeout" |}) 3).2
    = Retry.Threw (Some {| message := "timeout" |}).
Proof.
  destruct (withRetry_throws_the_last_error
              (λ k, RejectedWith (A := string) {| message := "timeout" |}) 3)
    as (Hc & Hs & _ & He).
  - intros j _. by eexists.
  - split_and!; [exact Hc | exact Hs | apply He; [lia | reflexivity]].
Defined.

(** ** Cookies *)

Module CookieFacts.
Import CookieUtils.

Lemma orString_idem o d :
  d ≠ "" → Queue.orString (Some (Queue.orString o d)) d = Queue.orString o d.
Proof.
  intros Hd. unfold Queue.orString at 1.
  destruct (String.eqb_spec (Queue.orString o d) ""); [| done].
  revert e. unfold Queue.orString. destruct o as [u|]; [| done].
  destruct (String.eqb_spec u ""); done.
Qed.

Lemma normalSameSite_cases s :
  normalSameSite s = "None" ∨ normalSameSite s = "Lax"
  ∨ normalSameSite s = "Strict".
Proof.
  unfold normalSameSite.
  destruct (_ || _); [by left |].
  destruct (_ || _); [right; by left |].
  destruct (_ || _); [right; by right | right; by left].
Qed.

Lemma normalSameSite_idem s :
  normalSameSite (Some (normalSameSite s)) = normalSameSite s.
Proof. by destruct (normalSameSite_cases s) as [-> | [-> | ->]]. Qed.

Lemma scan_authExpiryMs acc c :
  scan acc c
  = match authExpiryMs c, name c with
    | Some ms, Some n =>
        match acc with
        | None => Some (ms, n)
        | Some (earliest, _) => if Z.ltb ms earliest then Some (ms, n) else acc
        end
    | _, _ => acc
    end.
Proof.
  unfold scan, authExpiryMs. destruct (name c) as [n|]; [| done].
  destruct (bool_decide (n ∈ authCookieNames)); [| done].
  destruct (orNumber (expires c) (expirationDate c)) as [e|]; [| done].
  by destruct (Z.ltb 0 e).
Qed.

Lemma authExpiryMs_name c ms : authExpiryMs c = Some ms → is_Some (name c).
Proof. unfold authExpiryMs. by destruct (name c). Qed.

Lemma earliest_snoc cs c :
  earliestAuthExpiry (cs ++ [c]) = scan (earliestAuthExpiry cs) c.
Proof. unfold earliestAuthExpiry. by rewrite foldl_app. Qed.

(** The loop keeps the least expiry seen, with the name of the first cookie
    that has it. *)
Lemma earliest_spec cs :
  match earliestAuthExpiry cs with
  | None => ∀ c, c ∈ cs → authExpiryMs c = None
  | Some (ms, n) =>
      (∀ c ms', c ∈ cs → authExpiryMs c = Some ms' → (ms ≤ ms')%Z)
      ∧ ∃ i c, cs !! i = Some c ∧ authExpiryMs c = Some ms ∧ name c = Some n
               ∧ ∀ j c', j < i → cs !! j = Some c' → authExpiryMs c' ≠ Some ms
  end.
Proof.
  induction cs as [|c cs IH] using rev_ind.
  - simpl. by intros c ?%elem_of_nil.
  - rewrite earliest_snoc, scan_authExpiryMs.
    destruct (authExpiryMs c) as [ms|] eqn:Hc.
    + destruct (authExpiryMs_name _ _ Hc) as [n Hn]. rewrite Hn.
      destruct (earliestAuthExpiry cs) as [[earliest n0]|].
      * destruct IH as (Hmin & i & c0 & Hi & Hc0 & Hn0 & Hfirst).
        destruct (Z.ltb_spec ms earliest).
        -- split.
           ++ intros c' ms' [Hin | ->%list_elem_of_singleton]%elem_of_app Hc'.
              ** specialize (Hmin c' ms' Hin Hc'). lia.
              ** rewrite Hc in Hc'. injection Hc' as <-. lia.
           ++ exists (length cs), c. split_and!; try done.
              ** by rewrite lookup_app_r, Nat.sub_diag by lia.
              ** intros j c' Hj Hj' Hc'. rewrite lookup_app_l in Hj' by done.
                 apply list_elem_of_lookup_2 in Hj'.
                 specialize (Hmin c' ms Hj' Hc'). lia.
        -- split.
           ++ intros c' ms' [Hin | ->%list_elem_of_singleton]%elem_of_app Hc'.
              ** by apply (Hmin c').
              ** rewrite Hc in Hc'. injection Hc' as <-. lia.
           ++ exists i, c0. pose proof (lookup_lt_Some _ _ _ Hi) as Hlt.
              split_and!; try done.
              ** by rewrite lookup_app_l.
              ** intros j c' Hj Hj'. rewrite lookup_app_l in Hj' by lia.
                 by apply (Hfirst j).
      * split.
        -- intros c' ms' [Hin | ->%list_elem_of_singleton]%elem_of_app Hc'.
           ++ by rewrite (IH c' Hin) in Hc'.
           ++ rewrite Hc in Hc'. injection Hc' as <-. lia.
        -- exists (length cs), c. split_and!; try done.
           ++ by rewrite lookup_app_r, Nat.sub_diag by lia.
           ++ intros j c' Hj Hj' Hc'. rewrite lookup_app_l in Hj' by done.
              apply list_elem_of_lookup_2 in Hj'. by rewrite (IH c' Hj') in Hc'.
    + destruct (earliestAuthExpiry cs) as [[earliest n0]|].
      * destruct IH as (Hmin & i & c0 & Hi & Hc0 & Hn0 & Hfirst).
        pose proof (lookup_lt_Some _ _ _ Hi) as Hlt. split.
        -- intros c' ms' [Hin | ->%list_elem_of_singleton]%elem_of_app Hc'.
           ++ by apply (Hmin c').
           ++ by rewrite Hc in Hc'.
        -- exists i, c0. split_and!; try done.
           ++ by rewrite lookup_app_l.
           ++ intros j c' Hj Hj'. rewrite lookup_app_l in Hj' by lia.
              by apply (Hfirst j).
      * intros c' [Hin | ->%list_elem_of_singleton]%elem_of_app; [by apply IH | done].
Qed.

Lemma expiryMs_pos e : (0 < e)%Z → (0 < expiryMs e)%Z.
Proof. unfold expiryMs. destruct (Z.ltb_spec 9999999999 e); lia. Qed.

End CookieFacts.

(** X17: [normalizeCookie] is idempotent, and what it returns is in normal
    form: [sameSite] is one of ['None'], ['Lax'] and ['Strict'], [domain]
    and [path] are not empty, [expires] is never 0 (a cookie with neither
    [expires] nor [expirationDate] gets -1), [httpOnly] and [secure] are
    set, and [name] and [value] are passed on as they are. *)
Theorem normalizeCookie_is_idempotent (cookie : CookieUtils.Cookie) :
  CookieUtils.normalizeCookie (CookieUtils.normalizeCookie cookie)
  = CookieUtils.normalizeCookie cookie
  ∧ (∃ s, CookieUtils.sameSite (CookieUtils.normalizeCookie cookie) = Some s
          ∧ (s = "None" ∨ s = "Lax" ∨ s = "Strict"))
  ∧ (∃ d p e,
       CookieUtils.domain (CookieUtils.normalizeCookie cookie) = Some d
       ∧ CookieUtils.path (CookieUtils.normalizeCookie cookie) = Some p
       ∧ CookieUtils.expires (CookieUtils.normalizeCookie cookie) = Some e
       ∧ d ≠ "" ∧ p ≠ "" ∧ e ≠ 0%Z
       ∧ (CookieUtils.expires cookie = None →
          CookieUtils.expirationDate cookie = None → e = (-1)%Z))
  ∧ CookieUtils.name (CookieUtils.normalizeCookie cookie)
    = CookieUtils.name cookie
  ∧ CookieUtils.value (CookieUtils.normalizeCookie cookie)
    = CookieUtils.value cookie.
Proof.
  assert (Hor : ∀ o d, d ≠ "" → Queue.orString o d ≠ "").
  { intros o d Hd. unfold Queue.orString. destruct o as [u|]; [| done].
    by destruct (String.eqb_spec u ""). }
  assert (He : ∀ a b,
            default (-1)%Z (CookieUtils.orNumber (CookieUtils.orNumber a b)
                              (Some (-1)%Z)) ≠ 0%Z).
  { intros a b. unfold CookieUtils.orNumber.
    destruct a as [x|]; [destruct (Z.eqb_spec x 0) |];
      try (destruct b as [y|]; [destruct (Z.eqb_spec y 0) |]); simpl;
      try rewrite (proj2 (Z.eqb_neq _ _)) by done; simpl; lia. }
  split_and!.
  - unfold CookieUtils.normalizeCookie.
    cbn [CookieUtils.name CookieUtils.value CookieUtils.domain CookieUtils.path
         CookieUtils.expires CookieUtils.expirationDate CookieUtils.httpOnly
         CookieUtils.secure CookieUtils.sameSite default].
    rewrite !CookieFacts.orString_idem, CookieFacts.normalSameSite_idem by done.
    f_equal. f_equal. specialize (He (CookieUtils.expires cookie)
                                    (CookieUtils.expirationDate cookie)).
    revert He. generalize (default (-1)%Z
      (CookieUtils.orNumber
         (CookieUtils.orNumber (CookieUtils.expires cookie)
            (CookieUtils.expirationDate cookie)) (Some (-1)%Z))).
    intros e He. unfold CookieUtils.orNumber.
    rewrite (proj2 (Z.eqb_neq _ _)) by done. simpl.
    by rewrite (proj2 (Z.eqb_neq _ _)) by done.
  - eexists. split; [reflexivity |]. apply CookieFacts.normalSameSite_cases.
  - eexists _, _, _. split_and!; try reflexivity.
    + by apply Hor.
    + by apply Hor.
    + apply He.
    + intros -> ->. reflexivity.
  - reflexivity.
  - reflexivity.
Qed.

Lemma normalizeCookie_is_idempotent_witness :
  CookieUtils.expires
    (CookieUtils.normalizeCookie (Samples.cookie "MUID" None None))
  = Some (-1)%Z.
Proof.
  destruct (normalizeCookie_is_idempotent (Samples.cookie "MUID" None None))
    as (_ & _ & (d & p & e & _ & _ & He & _ & _ & _ & Hm) & _).
  rewrite He. f_equal. apply Hm; reflexivity.
Defined.

(** X18: the loop of [checkCookieExpiry]. It finds nothing exactly when no
    cookie is one of the four authentication cookies with an expiry above
    0. Otherwise the expiry it keeps, in milliseconds, is the least among
    those cookies, and the name it keeps is that of the first cookie of the
    array with that expiry. An expiry up to 9999999999 counts as seconds and
    is multiplied by 1000. *)
Theorem earliestAuthExpiry_is_the_least (cookies : list CookieUtils.Cookie) :
  (CookieUtils.earliestAuthExpiry cookies = None
   ↔ ∀ c, c ∈ cookies → CookieUtils.authExpiryMs c = None)
  ∧ (∀ ms n,
       CookieUtils.earliestAuthExpiry cookies = Some (ms, n) →
       (0 < ms)%Z
       ∧ (∀ c ms', c ∈ cookies → CookieUtils.authExpiryMs c = Some ms' →
                   (ms ≤ ms')%Z)
       ∧ ∃ i c,
           cookies !! i = Some c
           ∧ CookieUtils.authExpiryMs c = Some ms
           ∧ CookieUtils.name c = Some n
           ∧ n ∈ CookieUtils.authCookieNames
           ∧ ∀ j c', j < i → cookies !! j = Some c' →
                     CookieUtils.authExpiryMs c' ≠ Some ms).
Proof.
  pose proof (CookieFacts.earliest_spec cookies) as Hspec.
  destruct (CookieUtils.earliestAuthExpiry cookies) as [[ms0 n0]|].
  - destruct Hspec as (Hmin & i & c & Hi & Hc & Hn & Hfirst). split.
    + split; [done |]. intros Hall.
      rewrite (Hall c) in Hc; [done |]. by eapply list_elem_of_lookup_2.
    + intros ms n [= <- <-]. split_and!; [| done |].
      * revert Hc. unfold CookieUtils.authExpiryMs. rewrite Hn.
        destruct (bool_decide _); [| done].
        destruct (CookieUtils.orNumber _ _) as [e|]; [| done].
        destruct (Z.ltb_spec 0 e); [| done]. intros [= <-].
        by apply CookieFacts.expiryMs_pos.
      * exists i, c. split_and!; try done.
        revert Hc. unfold CookieUtils.authExpiryMs. rewrite Hn.
        destruct (bool_decide_reflect (n0 ∈ CookieUtils.authCookieNames)); done.
  - split; [done |]. intros ms n [=].
Qed.

Lemma earliestAuthExpiry_is_the_least_witness :
  ∃ i c,
    [ {| CookieUtils.name := Some "MUID"; CookieUtils.value := Some "x";
         CookieUtils.domain := None; CookieUtils.path := None;
         CookieUtils.expires := Some 1700000000%Z;
         CookieUtils.expirationDate := None; CookieUtils.httpOnly := None;
         CookieUtils.secure := None; CookieUtils.sameSite := None |};
      {| CookieUtils.name := Some "ESTSAUTH"; CookieUtils.value := Some "y";
         CookieUtils.domain := None; CookieUtils.path := None;
         CookieUtils.expires := None;
         CookieUtils.expirationDate := Some 1800000000%Z;
         CookieUtils.httpOnly := None; CookieUtils.secure := None;
         CookieUtils.sameSite := None |};
      {| CookieUtils.name := Some "aadprofile"; CookieUtils.value := Some "z";
         CookieUtils.domain := None; CookieUtils.path := None;
         CookieUtils.expires := Some 1750000000000%Z;
         CookieUtils.expirationDate := None; CookieUtils.httpOnly := None;
         CookieUtils.secure := None; CookieUtils.sameSite := None |} ] !! i
    = Some c
    ∧ CookieUtils.authExpiryMs c = Some 1750000000000%Z
    ∧ CookieUtils.name c = Some "aadprofile".
Proof.
  destruct (earliestAuthExpiry_is_the_least
    [ {| CookieUtils.name := Some "MUID"; CookieUtils.value := Some "x";
         CookieUtils.domain := None; CookieUtils.path := None;
         CookieUtils.expires := Some 1700000000%Z;
         CookieUtils.expirationDate := None; CookieUtils.httpOnly := None;
         CookieUtils.secure := None; CookieUtils.sameSite := None |};
      {| CookieUtils.name := Some "ESTSAUTH"; CookieUtils.value := Some "y";
         CookieUtils.domain := None; CookieUtils.path := None;
         CookieUtils.expires := None;
         CookieUtils.expirationDate := Some 1800000000%Z;
         CookieUtils.httpOnly := None; CookieUtils.secure := None;
         CookieUtils.sameSite := None |};
      {| CookieUtils.name := Some "aadprofile"; CookieUtils.value := Some "z";
         CookieUtils.domain := None; CookieUtils.path := None;
         CookieUtils.expires := Some 1750000000000%Z;
         CookieUtils.expirationDate := None; CookieUtils.httpOnly := None;
         CookieUtils.secure := None; CookieUtils.sameSite := None |} ])
    as [_ Hsome].
  destruct (Hsome 1750000000000%Z "aadprofile" eq_refl)
    as (_ & _ & i & c & Hi & Hc & Hn & _).
  exists i, c. split_and!; [exact Hi | exact Hc | exact Hn].
Defined.

(** X19: the fields of what [checkCookieExpiry] returns agree with one
    another. With no authentication cookie the answer is the 'not found'
    object, in which [valid] is false and [expired] is not set. Otherwise
    [expired] is the negation of [valid]; [daysRemaining] is
    [hoursRemaining] divided by 24, rounded down, is at least 0 when valid
    and at most 0 when expired; and the warning level is 'expired' exactly
    when expired, 'critical' when valid with at most 3 days, 'warning' with
    4 to 7 days and 'ok' with 8 or more. *)
Theorem checkCookieExpiry_fields_agree
    (toLocaleDateString : Z → string) (cookies : list CookieUtils.Cookie)
    (now : Z) (info : CookieUtils.ExpiryInfo) :
  CookieUtils.checkCookieExpiry toLocaleDateString cookies now = Some info →
  (CookieUtils.authCookie info = None → info = CookieUtils.notFound)
  ∧ (is_Some (CookieUtils.authCookie info) →
     ∃ days hours level,
       CookieUtils.expired info = Some (negb (CookieUtils.valid info))
       ∧ CookieUtils.daysRemaining info = Some days
       ∧ CookieUtils.hoursRemaining info = Some hours
       ∧ CookieUtils.warningLevel info = Some level
       ∧ days = (hours / 24)%Z
       ∧ (CookieUtils.valid info = true → (0 ≤ days)%Z)
       ∧ (CookieUtils.valid info = false → (days ≤ 0)%Z)
       ∧ (level = CookieUtils.LevelExpired ↔ CookieUtils.valid info = false)
       ∧ (level = CookieUtils.LevelCritical
          ↔ CookieUtils.valid info = true ∧ (days ≤ 3)%Z)
       ∧ (level = CookieUtils.LevelWarning
          ↔ CookieUtils.valid info = true ∧ (4 ≤ days ≤ 7)%Z)
       ∧ (level = CookieUtils.LevelOk
          ↔ CookieUtils.valid info = true ∧ (8 ≤ days)%Z)).
Proof.
  unfold CookieUtils.checkCookieExpiry.
  destruct (CookieUtils.earliestAuthExpiry cookies) as [[ms n]|].
  - destruct (Z.ltb_spec 8640000000000000 ms); [done |].
    intros [= <-]. cbn [CookieUtils.authCookie CookieUtils.expired
      CookieUtils.valid CookieUtils.daysRemaining CookieUtils.hoursRemaining
      CookieUtils.warningLevel].
    split; [done |]. intros _.
    eexists _, _, _. split_and!; try reflexivity.
    + f_equal. destruct (Z.ltb_spec now ms), (Z.leb_spec ms now); simpl; lia.
    + rewrite Z.div_div by lia. reflexivity.
    + intros Hv%Z.ltb_lt. apply Z.div_pos; lia.
    + intros Hv%Z.ltb_ge.
      pose proof (Z.div_le_upper_bound (ms - now) (1000 * 60 * 60 * 24) 0) as Hd.
      apply Hd; lia.
    + destruct (Z.leb_spec ms now), (Z.ltb_spec now ms); try lia;
        repeat case_match; split; try done; lia.
    + destruct (Z.leb_spec ms now), (Z.ltb_spec now ms); try lia;
        repeat case_match; split; try done; try lia;
        rewrite ?Z.leb_le, ?Z.leb_gt in *; intros [? ?]; try done; lia.
    + destruct (Z.leb_spec ms now), (Z.ltb_spec now ms); try lia;
        repeat case_match; split; try done; try lia;
        rewrite ?Z.leb_le, ?Z.leb_gt in *; try intros [? ?]; try done;
        try lia; intros _; split; try done; lia.
    + destruct (Z.leb_spec ms now), (Z.ltb_spec now ms); try lia;
        repeat case_match; split; try done; try lia;
        rewrite ?Z.leb_le, ?Z.leb_gt in *; try intros [? ?]; try done;
        try lia; intros _; split; try done; lia.
  - intros [= <-]. split; [done |]. by intros [? ?].
Qed.

Lemma checkCookieExpiry_fields_agree_witness :
  ∃ days hours level,
    CookieUtils.daysRemaining
      {| CookieUtils.valid := true; CookieUtils.expired := Some false;
         CookieUtils.error := None; CookieUtils.authCookie := Some "aadprofile";
         CookieUtils.expiresAt := Some "2025-06-15T15:06:40.000Z";
         CookieUtils.expiresAtFormatted := Some "2025-06-15T15:06:40.000Z";
         CookieUtils.daysRemaining := Some 5%Z;
         CookieUtils.hoursRemaining := Some 135%Z;
         CookieUtils.warningLevel := Some CookieUtils.LevelWarning |}
    = Some days
    ∧ days = (hours / 24)%Z
    ∧ (level = CookieUtils.LevelWarning ↔ true = true ∧ (4 ≤ days ≤ 7)%Z).
Proof.
  destruct (checkCookieExpiry_fields_agree Samples.locale Samples.exported
              Samples.before
              {| CookieUtils.valid := true; CookieUtils.expired := Some false;
                 CookieUtils.error := None;
                 CookieUtils.authCookie := Some "aadprofile";
                 CookieUtils.expiresAt := Some "2025-06-15T15:06:40.000Z";
                 CookieUtils.expiresAtFormatted := Some "2025-06-15T15:06:40.000Z";
                 CookieUtils.daysRemaining := Some 5%Z;
                 CookieUtils.hoursRemaining := Some 135%Z;
                 CookieUtils.warningLevel := Some CookieUtils.LevelWarning |})
    as [_ Hfound].
  { vm_compute. reflexivity. }
  destruct Hfound as (days & hours & level & _ & Hd & _ & _ & Hdh & _ & _ & _
                      & _ & Hw & _).
  { by eexists. }
  exists days, hours, level. split_and!; [exact Hd | exact Hdh | exact Hw].
Defined.

(** X20: the cookie check that opens the [/capture] and [/batch] handlers,
    for [clarityCookies] an array or absent. Without [clarityCookies] the
    answer is 400. With an array, the answer is 400 exactly when the
    earliest authentication cookie has expired; an array with no
    authentication cookie, the empty one included, is let through. Slack is
    notified exactly when a webhook URL is set and an authentication cookie
    was found with at most 7 days left. *)
Theorem cookieGate_rejects_absent_or_expired_cookies
    (toLocaleDateString : Z → string) (cookies : list CookieUtils.Cookie)
    (slackWebhookUrl : option string) (now : Z)
    (gate : CookieUtils.Gate) (notified : bool) :
  CookieUtils.cookieGate toLocaleDateString (Some cookies) slackWebhookUrl now
  = Some (gate, notified) →
  (∃ e, CookieUtils.cookieGate toLocaleDateString None slackWebhookUrl now
        = Some (CookieUtils.Reject400 e None, false))
  ∧ ((∃ e i, gate = CookieUtils.Reject400 e i)
     ↔ ∃ ms n, CookieUtils.earliestAuthExpiry cookies = Some (ms, n)
               ∧ (ms ≤ now)%Z)
  ∧ (CookieUtils.earliestAuthExpiry cookies = None →
     gate = CookieUtils.Proceed CookieUtils.notFound ∧ notified = false)
  ∧ (notified = true
     ↔ Queue.truthy slackWebhookUrl = true
       ∧ ∃ ms n, CookieUtils.earliestAuthExpiry cookies = Some (ms, n)
                 ∧ ((ms - now) / 86400000 ≤ 7)%Z).
Proof.
  unfold CookieUtils.cookieGate, CookieUtils.checkCookieExpiry.
  destruct (CookieUtils.earliestAuthExpiry cookies) as [[ms n]|].
  - destruct (Z.ltb_spec 8640000000000000 ms); [done |].
    cbn [CookieUtils.expired CookieUtils.daysRemaining default].
    change (1000 * 60 * 60 * 24)%Z with 86400000%Z.
    destruct (Z.leb_spec ms now) as [Hexp | Hval].
    + intros [= <- <-]. split_and!.
      * by eexists.
      * split; [intros _; by eexists _, _ | intros _; by eexists _, _].
      * done.
      * split.
        -- intros Ht. split; [done |]. eexists _, _. split; [done |].
           pose proof (Z.div_le_upper_bound (ms - now) 86400000 0). lia.
        -- by intros [Ht _].
    + intros [= <- <-]. split_and!.
      * by eexists.
      * split; [by intros (e & i & ?) |].
        intros (ms' & n' & [= <- <-] & Hle). lia.
      * done.
      * rewrite andb_true_iff, Z.leb_le. split.
        -- intros [Hd Ht]. split; [done |]. by eexists _, _.
        -- intros [Ht (ms' & n' & [= <- <-] & Hd)]. done.
  - intros [= <- <-]. split_and!.
    + by eexists.
    + split; [by intros (e & i & ?) | by intros (? & ? & ? & _)].
    + done.
    + split; [done | by intros [_ (? & ? & ? & _)]].
Qed.

Lemma cookieGate_rejects_absent_or_expired_cookies_witness :
  ∃ ms n, CookieUtils.earliestAuthExpiry Samples.exported = Some (ms, n)
          ∧ (ms ≤ Samples.after)%Z.
Proof.
  destruct (cookieGate_rejects_absent_or_expired_cookies Samples.locale
              Samples.exported (Some "https://hooks.slack.example/T0")
              Samples.after
              (CookieUtils.Reject400
                 "Cookies have expired. Please export fresh cookies from Clarity."
                 (Some {| CookieUtils.valid := false;
                          CookieUtils.expired := Some true;
                          CookieUtils.error := None;
                          CookieUtils.authCookie := Some "aadprofile";
                          CookieUtils.expiresAt := Some "2025-06-15T15:06:40.000Z";
                          CookieUtils.expiresAtFormatted :=
                            Some "2025-06-15T15:06:40.000Z";
                          CookieUtils.daysRemaining := Some (-16)%Z;
                          CookieUtils.hoursRemaining := Some (-369)%Z;
                          CookieUtils.warningLevel :=
                            Some CookieUtils.LevelExpired |}))
              true) as (_ & Hrej & _).
  { vm_compute. reflexivity. }
  apply Hrej. eexists _, _. reflexivity.
Defined.

(** ** Splitting, joining and trimming *)

Module JsTrimFacts.
Import JsString JsText JsStringFacts.

Lemma join_cons c p ps :
  ps ≠ [] → join c (p :: ps) = p +:+ String c (join c ps).
Proof. by destruct ps. Qed.

Lemma join_split c s : join c (split c s) = s.
Proof.
  induction s as [|x s IH]; [done |].
  pose proof (JsTextFacts.split_nonempty c s) as Hne.
  cbn [split]. destruct (Ascii.eqb_spec x c) as [-> | Hxc].
  - by rewrite join_cons, IH.
  - destruct (split c s) as [|p ps]; [done |].
    destruct ps as [|q ps].
    + simpl in *. by rewrite IH.
    + rewrite join_cons in IH |- * by done. by rewrite app_cons, IH.
Qed.

Lemma lacks_app c a b : lacks c (a +:+ b) = lacks c a && lacks c b.
Proof.
  induction a as [|x a IH]; sapp; [done |]. by rewrite IH, andb_assoc.
Qed.

Lemma length_trimStart s : String.length (trimStart s) ≤ String.length s.
Proof. induction s as [|c s IH]; simpl; [done |]. destruct (is_space c); simpl; lia. Qed.

Lemma length_trimEnd s : String.length (trimEnd s) ≤ String.length s.
Proof.
  induction s as [|c s IH]; simpl; [done |].
  destruct (is_space c && String.eqb (trimEnd s) ""); simpl; lia.
Qed.

(** A string [trim] leaves alone begins with no space, and [trimEnd]
    leaves it alone too. *)
Lemma trim_fixed_start c s : trim (String c s) = String c s → is_space c = false.
Proof.
  unfold trim. simpl. destruct (is_space c) eqn:Hc; [| done].
  intros H. apply (f_equal String.length) in H. simpl in H.
  pose proof (length_trimEnd (trimStart s)). pose proof (length_trimStart s). lia.
Qed.

Lemma trim_fixed_end s : trim s = s → trimEnd s = s.
Proof.
  destruct s as [|c s]; [done |]. intros H.
  pose proof (trim_fixed_start _ _ H) as Hc. revert H. unfold trim.
  cbn [trimStart]. by rewrite Hc.
Qed.

Lemma trimEnd_app a b : trimEnd b ≠ "" → trimEnd (a +:+ b) = a +:+ trimEnd b.
Proof.
  intros Hb. induction a as [|c a IH]; sapp; [done |].
  rewrite IH. destruct (String.eqb_spec (a +:+ trimEnd b) "") as [He | _].
  - exfalso. destruct a; [by rewrite app_empty in He | done].
  - by rewrite andb_false_r.
Qed.

Lemma trim_space s : trim (String " " s) = trim s.
Proof. reflexivity. Qed.

Lemma trim_pair n v :
  n ≠ "" → trim n = n → trim v = v →
  trim (n +:+ String "=" v) = n +:+ String "=" v.
Proof.
  intros Hn Htn Htv. destruct n as [|c n]; [done |].
  pose proof (trim_fixed_start _ _ Htn) as Hc.
  unfold trim. rewrite app_cons. simpl trimStart. rewrite Hc.
  rewrite <- app_cons. rewrite trimEnd_app.
  - simpl. by rewrite (trim_fixed_end _ Htv).
  - simpl. done.
Qed.

End JsTrimFacts.

Module HeaderFacts.
Import JsString JsText JsStringFacts CookieUtils.

Lemma parsePair_space pair : parsePair (String " " pair) = parsePair pair.
Proof. unfold parsePair. by rewrite JsTrimFacts.trim_space. Qed.

Lemma parsePair_pair p :
  headerPair p = true →
  parsePair (p.1 +:+ String "=" p.2) = [headerCookie p.1 p.2].
Proof.
  unfold headerPair. destruct p as [n v]. simpl.
  rewrite !andb_true_iff.
  intros [[[[[Hne _] Heq] Htn] _] Htv].
  apply negb_true_iff in Hne. apply String.eqb_neq in Hne.
  apply String.eqb_eq in Htn, Htv.
  unfold parsePair. rewrite JsTrimFacts.trim_pair by done.
  rewrite JsTextFacts.split_app, (JsTextFacts.split_lacks _ _ Heq).
  cbn [app]. rewrite JsTrimFacts.join_split, Htn, Htv.
  assert (Hlen : Nat.ltb 0 (length (split "=" v)) = true).
  { pose proof (JsTextFacts.split_nonempty "=" v) as Hv.
    by destruct (split "=" v). }
  rewrite Hlen. apply String.eqb_neq in Hne. by rewrite Hne.
Qed.

Lemma lacks_pair p :
  headerPair p = true → lacks ";" (p.1 +:+ String "=" p.2) = true.
Proof.
  unfold headerPair. rewrite !andb_true_iff.
  intros [[[[[_ Hn] _] _] Hv] _].
  rewrite JsTrimFacts.lacks_app. simpl. by rewrite Hn, Hv.
Qed.

Lemma flat_map_space s :
  flat_map parsePair (split ";" (String " " s))
  = flat_map parsePair (split ";" s).
Proof.
  simpl. pose proof (JsTextFacts.split_nonempty ";" s).
  destruct (split ";" s) as [|p ps]; [done |]. simpl.
  by rewrite parsePair_space.
Qed.

Lemma headerString_cons p q rest :
  headerString (p :: q :: rest)
  = (p.1 +:+ String "=" p.2)
    +:+ String ";" (String " " (headerString (q :: rest))).
Proof.
  simpl. change "=" with (String "=" "").
  rewrite !JsStringFacts.app_assoc. reflexivity.
Qed.

End HeaderFacts.

(** X21: [parseCookieHeaderString] reads back a cookie header. For names
    and values as a header carries them (no [;], no [=] in a name, no empty
    name, no white space around them; a value may contain [=]), the string
    [name=value; name2=value2; ...] parses to those names and values, in
    order, each with the defaults ['.microsoft.com'], ['/'], secure, not
    httpOnly and ['Lax']; so the empty string parses to no cookie. *)
Theorem parseCookieHeaderString_reads_back_a_header
    (pairs : list (string * string)) :
  forallb CookieUtils.headerPair pairs = true →
  CookieUtils.parseCookieHeaderString (CookieUtils.headerString pairs)
  = (λ p, CookieUtils.headerCookie p.1 p.2) <$> pairs.
Proof.
  unfold CookieUtils.parseCookieHeaderString.
  induction pairs as [|p pairs IH]; [done |].
  intros [Hp Hps]%andb_true_iff.
  destruct pairs as [|q rest].
  - change (CookieUtils.headerString [p]) with (p.1 +:+ String "=" p.2).
    rewrite JsTextFacts.split_lacks by (by apply HeaderFacts.lacks_pair).
    simpl. by rewrite HeaderFacts.parsePair_pair, app_nil_r.
  - rewrite HeaderFacts.headerString_cons, JsTextFacts.split_app.
    rewrite JsTextFacts.split_lacks by (by apply HeaderFacts.lacks_pair).
    rewrite flat_map_app, HeaderFacts.flat_map_space, (IH Hps).
    simpl. by rewrite HeaderFacts.parsePair_pair, app_nil_r.
Qed.

Lemma parseCookieHeaderString_reads_back_a_header_witness :
  CookieUtils.parseCookieHeaderString "aadprofile=a=b==; MUID=123"
  = [CookieUtils.headerCookie "aadprofile" "a=b=="; CookieUtils.headerCookie "MUID" "123"].
Proof.
  apply (parseCookieHeaderString_reads_back_a_header
           [("aadprofile", "a=b=="); ("MUID", "123")]).
  vm_compute. reflexivity.
Defined.
